(** * PRD generator: story extractor and document assembler

    A shallow embedding of [UserStoryParser] and [PRDGenerator] from
    [prd_generator.py], with the fragment of Python's [str] and [re]
    that the two classes use.

    Text is a list of characters, a character being one of the 256 code
    points U+0000 to U+00FF.  The character tables ([isspace], the
    classes [\s], [\w], [\d], case mapping) are those of Python on
    these code points.  Two of them have their upper case above U+00FF,
    the micro sign U+00B5 and the y with diaeresis U+00FF: the model
    leaves them as they are, so its [capitalize] and [upper] are those of
    Python on the texts where they do not have to change these two.
    Integers are Python's [int], here [Z] and [nat].
    [int()] has the limit of CPython on the number of digits that it
    converts; printing an integer has no limit in the model, and every
    integer that the parser returns is below the limit of CPython.  An
    operation that raises in Python returns [Raise] here. *)

From Stdlib Require Import List Ascii String ZArith Lia DecimalString.
From Stdlib Require DecimalFacts DecimalNat.
From stdpp Require Import base list strings gmap.

Local Open Scope string_scope.
Local Open Scope list_scope.

(** ** Python values *)

Module Py.

Definition str := list ascii.

(** A literal of the source. *)
Definition s (lit : string) : str := list_ascii_of_string lit.
Global Opaque s.

Definition nl : ascii := "010"%char.

(** The classes of the exceptions of the model; [OtherException] is an
    exception of any other class, raised outside this program. *)
Inductive exn :=
| AttributeError | TypeError | ValueError | OSError | OtherException.

Inductive result (A : Type) :=
| Ok (a : A)
| Raise (e : exn).
Arguments Ok {A} a.
Arguments Raise {A} e.

Definition bind {A B} (x : result A) (f : A -> result B) : result B :=
  match x with
  | Ok a => f a
  | Raise e => Raise e
  end.

Definition code (a : ascii) : N := N_of_ascii a.

Definition between (lo hi : N) (a : ascii) : bool :=
  ((lo <=? code a) && (code a <=? hi))%N.

(** [str.isspace] on one character, which is also the class [\s] and
    what [strip] removes: tab, newline, vertical tab, form feed, carriage
    return, the four separators 28..31, the space, the next line control
    U+0085 and the no-break space U+00A0. *)
Definition isspace (a : ascii) : bool :=
  between 9 13 a || between 28 32 a || (code a =? 133)%N || (code a =? 160)%N.

(** The class [\d]: below U+0100 the ten digits. *)
Definition isdigit (a : ascii) : bool := between 48 57 a.

(** [str.isupper] on one character: [A] to [Z], and U+00C0 to U+00DE
    without the multiplication sign U+00D7. *)
Definition isupper (a : ascii) : bool :=
  between 65 90 a || between 192 214 a || between 216 222 a.

(** The lower case letters that have their upper case below U+0100 in one
    character: [a] to [z], and U+00E0 to U+00FE without the division sign
    U+00F7. *)
Definition islower (a : ascii) : bool :=
  between 97 122 a || between 224 246 a || between 248 254 a.

(** The class [\w]: the characters that [str.isalnum] accepts and the
    underscore.  Above U+007F these are the two ordinal indicators, the
    superscripts 1, 2 and 3, the micro sign, the three fractions and the
    letters U+00C0 to U+00FF. *)
Definition isword (a : ascii) : bool :=
  isdigit a || between 65 90 a || between 97 122 a || (code a =? 95)%N ||
  (code a =? 170)%N || between 178 179 a || (code a =? 181)%N ||
  between 185 186 a || between 188 190 a ||
  between 192 214 a || between 216 246 a || between 248 255 a.

(** The lower case of a character. *)
Definition lower_char (a : ascii) : ascii :=
  if isupper a then ascii_of_N (code a + 32) else a.

(** The upper case of a character when that is one character below
    U+0100; the sharp s, U+00B5 and U+00FF stay here. *)
Definition upper_char (a : ascii) : ascii :=
  if islower a then ascii_of_N (code a - 32) else a.

(** The sharp s U+00DF, the one character below U+0100 whose upper case
    and title case have two characters. *)
Definition sharp_s : ascii := ascii_of_N 223.

(** The two characters whose upper case is above U+00FF. *)
Definition upper_outside (a : ascii) : bool :=
  (code a =? 181)%N || (code a =? 255)%N.

(** [str.lower] *)
Definition lower (x : str) : str := map lower_char x.

(** The title case of one character, as [capitalize] takes it. *)
Definition title_full (a : ascii) : str :=
  if Ascii.eqb a sharp_s then ["S"%char; "s"%char] else [upper_char a].

(** [str.capitalize]: the first character in title case (in upper case
    before Python 3.8, which differs for the sharp s only), the rest in
    lower case. *)
Definition capitalize (x : str) : str :=
  match x with
  | [] => []
  | a :: x' => title_full a ++ lower x'
  end.

Fixpoint lstrip (x : str) : str :=
  match x with
  | [] => []
  | a :: x' => if isspace a then lstrip x' else x
  end.

Definition rstrip (x : str) : str := rev (lstrip (rev x)).

(** [str.strip()] without argument. *)
Definition strip (x : str) : str := rstrip (lstrip x).

(** [x.split(sep)] for a separator of one character; the result always
    has at least one element. *)
Fixpoint split (sep : ascii) (x : str) : list str :=
  match x with
  | [] => [[]]
  | a :: x' =>
      if Ascii.eqb a sep then [] :: split sep x'
      else match split sep x' with
           | l :: ls => (a :: l) :: ls
           | [] => [[a]]
           end
  end.

(** [sep.join(ls)]. *)
Fixpoint join (sep : str) (ls : list str) : str :=
  match ls with
  | [] => []
  | l :: ls' =>
      match ls' with
      | [] => l
      | _ :: _ => l ++ sep ++ join sep ls'
      end
  end.

(** Truthiness of a string and of a list: non-empty. *)
Definition truthy {A} (l : list A) : bool :=
  match l with
  | [] => false
  | _ :: _ => true
  end.

(** [str(n)] and the f-string field [{n}] for an integer. *)
Definition str_of_nat (n : nat) : str :=
  s (NilEmpty.string_of_uint (Nat.to_uint n)).
Definition str_of_Z (z : Z) : str :=
  s (NilEmpty.string_of_int (Z.to_int z)).

(** The f-string field [{n:03d}]: decimal, padded with zeros on the left
    to a width of three. *)
Definition fmt_03d (n : nat) : str :=
  let d := str_of_nat n in
  replicate (3 - length d) "0"%char ++ d.

Definition digit_val (a : ascii) : Z := Z.of_N (code a) - 48.

(** [sys.int_info.default_max_str_digits]: the most digits that
    [int()] converts, in CPython from 3.11 on and in the later releases
    of 3.7 to 3.10, unless the program or the environment sets another
    limit; this program sets none. *)
Definition max_str_digits : nat := 4300.

(** [int(x)] for a string of decimal digits, the only strings the
    parser passes to it; any other string is a [ValueError] here
    (Python also accepts a sign, surrounding blanks and underscores).
    More digits than the limit, leading zeros counted, are a
    [ValueError]. *)
Definition int (x : str) : result Z :=
  if truthy x && forallb isdigit x then
    if (max_str_digits <? length x)%nat then Raise ValueError
    else Ok (fold_left (fun acc a => 10 * acc + digit_val a)%Z x 0%Z)
  else Raise ValueError.

End Py.

(** ** The fragment of [re] used by the parser *)

Module Re.
Import Py.

Inductive regex :=
| Eps
| Lit (a : ascii)                 (* a literal character *)
| Dot                             (* [.] *)
| Space                           (* [\s] *)
| Word                            (* [\w] *)
| Digit                           (* [\d] *)
| Eos                             (* [$] *)
| Seq (r1 r2 : regex)
| Alt (r1 r2 : regex)             (* [r1|r2], ordered *)
| Star (greedy : bool) (r : regex)  (* [r*] and [r*?] *)
| Group (i : nat) (r : regex).    (* the capturing group number [i] *)

Record flags := { IGNORECASE : bool; DOTALL : bool }.

Definition Plus (greedy : bool) (r : regex) : regex := Seq r (Star greedy r).
Definition Opt (r : regex) : regex := Alt r Eps.      (* [r?], greedy *)
Fixpoint Lits (x : str) : regex :=
  match x with
  | [] => Eps
  | a :: x' => Seq (Lit a) (Lits x')
  end.

(** Groups that did not take part in the match are [None]. *)
Abbreviation caps := (list (option str)).

Definition lit_eq (fl : flags) (a b : ascii) : bool :=
  if IGNORECASE fl then Ascii.eqb (lower_char a) (lower_char b)
  else Ascii.eqb a b.

Definition one (p : ascii -> bool) {A} (x : str) (c : caps)
    (k : str -> caps -> option A) : option A :=
  match x with
  | a :: x' => if p a then k x' c else None
  | [] => None
  end.

Definition or_else {A} (x : option A) (y : unit -> option A) : option A :=
  match x with
  | Some v => Some v
  | None => y tt
  end.

(** The loop of a starred pattern, [body] matching the pattern once:
    a greedy loop tries one more turn first, a lazy loop tries to leave
    first.  A turn that consumes nothing is not repeated; [fuel] is the
    number of characters left when the loop starts. *)
Fixpoint star_loop {A}
    (body : str -> caps -> (str -> caps -> option A) -> option A)
    (greedy : bool) (k : str -> caps -> option A)
    (fuel : nat) (x : str) (c : caps) {struct fuel} : option A :=
  match fuel with
  | O => k x c
  | S fuel' =>
      let again (_ : unit) :=
        body x c (fun x' c' =>
          if (length x' <? length x)%nat
          then star_loop body greedy k fuel' x' c' else None) in
      if greedy then or_else (again tt) (fun _ => k x c)
      else or_else (k x c) again
  end.

(** Backtracking matcher in continuation-passing style: [m fl r x c k]
    matches [r] at the front of [x] and hands the rest of the text and
    the captures to [k]; when [k] fails the next alternative is tried,
    in the order of [re]: the left branch of [|] first. *)
Fixpoint m {A} (fl : flags) (r : regex) (x : str) (c : caps)
    (k : str -> caps -> option A) {struct r} : option A :=
  match r with
  | Eps => k x c
  | Lit a => one (lit_eq fl a) x c k
  | Dot => one (fun b => DOTALL fl || negb (Ascii.eqb b nl)) x c k
  | Space => one isspace x c k
  | Word => one isword x c k
  | Digit => one isdigit x c k
  | Eos =>
      match x with
      | [] => k x c
      | [b] => if Ascii.eqb b nl then k x c else None
      | _ => None
      end
  | Seq r1 r2 => m fl r1 x c (fun x' c' => m fl r2 x' c' k)
  | Alt r1 r2 => or_else (m fl r1 x c k) (fun _ => m fl r2 x c k)
  | Star greedy r1 => star_loop (m fl r1) greedy k (length x) x c
  | Group i r1 =>
      m fl r1 x c (fun x' c' =>
        k x' (<[i := Some (take (length x - length x') x)]> c'))
  end.

Fixpoint ngroups (r : regex) : nat :=
  match r with
  | Seq r1 r2 | Alt r1 r2 => ngroups r1 `max` ngroups r2
  | Star _ r1 => ngroups r1
  | Group i r1 => i `max` ngroups r1
  | _ => 0
  end.

(** A match object: the captures, by group number (entry 0 is the whole
    match), and the text left after the match. *)
Record match_obj := { groups_of : caps; rest_of : str }.

Definition group (mo : match_obj) (i : nat) : option str :=
  mjoin (groups_of mo !! i).

(** [Pattern.match] at the front of [x]. *)
Definition match_here (fl : flags) (r : regex) (x : str) : option match_obj :=
  m fl (Group 0 r) x (replicate (S (ngroups r)) None)
    (fun x' c' => Some {| groups_of := c'; rest_of := x' |}).

(** [re.search]: the match at the first position that has one. *)
Fixpoint search (fl : flags) (r : regex) (x : str) : option match_obj :=
  match match_here fl r x with
  | Some mo => Some mo
  | None =>
      match x with
      | [] => None
      | _ :: x' => search fl r x'
      end
  end.

(** [re.findall] for a pattern with one group: group 1 of the
    successive matches, each search starting where the previous match
    ended.  [skip] characters belong to the previous match.  Every
    pattern the parser gives to [findall] consumes a character; after an
    empty match this model moves on by one character. *)
Fixpoint findall_from (fl : flags) (r : regex) (skip : nat) (x : str)
    : list str :=
  match skip with
  | S skip' =>
      match x with
      | [] => []
      | _ :: x' => findall_from fl r skip' x'
      end
  | O =>
      match match_here fl r x with
      | Some mo =>
          default [] (group mo 1) ::
          match x with
          | [] => []
          | _ :: x' =>
              findall_from fl r (length x - length (rest_of mo) - 1) x'
          end
      | None =>
          match x with
          | [] => []
          | _ :: x' => findall_from fl r 0 x'
          end
      end
  end.

Definition findall (fl : flags) (r : regex) (x : str) : list str :=
  findall_from fl r 0 x.

End Re.

(** ** [UserStoryParser] *)

Module Parser.
Import Py Re.

Record UserStory := {
  title : str;
  description : str;
  acceptance_criteria : list str;
  priority : str;
  story_points : option Z
}.

Definition I := {| IGNORECASE := true; DOTALL := false |}.
Definition I_S := {| IGNORECASE := true; DOTALL := true |}.

(** [self.story_patterns], entry by entry. *)

(** [As a (.+?), I want (.+?) so that (.+?)(?:\.|$)] *)
Definition gherkin : regex :=
  Seq (Lits (s "As a "))
 (Seq (Group 1 (Plus false Dot))
 (Seq (Lits (s ", I want "))
 (Seq (Group 2 (Plus false Dot))
 (Seq (Lits (s " so that "))
 (Seq (Group 3 (Plus false Dot))
      (Alt (Lit ".") Eos)))))).

(** [(.+?)(?:\n|$)]; the parser never reads this entry. *)
Definition simple : regex :=
  Seq (Group 1 (Plus false Dot)) (Alt (Lit nl) Eos).

(** [(?:Given|When|Then|And)\s+(.+?)(?:\n|$)] *)
Definition acceptance : regex :=
  Seq (Alt (Lits (s "Given"))
      (Alt (Lits (s "When"))
      (Alt (Lits (s "Then")) (Lits (s "And")))))
 (Seq (Plus true Space)
 (Seq (Group 1 (Plus false Dot))
      (Alt (Lit nl) Eos))).

(** [(?:Acceptance Criteria?:|AC:)\s*\n?(G)] where the group [G] is
    [(?:.+\n?)] under a star. *)
Definition criteria : regex :=
  Seq (Alt (Seq (Lits (s "Acceptance Criteri")) (Seq (Opt (Lit "a")) (Lit ":")))
           (Lits (s "AC:")))
 (Seq (Star true Space)
 (Seq (Opt (Lit nl))
      (Group 1 (Star true (Seq (Plus true Dot) (Opt (Lit nl))))))).

(** [(?:Priority:|Prio:)\s*(\w+)] *)
Definition priority_re : regex :=
  Seq (Alt (Lits (s "Priority:")) (Lits (s "Prio:")))
 (Seq (Star true Space)
      (Group 1 (Plus true Word))).

(** [(?:Story Points?:|Points?:|SP:)\s*(\d+)] *)
Definition points : regex :=
  Seq (Alt (Seq (Lits (s "Story Point")) (Seq (Opt (Lit "s")) (Lit ":")))
      (Alt (Seq (Lits (s "Point")) (Seq (Opt (Lit "s")) (Lit ":")))
           (Lits (s "SP:"))))
 (Seq (Star true Space)
      (Group 1 (Plus true Digit))).

(** How an f-string shows a group: its text, or [None]. *)
Definition fmt_group (g : option str) : str := default (s "None") g.

(** A method call on a group: on [None] it is an [AttributeError]. *)
Definition as_str (g : option str) : result str :=
  match g with
  | Some x => Ok x
  | None => Raise AttributeError
  end.

(** One turn of the loop of [_split_into_stories]; the state is
    [(current_story, stories)]. *)
Definition split_step (st : list str * list str) (line : str)
    : list str * list str :=
  let '(current_story, stories) := st in
  let line := strip line in
  if negb (truthy line) then
    if truthy current_story
    then ([], stories ++ [join [nl] current_story])
    else (current_story, stories)
  else (current_story ++ [line], stories).

Definition _split_into_stories (text : str) : list str :=
  let lines := split nl (strip text) in
  let '(current_story, stories) := fold_left split_step lines ([], []) in
  if truthy current_story
  then stories ++ [join [nl] current_story]
  else stories.

Definition _parse_single_story (text : str) : result (option UserStory) :=
  let title := [] in
  let description := [] in
  let acceptance_criteria := [] in
  let priority := s "Medium" in
  let story_points := None in
  let gherkin_match := search I gherkin text in
  let '(title, description) :=
    match gherkin_match with
    | Some mo =>
        let persona := group mo 1 in
        let action := group mo 2 in
        let benefit := group mo 3 in
        (s "User Story: " ++ fmt_group action,
         s "As a " ++ fmt_group persona ++ s ", I want " ++ fmt_group action
           ++ s " so that " ++ fmt_group benefit)
    | None =>
        let lines := split nl text in
        if truthy lines then
          let line0 := default [] (head lines) in
          (if (100 <? length line0)%nat
           then take 100 line0 ++ s "..." else line0,
           text)
        else (title, description)
    end in
  let criteria_match := search I_S criteria text in
  bind
    match criteria_match with
    | Some mo =>
        bind (as_str (group mo 1)) (fun criteria_text =>
        Ok (omap (fun ac => if truthy (strip ac) then Some (strip ac) else None)
              (split nl criteria_text)))
    | None => Ok acceptance_criteria
    end (fun acceptance_criteria =>
  let acceptance_matches := findall I acceptance text in
  let acceptance_criteria := acceptance_criteria ++ acceptance_matches in
  let priority_match := search I priority_re text in
  bind
    match priority_match with
    | Some mo => bind (as_str (group mo 1)) (fun w => Ok (capitalize w))
    | None => Ok priority
    end (fun priority =>
  let points_match := search I points text in
  bind
    match points_match with
    | Some mo =>
        match group mo 1 with
        | Some d => bind (int d) (fun n => Ok (Some n))
        | None => Raise TypeError
        end
    | None => Ok story_points
    end (fun story_points =>
  if truthy title && truthy description then
    Ok (Some {| title := title;
                description := description;
                acceptance_criteria := acceptance_criteria;
                priority := priority;
                story_points := story_points |})
  else Ok None))).

(** One turn of the loop of [parse_user_stories]; an exception of
    [_parse_single_story] ends the call. *)
Definition parse_step (acc : result (list UserStory)) (block : str)
    : result (list UserStory) :=
  bind acc (fun stories =>
  bind (_parse_single_story block) (fun story =>
  match story with
  | Some st => Ok (stories ++ [st])
  | None => Ok stories
  end)).

Definition parse_user_stories (text : str) : result (list UserStory) :=
  let story_blocks := _split_into_stories text in
  fold_left parse_step story_blocks (Ok []).

End Parser.

(** ** [PRDGenerator] *)

Module Generator.
Import Py Parser.

Record PRDSection := { title : str; content : str }.

(** The project information: a [dict] from keys to text. *)
Abbreviation ProjectInfo := (gmap string str).

(** [project_info.get(key, dflt)] *)
Definition get (project_info : ProjectInfo) (key : string) (dflt : str) : str :=
  default dflt (project_info !! key).

(** A literal that spans several lines of the source, line by line. *)
Definition text (lines : list str) : str := join [nl] lines.

(** [enumerate(l, start)] *)
Fixpoint enumerate {A} (start : nat) (l : list A) : list (nat * A) :=
  match l with
  | [] => []
  | a :: l' => (start, a) :: enumerate (S start) l'
  end.

(** Truthiness of [story.story_points]: set and not zero. *)
Definition truthy_points (p : option Z) : bool :=
  match p with
  | Some z => negb (z =? 0)%Z
  | None => false
  end.

(** The f-string field [{story.story_points}]. *)
Definition fmt_points (p : option Z) : str :=
  match p with
  | Some z => str_of_Z z
  | None => s "None"
  end.

(** [today] is [datetime.datetime.now().strftime('%Y-%m-%d')], the one
    input of the generator that is not an argument in the source. *)
Definition _generate_project_info (today : str) (project_info : ProjectInfo)
    : str :=
  strip (text [
    [];
    s "Project Title: " ++ get project_info "title" (s "Untitled Project");
    s "Author: " ++ get project_info "author" (s "Unknown");
    s "Date: " ++ get project_info "date" today;
    s "Version: " ++ get project_info "version" (s "1.0");
    s "Status: " ++ get project_info "status" (s "Draft");
    s "Target Release: " ++ get project_info "target_release" (s "TBD");
    s "        " ]).

Definition _generate_executive_summary (user_stories : list UserStory)
    (project_info : ProjectInfo) : str :=
  let total_stories := length user_stories in
  let high_priority :=
    length (filter (fun st => lower (priority st) = s "high") user_stories) in
  strip (text [
    [];
    s "This Product Requirements Document outlines the requirements for "
      ++ get project_info "title" (s "the project") ++ s ".";
    [];
    s "The product addresses key user needs through "
      ++ str_of_nat total_stories ++ s " user stories, with "
      ++ str_of_nat high_priority
      ++ s " high-priority features identified. This document serves as the primary reference for development teams, stakeholders, and project managers throughout the product development lifecycle.";
    [];
    s "Key objectives:";
    s "- Deliver user-centered features based on identified user stories";
    s "- Ensure clear requirements and acceptance criteria";
    s "- Provide measurable success metrics";
    s "- Establish development timeline and constraints";
    s "        " ]).

Definition _generate_product_overview (project_info : ProjectInfo) : str :=
  strip (text [
    [];
    s "Product Vision: "
      ++ get project_info "vision" (s "To be defined based on user requirements");
    [];
    s "Target Users: Based on the user stories, the primary users include various personas who require the functionality described in the requirements.";
    [];
    s "Core Value Proposition: The product will deliver value by addressing specific user needs as outlined in the user stories section.";
    [];
    s "Scope: This PRD covers the features and functionality derived from the provided user stories and their associated acceptance criteria.";
    s "        " ]).

(** The body of the loop of [_generate_user_stories_section]. *)
Definition user_story_step (content : str) (ist : nat * UserStory) : str :=
  let '(i, story) := ist in
  let content := content ++ s "US" ++ fmt_03d i ++ s ": " ++ Parser.title story ++ [nl] in
  let content := content ++ s "Description: " ++ description story ++ [nl] in
  let content := content ++ s "Priority: " ++ priority story ++ [nl] in
  let content :=
    if truthy_points (story_points story)
    then content ++ s "Story Points: " ++ fmt_points (story_points story) ++ [nl]
    else content in
  content ++ [nl].

Definition _generate_user_stories_section (user_stories : list UserStory) : str :=
  let content :=
    s "The following user stories define the core requirements for this product:"
      ++ [nl; nl] in
  strip (fold_left user_story_step (enumerate 1 user_stories) content).

(** The body of the loop of [_generate_functional_requirements]. *)
Definition functional_step (content : str) (ist : nat * UserStory) : str :=
  let '(i, story) := ist in
  let content := content ++ s "FR" ++ fmt_03d i ++ s ": " ++ Parser.title story ++ [nl] in
  let content :=
    content ++ s "The system shall implement functionality to: "
      ++ description story ++ [nl] in
  content ++ s "Priority Level: " ++ priority story ++ [nl; nl].

Definition _generate_functional_requirements (user_stories : list UserStory)
    : str :=
  let content :=
    s "Based on the user stories, the following functional requirements have been identified:"
      ++ [nl; nl] in
  strip (fold_left functional_step (enumerate 1 user_stories) content).

(** The body of the inner loop of [_generate_acceptance_criteria]. *)
Definition criterion_step (i : nat) (content : str) (jc : nat * str) : str :=
  let '(j, criteria) := jc in
  content ++ s "  AC" ++ fmt_03d i ++ s "." ++ str_of_nat j ++ s ": "
    ++ criteria ++ [nl].

(** The body of its outer loop. *)
Definition acceptance_step (content : str) (ist : nat * UserStory) : str :=
  let '(i, story) := ist in
  if truthy (acceptance_criteria story) then
    let content :=
      content ++ s "US" ++ fmt_03d i ++ s " - " ++ Parser.title story
        ++ s ":" ++ [nl] in
    let content :=
      fold_left (criterion_step i) (enumerate 1 (acceptance_criteria story))
        content in
    content ++ [nl]
  else content.

Definition _generate_acceptance_criteria (user_stories : list UserStory) : str :=
  let content := s "Acceptance criteria for each user story:" ++ [nl; nl] in
  strip (fold_left acceptance_step (enumerate 1 user_stories) content).

Definition _generate_assumptions : str :=
  strip (text [
    [];
    s "The following assumptions are made for this product development:";
    [];
    s "1. Technical infrastructure and development resources are available";
    s "2. User stories represent validated user needs";
    s "3. Acceptance criteria are complete and testable";
    s "4. Dependencies with external systems are manageable";
    s "5. Timeline estimates are based on standard development practices";
    [];
    s "These assumptions should be validated and updated as the project progresses.";
    s "        " ]).

Definition _generate_success_metrics : str :=
  strip (text [
    [];
    s "Success will be measured using the following metrics:";
    [];
    s "1. Feature Completion Rate: Percentage of user stories successfully implemented";
    s "2. Acceptance Criteria Pass Rate: Percentage of acceptance criteria met";
    s "3. User Satisfaction: To be measured through user feedback and testing";
    s "4. Performance Metrics: Response time, uptime, and system reliability";
    s "5. Adoption Metrics: User engagement and feature utilization";
    [];
    s "Specific targets and measurement methods should be defined during the planning phase.";
    s "        " ]).

Definition generate_prd (today : str) (user_stories : list UserStory)
    (project_info : ProjectInfo) : list PRDSection :=
  let sections := [] in
  let sections := sections ++ [{| title := s "Project Information";
    content := _generate_project_info today project_info |}] in
  let sections := sections ++ [{| title := s "Executive Summary";
    content := _generate_executive_summary user_stories project_info |}] in
  let sections := sections ++ [{| title := s "Product Overview";
    content := _generate_product_overview project_info |}] in
  let sections := sections ++ [{| title := s "User Stories and Requirements";
    content := _generate_user_stories_section user_stories |}] in
  let sections := sections ++ [{| title := s "Functional Requirements";
    content := _generate_functional_requirements user_stories |}] in
  let sections := sections ++ [{| title := s "Acceptance Criteria";
    content := _generate_acceptance_criteria user_stories |}] in
  let sections := sections ++ [{| title := s "Assumptions and Constraints";
    content := _generate_assumptions |}] in
  let sections := sections ++ [{| title := s "Success Metrics";
    content := _generate_success_metrics |}] in
  sections.

End Generator.


Import Py Re Parser Generator.

(** ** Notions used to state the properties *)

(** A text of blanks only; an empty text is blank. *)
Definition blank (x : str) : bool := forallb isspace x.

(** The example inputs of the specification. *)
Definition gherkin_example : str :=
  s "As a tester, I want to run suites so that bugs are caught early.".

Definition criteria_example : str :=
  text [ s "Acceptance Criteria:"; s "- A"; s "- B"; s "Given X" ].

(** The text that one turn of each loop of the generator appends. *)
Definition us_entry (i : nat) (story : UserStory) : str :=
  user_story_step [] (i, story).
Definition fr_entry (i : nat) (story : UserStory) : str :=
  functional_step [] (i, story).
Definition ac_entry (i : nat) (story : UserStory) : str :=
  acceptance_step [] (i, story).

(** A story with other story points. *)
Definition with_points (p : option Z) (story : UserStory) : UserStory :=
  {| Parser.title := Parser.title story;
     description := description story;
     acceptance_criteria := acceptance_criteria story;
     priority := priority story;
     story_points := p |}.

(** The first lines of sections 4, 5 and 6. *)
Definition us_header : str :=
  s "The following user stories define the core requirements for this product:"
    ++ [nl; nl].
Definition fr_header : str :=
  s "Based on the user stories, the following functional requirements have been identified:"
    ++ [nl; nl].
Definition ac_header : str :=
  s "Acceptance criteria for each user story:" ++ [nl; nl].

(** The blocks of a list of stripped lines as lists of lines: the maximal
    runs of non-empty lines, [cur] being the lines of the run under way. *)
Fixpoint runs (cur : list str) (ls : list str) : list (list str) :=
  match ls with
  | [] => if truthy cur then [cur] else []
  | l :: ls' =>
      if truthy l then runs (cur ++ [l]) ls'
      else (if truthy cur then [cur] else []) ++ runs [] ls'
  end.

(** The run under way, as a list of blocks: itself if it has a line. *)
Definition pending (cur : list str) : list (list str) :=
  if truthy cur then [cur] else [].

(** [padding lines padded]: the list of lines [padded] is [lines] with
    more blank lines, each one put before the first line, after the last
    line, or next to a blank line. *)
Inductive padding : list str -> list str -> Prop :=
| padding_refl lines : padding lines lines
| padding_insert lines before b after :
    padding lines (before ++ after) ->
    blank b = true ->
    before = [] \/ after = [] \/
      (exists p, last before = Some p /\ blank p = true) \/
      (exists q, head after = Some q /\ blank q = true) ->
    padding lines (before ++ b :: after).

(** What a match of a pattern can hand to its continuation: from the
    text [x] and the captures [c], the rest [x'] of the text and the
    captures [c'].  The order in which [re] tries the alternatives is not
    part of it: it holds of every match that the matcher can return. *)
Inductive run (fl : flags) : regex -> str -> caps -> str -> caps -> Prop :=
| run_Eps x c : run fl Eps x c x c
| run_Lit a b x c : lit_eq fl a b = true -> run fl (Lit a) (b :: x) c x c
| run_Dot b x c :
    DOTALL fl || negb (Ascii.eqb b nl) = true -> run fl Dot (b :: x) c x c
| run_Space b x c : isspace b = true -> run fl Space (b :: x) c x c
| run_Word b x c : isword b = true -> run fl Word (b :: x) c x c
| run_Digit b x c : isdigit b = true -> run fl Digit (b :: x) c x c
| run_Eos x c : x = [] \/ x = [nl] -> run fl Eos x c x c
| run_Seq r1 r2 x c x1 c1 x2 c2 :
    run fl r1 x c x1 c1 -> run fl r2 x1 c1 x2 c2 ->
    run fl (Seq r1 r2) x c x2 c2
| run_Alt_l r1 r2 x c x' c' :
    run fl r1 x c x' c' -> run fl (Alt r1 r2) x c x' c'
| run_Alt_r r1 r2 x c x' c' :
    run fl r2 x c x' c' -> run fl (Alt r1 r2) x c x' c'
| run_Star_stop g r x c : run fl (Star g r) x c x c
| run_Star_turn g r x c x1 c1 x2 c2 :
    run fl r x c x1 c1 -> run fl (Star g r) x1 c1 x2 c2 ->
    run fl (Star g r) x c x2 c2
| run_Group i r x c x' c' :
    run fl r x c x' c' ->
    run fl (Group i r) x c x' (<[i := Some (take (length x - length x') x)]> c').

(** The group that ends a pattern, when there is one. *)
Fixpoint last_group (r : regex) : option (nat * regex) :=
  match r with
  | Seq _ r2 => last_group r2
  | Group i rg => Some (i, rg)
  | _ => None
  end.

(** The first character of a text is not a blank. *)
Definition starts_inked (x : str) : Prop :=
  match x with
  | a :: _ => isspace a = false
  | [] => False
  end.

(** The fields of the record of a block, as [_parse_single_story]
    computes them when nothing raises. *)
Definition first_line (text : str) : str := default [] (head (split nl text)).

Definition story_title (text : str) : str :=
  match search I gherkin text with
  | Some mo => s "User Story: " ++ fmt_group (group mo 2)
  | None =>
      if (100 <? length (first_line text))%nat
      then take 100 (first_line text) ++ s "..." else first_line text
  end.

Definition story_description (text : str) : str :=
  match search I gherkin text with
  | Some mo =>
      s "As a " ++ fmt_group (group mo 1) ++ s ", I want "
        ++ fmt_group (group mo 2) ++ s " so that " ++ fmt_group (group mo 3)
  | None => text
  end.

Definition labelled_criteria (text : str) : list str :=
  match search I_S criteria text with
  | Some mo =>
      omap (fun ac => if truthy (strip ac) then Some (strip ac) else None)
        (split nl (default [] (group mo 1)))
  | None => []
  end.

Definition story_criteria (text : str) : list str :=
  labelled_criteria text ++ findall I acceptance text.

Definition story_priority (text : str) : str :=
  match search I priority_re text with
  | Some mo => capitalize (default [] (group mo 1))
  | None => s "Medium"
  end.

(** The number that a string of digits writes. *)
Definition int_value (d : str) : Z :=
  fold_left (fun acc a => 10 * acc + digit_val a)%Z d 0%Z.

Definition story_points_of (text : str) : option Z :=
  match search I points text with
  | Some mo => Some (int_value (default [] (group mo 1)))
  | None => None
  end.

(** The digits that [_parse_single_story] gives to [int()]: the number
    after the first story points label of the block, when there is one. *)
Definition points_digits (text : str) : option str :=
  match search I points text with
  | Some mo => Some (default [] (group mo 1))
  | None => None
  end.

(** This number has more digits than [int()] converts. *)
Definition points_overflow (text : str) : bool :=
  match points_digits text with
  | Some d => (max_str_digits <? length d)%nat
  | None => false
  end.

Definition story_of (text : str) : UserStory :=
  {| Parser.title := story_title text;
     description := story_description text;
     acceptance_criteria := story_criteria text;
     priority := story_priority text;
     story_points := story_points_of text |}.

(** The record of a block, when it has one. *)
Definition record_of (text : str) : option UserStory :=
  if truthy (story_title text) && truthy (story_description text)
  then Some (story_of text) else None.

(** A block whose story points number has one digit more than [int()]
    converts. *)
Definition overlong_points : str :=
  s "SP: " ++ replicate (S max_str_digits) "1"%char.

(** The characters of a list of lines, a newline counted for each. *)
Definition weight (ls : list str) : nat :=
  fold_right (fun l n => S (length l) + n) 0 ls.

(** A line of 101 characters, and a Gherkin story with an action of 120
    characters. *)
Definition long_line : str := replicate 101 "a"%char.

Definition long_gherkin : str :=
  s "As a user, I want " ++ replicate 120 "x"%char ++ s " so that it works.".

(** ** Labels, in the words of the specification *)

(** The text left after the literal [l] at the front of [x]. *)
Fixpoint lits_rest (fl : flags) (l x : str) : option str :=
  match l with
  | [] => Some x
  | a :: l' =>
      match x with
      | b :: x' => if lit_eq fl a b then lits_rest fl l' x' else None
      | [] => None
      end
  end.

(** The longest prefix of characters of a class, and what follows it. *)
Fixpoint take_class (p : ascii -> bool) (x : str) : str :=
  match x with
  | a :: x' => if p a then a :: take_class p x' else []
  | [] => []
  end.

Fixpoint drop_class (p : ascii -> bool) (x : str) : str :=
  match x with
  | a :: x' => if p a then drop_class p x' else x
  | [] => []
  end.

(** The word after optional blanks, and the text after the word. *)
Definition word_after (x : str) : option (str * str) :=
  match lstrip x with
  | a :: y =>
      if isword a then Some (a :: take_class isword y, drop_class isword y)
      else None
  | [] => None
  end.

Definition label_word (l x : str) : option (str * str) :=
  match lits_rest I l x with
  | Some x1 => word_after x1
  | None => None
  end.

Definition priority_word (x : str) : option (str * str) :=
  or_else (label_word (s "Priority:") x) (fun _ => label_word (s "Prio:") x).

(** [Priority:] or [Prio:], in any case. *)
Definition priority_label (lab : str) : Prop :=
  lower lab = s "priority:" \/ lower lab = s "prio:".

(** A word ends where the text ends or a character is not of a word. *)
Definition word_ends (rest : str) : Prop :=
  match rest with
  | a :: _ => isword a = false
  | [] => True
  end.

(** [priority_at x w]: the text [x] starts with a priority label followed,
    after optional blanks, by the word [w]. *)
Definition priority_at (x w : str) : Prop :=
  exists lab ws rest,
    x = lab ++ ws ++ w ++ rest /\ priority_label lab /\ blank ws = true /\
    w <> [] /\ forallb isword w = true /\ word_ends rest.

(** [Story Points:], [Story Point:], [Points:], [Point:] or [SP:], in any
    case. *)
Definition points_label (lab : str) : Prop :=
  lower lab = s "story points:" \/ lower lab = s "story point:" \/
  lower lab = s "points:" \/ lower lab = s "point:" \/ lower lab = s "sp:".

(** [points_at x]: the text [x] starts with a story points label followed,
    after optional blanks, by a digit. *)
Definition points_at (x : str) : Prop :=
  exists lab ws a rest,
    x = lab ++ ws ++ a :: rest /\ points_label lab /\ blank ws = true /\
    isdigit a = true.

(** Three stories, the second one without acceptance criteria. *)
Definition login_story : UserStory :=
  {| Parser.title := s "Log in";
     description := s "Log in with a password";
     acceptance_criteria := [ s "The password is checked" ];
     priority := s "High";
     story_points := Some 3%Z |}.

Definition logout_story : UserStory :=
  {| Parser.title := s "Log out";
     description := s "Log out";
     acceptance_criteria := [];
     priority := s "Medium";
     story_points := None |}.

Definition export_story : UserStory :=
  {| Parser.title := s "Export";
     description := s "Export the report";
     acceptance_criteria := [ s "A file is written"; s "The file is a PDF" ];
     priority := s "Low";
     story_points := Some 0%Z |}.

Definition numbered_stories : list UserStory :=
  [ login_story; logout_story; export_story ].

(** A block with two priority labels. *)
Definition two_priorities : str :=
  text [ s "Export the report"; s "Priority: HIGH"; s "Prio: low" ].

(** ** Notions for the further properties *)

(** A text without a newline. *)
Definition oneline (x : str) : bool :=
  forallb (fun b => negb (Ascii.eqb b nl)) x.

(** The last character of a text is not a blank. *)
Definition ends_inked (x : str) : Prop := starts_inked (rev x).

(** A line as [_split_into_stories] keeps it: not empty, without a
    newline, without blanks at its ends. *)
Definition clean_line (l : str) : Prop :=
  starts_inked l /\ ends_inked l /\ oneline l = true.

(** A pattern without a capturing group. *)
Fixpoint nocap (r : regex) : bool :=
  match r with
  | Seq r1 r2 | Alt r1 r2 => nocap r1 && nocap r2
  | Star _ r1 => nocap r1
  | Group _ _ => false
  | _ => true
  end.

(** [str.upper]: each character in upper case, the sharp s as [SS]. *)
Definition upper_full (a : ascii) : str :=
  if Ascii.eqb a sharp_s then ["S"%char; "S"%char] else [upper_char a].
Definition upper (x : str) : str := concat (map upper_full x).

(** [x or y] on strings: [x] unless it is empty. *)
Definition str_or (x y : str) : str := if truthy x then x else y.

(** ** [PRDGeneratorApp]

    The application object without its widgets: the texts that the
    widgets hold, the two lists, and what the methods show or write as a
    list of effects.  What the user and the system give (the file name of
    a dialog, the content of a file, the date) are arguments. *)

Module App.

Record state := {
  input_text : str;          (* the text box of the user stories *)
  project_title : str;       (* the three entries *)
  project_author : str;
  target_release : str;
  output_text : str;         (* the text box of the PRD *)
  status_label : str;
  current_stories : list UserStory;
  current_prd : list PRDSection
}.

(** What [export_pdf] gives to the PDF library: paragraphs in one of two
    styles and vertical spaces. *)
Inductive pstyle := CustomHeading | Normal.

Inductive flowable :=
| Paragraph (text : str) (style : pstyle)
| Spacer (width height : nat).

Inductive effect :=
| showwarning (title message : str)
| showinfo (title message : str)
| showerror (title message : str) (e : exn)   (* the message then [str(e)] *)
| write_file (filename content : str)
| build_pdf (filename : str) (story : list flowable).

(** The application after [__init__]. *)
Definition init : state :=
  {| input_text := []; project_title := []; project_author := [];
     target_release := []; output_text := []; status_label := s "Ready";
     current_stories := []; current_prd := [] |}.

Definition set_status (a : state) (status : str) : state :=
  {| input_text := input_text a; project_title := project_title a;
     project_author := project_author a; target_release := target_release a;
     output_text := output_text a; status_label := status;
     current_stories := current_stories a; current_prd := current_prd a |}.

Definition set_stories (a : state) (stories : list UserStory) : state :=
  {| input_text := input_text a; project_title := project_title a;
     project_author := project_author a; target_release := target_release a;
     output_text := output_text a; status_label := status_label a;
     current_stories := stories; current_prd := current_prd a |}.

Definition set_prd (a : state) (prd : list PRDSection) : state :=
  {| input_text := input_text a; project_title := project_title a;
     project_author := project_author a; target_release := target_release a;
     output_text := output_text a; status_label := status_label a;
     current_stories := current_stories a; current_prd := prd |}.

Definition set_output (a : state) (text : str) : state :=
  {| input_text := input_text a; project_title := project_title a;
     project_author := project_author a; target_release := target_release a;
     output_text := text; status_label := status_label a;
     current_stories := current_stories a; current_prd := current_prd a |}.

Definition set_input (a : state) (text : str) : state :=
  {| input_text := text; project_title := project_title a;
     project_author := project_author a; target_release := target_release a;
     output_text := output_text a; status_label := status_label a;
     current_stories := current_stories a; current_prd := current_prd a |}.

(** The user edits the three entries. *)
Definition set_entries (a : state) (title author release : str) : state :=
  {| input_text := input_text a; project_title := title;
     project_author := author; target_release := release;
     output_text := output_text a; status_label := status_label a;
     current_stories := current_stories a; current_prd := current_prd a |}.

Definition parse_stories (a : state) : state * list effect :=
  let text := input_text a in
  if negb (truthy (strip text)) then
    (a, [showwarning (s "Warning") (s "Please enter some user stories first.")])
  else
    let a := set_status a (s "Parsing user stories...") in
    match parse_user_stories text with
    | Ok stories =>
        let a := set_stories a stories in
        if truthy (current_stories a) then
          (set_status a
             (s "Parsed " ++ str_of_nat (length (current_stories a))
                ++ s " user stories"),
           [showinfo (s "Success")
              (s "Successfully parsed "
                 ++ str_of_nat (length (current_stories a))
                 ++ s " user stories!")])
        else
          (set_status a (s "No valid user stories found"),
           [showwarning (s "Warning")
              (s "No valid user stories could be parsed from the input.")])
    | Raise e =>
        (set_status a (s "Error parsing stories"),
         [showerror (s "Error") (s "Error parsing user stories: ") e])
    end.

(** ['='*60] *)
Definition rule : str := replicate 60 "="%char.

(** One turn of the loop of [generate_prd] that builds [prd_text]. *)
Definition prd_text_step (prd_text : str) (section : PRDSection) : str :=
  let prd_text := prd_text ++ rule ++ [nl] in
  let prd_text := prd_text ++ upper (Generator.title section) ++ [nl] in
  let prd_text := prd_text ++ rule ++ [nl; nl] in
  prd_text ++ content section ++ [nl; nl].

(** [date] is the date that [generate_prd] reads for the key [date];
    [today] is the date that the generator reads for its default.  The
    body of the [try] is the generator and string building; they print the
    story points, which the parser keeps within what CPython prints, and
    raise nothing else, so the [except] branch is not in the model. *)
Definition generate_prd (date today : str) (a : state) : state * list effect :=
  if negb (truthy (current_stories a)) then
    (a, [showwarning (s "Warning") (s "Please parse user stories first.")])
  else
    let a := set_status a (s "Generating PRD...") in
    let project_info : ProjectInfo :=
      <["title" := str_or (project_title a) (s "Untitled Project")]>
      (<["author" := str_or (project_author a) (s "Unknown")]>
      (<["target_release" := str_or (target_release a) (s "TBD")]>
      (<["date" := date]>
      (<["version" := s "1.0"]>
      (<["status" := s "Draft"]> ∅))))) in
    let a := set_prd a (Generator.generate_prd today (current_stories a) project_info) in
    let prd_text := fold_left prd_text_step (current_prd a) [] in
    let a := set_output a prd_text in
    (set_status a (s "PRD generated successfully"), []).

(** The four writes of one turn of the loop of [export_text], on the
    content of the file so far. *)
Definition write_step (file : str) (section : PRDSection) : str :=
  let file := file ++ (rule ++ [nl]) in
  let file := file ++ (upper (Generator.title section) ++ [nl]) in
  let file := file ++ (rule ++ [nl; nl]) in
  file ++ (content section ++ [nl; nl]).

(** [filename] is the answer of the file dialog, empty when the user
    cancels; [io] is [None] when the file can be opened and written, and
    else the exception. *)
Definition export_text (filename : str) (io : option exn) (a : state)
    : state * list effect :=
  if negb (truthy (current_prd a)) then
    (a, [showwarning (s "Warning") (s "Please generate a PRD first.")])
  else if truthy filename then
    match io with
    | None =>
        (set_status a (s "Text exported: " ++ filename),
         [write_file filename (fold_left write_step (current_prd a) []);
          showinfo (s "Success") (s "PRD exported successfully to " ++ filename)])
    | Some e =>
        (a, [showerror (s "Error") (s "Error exporting text file: ") e])
    end
  else (a, []).

(** One line of the content of a section in the PDF document. *)
Definition pdf_line (line : str) : flowable :=
  if truthy (strip line) then Paragraph line Normal else Spacer 1 6.

(** One turn of the outer loop of [export_pdf]. *)
Definition pdf_step (story : list flowable) (section : PRDSection)
    : list flowable :=
  let story := story ++ [Paragraph (Generator.title section) CustomHeading] in
  let story := story ++ [Spacer 1 12] in
  let content_lines := split nl (content section) in
  let story :=
    fold_left (fun story line => story ++ [pdf_line line]) content_lines story in
  story ++ [Spacer 1 20].

(** [filename] is the answer of the file dialog, empty when the user
    cancels; [io] is [None] when the PDF library takes the paragraphs,
    builds the document and writes it, and else the exception. *)
Definition export_pdf (filename : str) (io : option exn) (a : state)
    : state * list effect :=
  if negb (truthy (current_prd a)) then
    (a, [showwarning (s "Warning") (s "Please generate a PRD first.")])
  else if truthy filename then
    match io with
    | None =>
        (set_status a (s "PDF exported: " ++ filename),
         [build_pdf filename (fold_left pdf_step (current_prd a) []);
          showinfo (s "Success") (s "PRD exported successfully to " ++ filename)])
    | Some e => (a, [showerror (s "Error") (s "Error exporting PDF: ") e])
    end
  else (a, []).

(** [content] is what reading the file gives, or the exception. *)
Definition load_file (filename : str) (content : result str) (a : state)
    : state * list effect :=
  if truthy filename then
    match content with
    | Ok content =>
        (set_status (set_input a content) (s "Loaded: " ++ filename), [])
    | Raise e => (a, [showerror (s "Error") (s "Error loading file: ") e])
    end
  else (a, []).

Definition clear_input (a : state) : state :=
  {| input_text := []; project_title := project_title a;
     project_author := project_author a; target_release := target_release a;
     output_text := []; status_label := s "Ready";
     current_stories := []; current_prd := [] |}.

(** What can happen to the application: the buttons, with what the
    outside gives then, and the edits of the user. *)
Inductive action :=
| press_parse
| press_generate (date today : str)
| press_export_pdf (filename : str) (io : option exn)
| press_export (filename : str) (io : option exn)
| press_load (filename : str) (content : result str)
| press_clear
| edit_input (text : str)
| edit_output (text : str)
| edit_entries (title author release : str).

Definition step (a : state) (act : action) : state * list effect :=
  match act with
  | press_parse => parse_stories a
  | press_generate date today => generate_prd date today a
  | press_export_pdf filename io => export_pdf filename io a
  | press_export filename io => export_text filename io a
  | press_load filename content => load_file filename content a
  | press_clear => (clear_input a, [])
  | edit_input text => (set_input a text, [])
  | edit_output text => (set_output a text, [])
  | edit_entries title author release => (set_entries a title author release, [])
  end.

(** The application after a list of actions. *)
Definition run_actions (acts : list action) : state :=
  fold_left (fun a act => (step a act).1) acts init.

End App.

(** What every state of the application keeps: the stories have a title
    and a description, and the PRD is empty or generated from stories. *)
Definition app_inv (a : App.state) : Prop :=
  Forall (fun st => Parser.title st <> [] /\ description st <> [])
    (App.current_stories a) /\
  (App.current_prd a = [] \/
   exists today stories info,
     stories <> [] /\
     App.current_prd a = Generator.generate_prd today stories info).


(** The text of one section in the output box and in the exported file. *)
Definition section_text (section : PRDSection) : str :=
  App.rule ++ [nl] ++ upper (Generator.title section) ++ [nl]
    ++ App.rule ++ [nl; nl] ++ content section ++ [nl; nl].

(** The elements of one section in the PDF document: the heading, a
    space, the lines of the content and a space. *)
Definition pdf_section (section : PRDSection) : list App.flowable :=
  [ App.Paragraph (Generator.title section) App.CustomHeading;
    App.Spacer 1 12 ]
  ++ map App.pdf_line (split nl (content section)) ++ [ App.Spacer 1 20 ].

(** The text of a heading, and the text of a paragraph of the content. *)
Definition heading_of (f : App.flowable) : option str :=
  match f with
  | App.Paragraph text App.CustomHeading => Some text
  | _ => None
  end.

Definition body_of (f : App.flowable) : option str :=
  match f with
  | App.Paragraph text App.Normal => Some text
  | _ => None
  end.

(** The eight titles of a PRD. *)
Definition prd_titles : list str :=
  [ s "Project Information"; s "Executive Summary"; s "Product Overview";
    s "User Stories and Requirements"; s "Functional Requirements";
    s "Acceptance Criteria"; s "Assumptions and Constraints";
    s "Success Metrics" ].

(** An application with a story in its input box, parsed and generated. *)
Definition demo_actions : list App.action :=
  [ App.edit_input gherkin_example; App.press_parse;
    App.press_generate (s "2024-01-01") (s "2024-01-02") ].

(** ** The story points label, in full *)

(** The number after optional blanks, and the text after the number. *)
Definition digits_after (x : str) : option (str * str) :=
  match lstrip x with
  | a :: y =>
      if isdigit a then Some (a :: take_class isdigit y, drop_class isdigit y)
      else None
  | [] => None
  end.

(** A number ends where the text ends or a character is not a digit. *)
Definition digits_end (rest : str) : Prop :=
  match rest with
  | a :: _ => isdigit a = false
  | [] => True
  end.

(** [points_value_at x d]: the text [x] starts with a story points label
    followed, after optional blanks, by the number [d]. *)
Definition points_value_at (x d : str) : Prop :=
  exists lab ws rest,
    x = lab ++ ws ++ d ++ rest /\ points_label lab /\ blank ws = true /\
    d <> [] /\ forallb isdigit d = true /\ digits_end rest.

(** The text after a label [l], an optional [o] and [e], then the number. *)
Definition label_opt_digits (l : str) (o e : ascii) (x : str)
    : option (str * str) :=
  match lits_rest I l x with
  | Some x1 =>
      or_else
        (one (lit_eq I o) x1 [] (fun x2 _ =>
           one (lit_eq I e) x2 [] (fun x3 _ => digits_after x3)))
        (fun _ => one (lit_eq I e) x1 [] (fun x3 _ => digits_after x3))
  | None => None
  end.

Definition label_digits (l x : str) : option (str * str) :=
  match lits_rest I l x with
  | Some x1 => digits_after x1
  | None => None
  end.

Definition points_word (x : str) : option (str * str) :=
  or_else (label_opt_digits (s "Story Point") "s" ":" x) (fun _ =>
  or_else (label_opt_digits (s "Point") "s" ":" x) (fun _ =>
  label_digits (s "SP:") x)).

(** A block with two story points labels. *)
Definition two_points : str :=
  text [ s "Export the report"; s "Story Points: 08"; s "SP: 3" ].
(** * Facts about the [str] methods *)

Section StrFacts.

Lemma lstrip_blank_app (w x : str) :
  blank w = true -> lstrip (w ++ x) = lstrip x.
Proof.
  induction w as [|a w IH]; simpl; [done|].
  intros [Ha Hw]%andb_prop. rewrite Ha. auto.
Qed.

Lemma lstrip_nonblank_app (u v : str) :
  blank u = false -> lstrip (u ++ v) = lstrip u ++ v.
Proof.
  induction u as [|a u IH]; simpl; [done|].
  destruct (isspace a); simpl; auto.
Qed.

Lemma lstrip_nil (x : str) : lstrip x = [] <-> blank x = true.
Proof.
  induction x as [|a x IH]; simpl; [done|].
  destruct (isspace a); simpl; [done|]. split; discriminate.
Qed.

Lemma blank_app (x y : str) : blank (x ++ y) = blank x && blank y.
Proof. apply forallb_app. Qed.

Lemma blank_rev (x : str) : blank (rev x) = blank x.
Proof.
  induction x as [|a x IH]; simpl; [done|].
  rewrite blank_app, IH. simpl. rewrite andb_true_r. apply andb_comm.
Qed.

Lemma lstrip_split (x : str) :
  exists w, x = w ++ lstrip x /\ blank w = true.
Proof.
  induction x as [|a x (w & Hx & Hw)]; simpl.
  - by exists [].
  - destruct (isspace a) eqn:Ha.
    + exists (a :: w). simpl. rewrite Ha, Hw. split; [congruence|done].
    + by exists [].
Qed.

Lemma blank_lstrip (x : str) : blank (lstrip x) = blank x.
Proof.
  destruct (lstrip_split x) as (w & Hx & Hw).
  rewrite Hx at 2. rewrite blank_app, Hw. done.
Qed.

Lemma rstrip_blank_app (x w : str) :
  blank w = true -> rstrip (x ++ w) = rstrip x.
Proof.
  intros Hw. unfold rstrip. rewrite rev_app_distr.
  rewrite lstrip_blank_app; [done|]. by rewrite blank_rev.
Qed.


Lemma rstrip_nil (x : str) : rstrip x = [] <-> blank x = true.
Proof.
  unfold rstrip. rewrite <- (blank_rev x), <- lstrip_nil.
  split; intros H.
  - apply (f_equal (@rev ascii)) in H. by rewrite rev_involutive in H.
  - by rewrite H.
Qed.

Lemma strip_nil (x : str) : strip x = [] <-> blank x = true.
Proof. unfold strip. by rewrite rstrip_nil, blank_lstrip. Qed.

Lemma strip_blank_l (w x : str) :
  blank w = true -> strip (w ++ x) = strip x.
Proof. intros Hw. unfold strip. by rewrite lstrip_blank_app. Qed.

Lemma strip_blank_r (x w : str) :
  blank w = true -> strip (x ++ w) = strip x.
Proof.
  intros Hw. unfold strip. destruct (blank x) eqn:Hx.
  - assert (Hxw : blank (x ++ w) = true) by (by rewrite blank_app, Hx, Hw).
    apply lstrip_nil in Hx, Hxw. by rewrite Hx, Hxw.
  - rewrite lstrip_nonblank_app by done. by apply rstrip_blank_app.
Qed.


Lemma truthy_strip (x : str) : truthy (strip x) = negb (blank x).
Proof.
  destruct (blank x) eqn:Hx.
  - apply strip_nil in Hx. by rewrite Hx.
  - destruct (strip x) eqn:Hs; [|done].
    apply strip_nil in Hs. congruence.
Qed.

End StrFacts.

(** * Segmentation *)

Section SplitFacts.

Lemma split_nonnil (x : str) : split nl x <> [].
Proof.
  destruct x as [|a x]; simpl; [done|].
  destruct (Ascii.eqb a nl); [done|]. by destruct (split nl x).
Qed.

(** The lines of [x ++ y]: the last line of [x] continues with the
    first line of [y]. *)
Lemma split_app (x : str) :
  exists init lst,
    split nl x = init ++ [lst] /\
    forall y, split nl (x ++ y) =
              init ++ match split nl y with
                      | h :: t => (lst ++ h) :: t
                      | [] => [lst]
                      end.
Proof.
  induction x as [|a x (init & lst & Hx & Hxy)].
  - exists [], []. split; [done|]. intros y. simpl.
    destruct (split nl y) eqn:Hy; [by apply split_nonnil in Hy|done].
  - simpl. destruct (Ascii.eqb a nl).
    + exists ([] :: init), lst. split; [by rewrite Hx|].
      intros y. by rewrite Hxy.
    + destruct init as [|i0 init]; simpl in *.
      * exists [], (a :: lst). split; [by rewrite Hx|].
        intros y. rewrite Hxy. by destruct (split nl y).
      * exists ((a :: i0) :: init), lst. split; [by rewrite Hx|].
        intros y. by rewrite Hxy.
Qed.

Lemma split_app_nl (x y : str) :
  split nl (x ++ nl :: y) = split nl x ++ split nl y.
Proof.
  destruct (split_app x) as (init & lst & Hx & Hxy).
  rewrite Hxy, Hx. simpl. rewrite app_nil_r. by rewrite <- app_assoc.
Qed.

Lemma split_join (ls : list str) :
  ls <> [] -> split nl (join [nl] ls) = concat (map (split nl) ls).
Proof.
  induction ls as [|l ls IH]; [done|]. intros _.
  destruct ls as [|l' ls].
  - simpl. by rewrite app_nil_r.
  - change (join [nl] (l :: l' :: ls)) with (l ++ nl :: join [nl] (l' :: ls)).
    rewrite split_app_nl, IH by done. done.
Qed.

(** The lines of a blank text are blank. *)
Lemma split_blank (w : str) :
  blank w = true ->
  exists k, map strip (split nl w) = replicate (S k) [].
Proof.
  induction w as [|a w IH]; simpl.
  - intros _. by exists 0.
  - intros [Ha Hw]%andb_prop. destruct (IH Hw) as [k Hk].
    destruct (Ascii.eqb a nl).
    + exists (S k). simpl. by rewrite Hk.
    + destruct (split nl w) as [|l ls]; [done|].
      exists k. simpl in *. injection Hk as Hl Hls.
      rewrite Hls. f_equal.
      change (a :: l) with ([a] ++ l). rewrite strip_blank_l; [done|].
      simpl. by rewrite Ha.
Qed.

Lemma map_strip_split_blank_l (w x : str) :
  blank w = true ->
  exists k, map strip (split nl (w ++ x))
            = replicate k [] ++ map strip (split nl x).
Proof.
  intros Hw. destruct (split_app w) as (init & lst & Hsw & Hwx).
  destruct (split_blank w Hw) as [k Hk].
  rewrite Hsw, map_app, replicate_S_end in Hk. cbn [map] in Hk.
  rewrite Hwx. destruct (split nl x) as [|h t] eqn:Hx;
    [by apply split_nonnil in Hx|].
  exists (length init). rewrite map_app. simpl.
  assert (Hinit : map strip init = replicate (length init) [] /\ strip lst = []).
  { apply app_inj_tail in Hk as [Hi Hl]. split; [|done].
    rewrite Hi. f_equal.
    apply (f_equal length) in Hi.
    by rewrite length_map, length_replicate in Hi. }
  destruct Hinit as [-> Hlst]. f_equal. f_equal.
  apply strip_blank_l. by apply strip_nil.
Qed.

Lemma map_strip_split_blank_r (x w : str) :
  blank w = true ->
  exists k, map strip (split nl (x ++ w))
            = map strip (split nl x) ++ replicate k [].
Proof.
  intros Hw. destruct (split_app x) as (init & lst & Hsx & Hxw).
  destruct (split_blank w Hw) as [k Hk].
  rewrite Hxw, Hsx. destruct (split nl w) as [|h t]; [done|].
  simpl in Hk. injection Hk as Hh Ht.
  exists k. rewrite !map_app. simpl. rewrite Ht, <- app_assoc. simpl.
  do 2 f_equal. apply strip_blank_r. by apply strip_nil.
Qed.

(** What [strip] removes is blank. *)
Lemma strip_split (x : str) :
  exists w1 w2, x = w1 ++ strip x ++ w2 /\ blank w1 = true /\ blank w2 = true.
Proof.
  destruct (lstrip_split x) as (w1 & Hx & Hw1).
  destruct (lstrip_split (rev (lstrip x))) as (w2 & Hr & Hw2).
  exists w1, (rev w2). split; [|by rewrite blank_rev].
  rewrite Hx at 1. f_equal. unfold strip, rstrip.
  rewrite <- rev_app_distr, <- Hr. by rewrite rev_involutive.
Qed.

End SplitFacts.

Section RunsFacts.

Lemma runs_blank_cons (cur : list str) (ls : list str) :
  runs cur ([] :: ls) = pending cur ++ runs [] ls.
Proof. done. Qed.

Lemma runs_blanks (cur : list str) (k : nat) (ls : list str) :
  runs cur (replicate (S k) [] ++ ls) = pending cur ++ runs [] ls.
Proof.
  revert cur. induction k as [|k IH]; intros cur; [done|].
  change (replicate (S (S k)) [] ++ ls) with ([] :: (replicate (S k) [] ++ ls)).
  rewrite runs_blank_cons, IH. done.
Qed.

Lemma runs_nil_blanks (k : nat) (ls : list str) :
  runs [] (replicate k [] ++ ls) = runs [] ls.
Proof. destruct k; [done|]. by rewrite runs_blanks. Qed.

Lemma runs_end_blanks (cur : list str) (k : nat) :
  runs cur (replicate k []) = runs cur [].
Proof.
  destruct k; [done|].
  rewrite <- (app_nil_r (replicate (S k) [])), runs_blanks.
  simpl. by rewrite app_nil_r.
Qed.

(** Blank lines put at an end or next to a blank line change nothing. *)
Lemma runs_insert_blanks (k : nat) (A B : list str) (cur : list str) :
  (A = [] /\ cur = []) \/ B = [] \/ last A = Some [] \/ head B = Some [] ->
  runs cur (A ++ replicate k [] ++ B) = runs cur (A ++ B).
Proof.
  revert cur. induction A as [|a A IH]; intros cur Hpos.
  - simpl. destruct k as [|k]; [done|]. rewrite runs_blanks.
    destruct Hpos as [[_ ->]|[->|[Hl|Hh]]]; [done| |done|].
    + unfold pending. simpl. by rewrite app_nil_r.
    + destruct B as [|b B]; [done|]. injection Hh as ->. done.
  - assert (Hpos' : forall cur' : list str, (a = [] -> cur' = []) ->
              (A = [] /\ cur' = []) \/ B = [] \/ last A = Some []
              \/ head B = Some []).
    { intros cur' Hc. destruct Hpos as [[? _]|[->|[Hl|Hh]]]; [done|auto| |auto].
      destruct A as [|a' A].
      - injection Hl as ->. left. auto.
      - right. right. left. by rewrite <- Hl. }
    simpl. destruct a as [|c a]; cbn [truthy].
    + f_equal. apply IH, Hpos'. done.
    + apply IH, Hpos'. done.
Qed.

Lemma runs_snoc (x : str) (ls : list str) (cur : list str) :
  truthy x = true ->
  exists blocks bl, runs cur (ls ++ [x]) = blocks ++ [bl ++ [x]].
Proof.
  intros Hx. revert cur. induction ls as [|l ls IH]; intros cur; simpl.
  - rewrite Hx. exists [], cur. by destruct cur.
  - destruct (truthy l).
    + apply IH.
    + destruct (IH []) as (blocks & bl & ->).
      exists (pending cur ++ blocks), bl. by rewrite <- app_assoc.
Qed.

(** The runs are not empty, and their lines start with ink. *)
Lemma runs_inked (ls : list str) (cur : list str) :
  Forall (fun l => l = [] \/ starts_inked l) ls ->
  Forall starts_inked cur ->
  Forall (fun r => r <> [] /\ Forall starts_inked r) (runs cur ls).
Proof.
  revert cur. induction ls as [|l ls IH]; intros cur Hls Hcur; simpl.
  - destruct cur; simpl; [constructor|].
      constructor; [done|constructor].
  - apply Forall_cons in Hls as [Hl Hls].
    destruct l as [|a l]; cbn [truthy].
    + apply Forall_app. split; [|by apply IH].
      destruct cur; simpl; [constructor|].
      constructor; [done|constructor].
    + apply IH; [done|]. apply Forall_app. split; [done|].
      constructor; [|done]. by destruct Hl.
Qed.

End RunsFacts.

Section BlocksFacts.

(** The loop of [_split_into_stories] with its final test. *)
Lemma split_fold (lines : list str) (cur stories : list str) :
  (let '(current_story, stories') := fold_left split_step lines (cur, stories) in
   if truthy current_story
   then stories' ++ [join [nl] current_story] else stories')
  = stories ++ map (join [nl]) (runs cur (map strip lines)).
Proof.
  revert cur stories. induction lines as [|l lines IH]; intros cur stories.
  - simpl. destruct (truthy cur); simpl; by rewrite ?app_nil_r.
  - cbn [fold_left map runs]. unfold split_step at 2.
    destruct (truthy (strip l)); cbn [negb].
    + apply IH.
    + destruct cur as [|c cur]; cbn [truthy]; rewrite IH; [done|].
      by rewrite <- app_assoc.
Qed.

(** The blocks are the runs of the stripped lines of the text; the
    [strip] of the whole text changes nothing. *)
Lemma split_into_stories_runs (text : str) :
  _split_into_stories text
  = map (join [nl]) (runs [] (map strip (split nl text))).
Proof.
  unfold _split_into_stories.
  rewrite (split_fold (split nl (strip text)) [] []). cbn [app]. f_equal.
  destruct (strip_split text) as (w1 & w2 & Htext & Hw1 & Hw2).
  rewrite Htext at 2.
  destruct (map_strip_split_blank_l w1 (strip text ++ w2) Hw1) as [k1 ->].
  destruct (map_strip_split_blank_r (strip text) w2 Hw2) as [k2 ->].
  rewrite runs_nil_blanks.
  rewrite <- (app_nil_r (replicate k2 [])).
  rewrite runs_insert_blanks by auto. by rewrite app_nil_r.
Qed.

Lemma runs_of_join (ls : list str) :
  runs [] (map strip (split nl (join [nl] ls)))
  = runs [] (map strip (concat (map (split nl) ls))).
Proof.
  destruct ls as [|l ls]; [done|]. by rewrite split_join.
Qed.

Lemma blocks_insert_blank (before after : list str) (b : str) :
  blank b = true ->
  before = [] \/ after = [] \/
    (exists p, last before = Some p /\ blank p = true) \/
    (exists q, head after = Some q /\ blank q = true) ->
  _split_into_stories (join [nl] (before ++ b :: after))
  = _split_into_stories (join [nl] (before ++ after)).
Proof.
  intros Hb Hpos. rewrite !split_into_stories_runs, !runs_of_join. f_equal.
  rewrite !map_app, !concat_app, !map_app. cbn [map concat].
  rewrite map_app. destruct (split_blank b Hb) as [k ->].
  apply runs_insert_blanks.
  destruct Hpos as [->|[->|[(p & Hp & Hbp)|(q & Hq & Hbq)]]]; [auto|auto| |].
  - right. right. left.
    apply last_Some in Hp as [bf ->].
    rewrite map_app, concat_app, map_app. cbn [map concat].
    rewrite app_nil_r. destruct (split_blank p Hbp) as [kp ->].
    rewrite replicate_S_end, app_assoc. apply last_snoc.
  - right. right. right.
    apply head_Some in Hq as [af ->]. cbn [map concat].
    rewrite map_app. destruct (split_blank q Hbq) as [kq ->]. done.
Qed.

(** Every block starts with a character that is not a blank. *)
Lemma strip_inked (x : str) : strip x = [] \/ starts_inked (strip x).
Proof.
  destruct (strip x) as [|a y] eqn:Hs; [by left|right].
  unfold strip, rstrip in Hs. simpl.
  destruct (lstrip x) as [|a' y'] eqn:Hl; [done|].
  assert (Ha' : isspace a' = false).
  { clear Hs. induction x as [|c x IH]; [done|]. simpl in Hl.
    destruct (isspace c) eqn:Hc; [auto|]. by injection Hl as <- _. }
  assert (Hnb : blank (rev (a' :: y')) = false).
  { rewrite blank_rev. simpl. by rewrite Ha'. }
  clear Hl. revert a y Hs Hnb.
  induction y' as [|c y' IH] using rev_ind; intros a y Hs Hnb.
  - simpl in Hs. rewrite Ha' in Hs. by injection Hs as <- _.
  - rewrite app_comm_cons, rev_app_distr in Hs, Hnb. simpl in Hs, Hnb.
    destruct (isspace c) eqn:Hc.
    + by apply (IH a y).
    + simpl in Hs. rewrite rev_app_distr in Hs. simpl in Hs.
      rewrite rev_involutive in Hs. by injection Hs as <- _.
Qed.

Lemma join_inked (r : list str) :
  r <> [] -> Forall starts_inked r -> starts_inked (join [nl] r).
Proof.
  destruct r as [|l r]; [done|]. intros _ [Hl _]%Forall_cons.
  destruct l as [|a l]; [done|]. by destruct r.
Qed.

Lemma blocks_inked (text : str) :
  Forall starts_inked (_split_into_stories text).
Proof.
  rewrite split_into_stories_runs. apply Forall_fmap.
  eapply Forall_impl.
  - apply runs_inked; [|constructor].
    apply Forall_fmap, Forall_true. intros x. apply strip_inked.
  - intros r [Hr Hi]. by apply join_inked.
Qed.

End BlocksFacts.

(** * The matcher *)

Section MatcherFacts.

Context {A : Type}.
Implicit Types (k : str -> caps -> option A) (v : A).

Lemma one_sound (p : ascii -> bool) x c k v :
  one p x c k = Some v ->
  exists b x', x = b :: x' /\ p b = true /\ k x' c = Some v.
Proof.
  destruct x as [|b x']; simpl; [done|].
  destruct (p b) eqn:Hp; [|done]. intros Hk. by exists b, x'.
Qed.

Lemma or_else_sound (o : option A) (f : unit -> option A) v :
  or_else o f = Some v -> o = Some v \/ f tt = Some v.
Proof. destruct o; simpl; auto. Qed.

(** Every result of the matcher is a result of its continuation, at a
    state that the pattern can reach. *)
Lemma m_sound (fl : flags) (r : regex) x c k v :
  m fl r x c k = Some v ->
  exists x' c', run fl r x c x' c' /\ k x' c' = Some v.
Proof.
  revert x c k v.
  induction r as [|a| | | | | |r1 IH1 r2 IH2|r1 IH1 r2 IH2|g r1 IH1|i r1 IH1];
    intros x c k v Hm; simpl in Hm.
  - exists x, c. split; [constructor|done].
  - apply one_sound in Hm as (b & x' & -> & Hb & Hk).
    exists x', c. split; [by constructor|done].
  - apply one_sound in Hm as (b & x' & -> & Hb & Hk).
    exists x', c. split; [by constructor|done].
  - apply one_sound in Hm as (b & x' & -> & Hb & Hk).
    exists x', c. split; [by constructor|done].
  - apply one_sound in Hm as (b & x' & -> & Hb & Hk).
    exists x', c. split; [by constructor|done].
  - apply one_sound in Hm as (b & x' & -> & Hb & Hk).
    exists x', c. split; [by constructor|done].
  - destruct x as [|b [|b' x]]; [| |done].
    + exists [], c. split; [constructor; auto|done].
    + destruct (Ascii.eqb_spec b nl) as [->|]; [|done].
      exists [nl], c. split; [constructor; auto|done].
  - apply IH1 in Hm as (x1 & c1 & Hr1 & Hm).
    apply IH2 in Hm as (x2 & c2 & Hr2 & Hk).
    exists x2, c2. split; [by econstructor|done].
  - apply or_else_sound in Hm as [Hm|Hm].
    + apply IH1 in Hm as (x' & c' & Hr & Hk).
      exists x', c'. split; [by apply run_Alt_l|done].
    + apply IH2 in Hm as (x' & c' & Hr & Hk).
      exists x', c'. split; [by apply run_Alt_r|done].
  - generalize dependent (length x). intros fuel. revert x c.
    induction fuel as [|fuel IHf]; intros x c Hm; simpl in Hm.
    + exists x, c. split; [constructor|done].
    + assert (Hturn :
        m fl r1 x c (fun x' c' =>
          if (length x' <? length x)%nat
          then star_loop (m fl r1) g k fuel x' c' else None) = Some v ->
        exists x' c', run fl (Star g r1) x c x' c' /\ k x' c' = Some v).
      { intros Hb. apply IH1 in Hb as (x1 & c1 & Hr1 & Hb).
        destruct (length x1 <? length x)%nat; [|done].
        apply IHf in Hb as (x2 & c2 & Hr2 & Hk).
        exists x2, c2. split; [by econstructor|done]. }
      destruct g; apply or_else_sound in Hm as [Hm|Hm]; auto.
      * exists x, c. split; [constructor|done].
      * exists x, c. split; [constructor|done].
  - apply IH1 in Hm as (x' & c' & Hr & Hk).
    eexists _, _. split; [by constructor|done].
Qed.

End MatcherFacts.

Section RunFacts.

Variable fl : flags.

Lemma run_length r x c x' c' : run fl r x c x' c' -> length c' = length c.
Proof.
  induction 1; try done; try congruence.
  by rewrite length_insert.
Qed.

(** A match consumes a prefix of the text. *)
Lemma run_suffix r x c x' c' :
  run fl r x c x' c' -> exists w, x = w ++ x'.
Proof.
  induction 1 as [ | | | | | | | ? ? ? ? ? ? ? ? _ [w1 ->] _ [w2 ->] | | |
                   | ? ? ? ? ? ? ? ? _ [w1 ->] _ [w2 ->] | ];
    try (by exists []); try (by eexists [_]); try done.
  - exists (w1 ++ w2). by rewrite <- app_assoc.
  - exists (w1 ++ w2). by rewrite <- app_assoc.
Qed.

(** The text of a group is the text its pattern consumed. *)
Lemma take_consumed (w x' : str) :
  take (length (w ++ x') - length x') (w ++ x') = w.
Proof.
  rewrite length_app.
  replace (length w + length x' - length x') with (length w) by lia.
  by rewrite take_app_length.
Qed.

(** A starred class of characters consumes characters of the class and
    captures nothing. *)
Lemma run_star_class (p : ascii -> bool) (r : regex) g x c x' c' :
  (forall y d y' d', run fl r y d y' d' ->
     exists b, y = b :: y' /\ p b = true /\ d' = d) ->
  run fl (Star g r) x c x' c' ->
  exists w, x = w ++ x' /\ forallb p w = true /\ c' = c.
Proof.
  intros Hr Hrun. remember (Star g r) as sr eqn:Hsr.
  induction Hrun; try discriminate.
  - by exists [].
  - injection Hsr as -> ->.
    destruct (Hr _ _ _ _ Hrun1) as (b & -> & Hb & ->).
    destruct (IHHrun2 eq_refl) as (w & -> & Hw & ->).
    exists (b :: w). simpl. by rewrite Hb, Hw.
Qed.

Lemma run_plus_class (p : ascii -> bool) (r : regex) g x c x' c' :
  (forall y d y' d', run fl r y d y' d' ->
     exists b, y = b :: y' /\ p b = true /\ d' = d) ->
  run fl (Plus g r) x c x' c' ->
  exists w, x = w ++ x' /\ w <> [] /\ forallb p w = true /\ c' = c.
Proof.
  intros Hr Hrun. inversion Hrun as [ | | | | | | |? ? ? ? ? ? ? ? H1 H2| | | | | ];
    subst.
  destruct (Hr _ _ _ _ H1) as (b & -> & Hb & ->).
  destruct (run_star_class p r g _ _ _ _ Hr H2) as (w & -> & Hw & ->).
  exists (b :: w). simpl. by rewrite Hb, Hw.
Qed.

Lemma run_Word_inv y d y' d' :
  run fl Word y d y' d' -> exists b, y = b :: y' /\ isword b = true /\ d' = d.
Proof. inversion 1; subst. eauto. Qed.

Lemma run_Digit_inv y d y' d' :
  run fl Digit y d y' d' -> exists b, y = b :: y' /\ isdigit b = true /\ d' = d.
Proof. inversion 1; subst. eauto. Qed.

Lemma run_Space_inv y d y' d' :
  run fl Space y d y' d' -> exists b, y = b :: y' /\ isspace b = true /\ d' = d.
Proof. inversion 1; subst. eauto. Qed.

End RunFacts.

Section SearchFacts.

Variable fl : flags.

Lemma match_here_sound r x mo :
  match_here fl r x = Some mo ->
  exists c', run fl r x (replicate (S (ngroups r)) None) (rest_of mo) c' /\
             groups_of mo
             = <[0 := Some (take (length x - length (rest_of mo)) x)]> c'.
Proof.
  unfold match_here. intros Hm.
  apply m_sound in Hm as (x' & c' & Hrun & Hmo).
  injection Hmo as <-. simpl.
  inversion Hrun; subst. eauto.
Qed.

(** [search] gives the match at the first position that has one. *)
Lemma search_Some r x mo :
  search fl r x = Some mo <->
  exists before y,
    x = before ++ y /\ match_here fl r y = Some mo /\
    forall b1 b2, before = b1 ++ b2 -> b2 <> [] ->
                  match_here fl r (b2 ++ y) = None.
Proof.
  split.
  - induction x as [|a x IH]; simpl.
    + destruct (match_here fl r []) eqn:Hm; [|done].
      intros [= ->]. exists [], []. split; [done|]. split; [done|].
      intros b1 b2 Hb. by destruct b1, b2.
    + destruct (match_here fl r (a :: x)) eqn:Hm.
      * intros [= ->]. exists [], (a :: x). split; [done|]. split; [done|].
        intros b1 b2 Hb. by destruct b1, b2.
      * intros (before & y & -> & Hy & Hfirst)%IH.
        exists (a :: before), y. split; [done|]. split; [done|].
        intros [|b b1] b2 Hb Hb2.
        -- simpl in Hb. subst b2. done.
        -- injection Hb as -> ->. by apply (Hfirst b1).
  - intros (before & y & -> & Hy & Hfirst).
    induction before as [|a before IH].
    + simpl. destruct y; simpl; by rewrite Hy.
    + pose proof (Hfirst [] (a :: before) eq_refl) as Ha.
      cbn [app search] in *. rewrite Ha by done.
      apply IH. intros b1 b2 -> Hb2. by apply (Hfirst (a :: b1)).
Qed.

Lemma search_None r x :
  search fl r x = None <->
  forall before y, x = before ++ y -> match_here fl r y = None.
Proof.
  split.
  - induction x as [|a x IH]; simpl.
    + destruct (match_here fl r []) eqn:Hm; [done|].
      intros _ before y Hx. symmetry in Hx.
      apply app_eq_nil in Hx as [_ ->]. done.
    + destruct (match_here fl r (a :: x)) eqn:Hm; [done|].
      intros Hs [|b before] y Hx.
      * simpl in Hx. by subst y.
      * injection Hx as -> ->. by apply (IH Hs before).
  - intros Hnone. induction x as [|a x IH]; simpl.
    + by rewrite (Hnone [] []).
    + rewrite (Hnone [] (a :: x)) by done.
      apply IH. intros before y ->. by apply (Hnone (a :: before)).
Qed.

Lemma search_sound r x mo :
  search fl r x = Some mo -> exists y, match_here fl r y = Some mo.
Proof. intros (_ & y & _ & Hy & _)%search_Some. eauto. Qed.

End SearchFacts.

Section PatternFacts.

Lemma run_Seq_inv fl r1 r2 x c x2 c2 :
  run fl (Seq r1 r2) x c x2 c2 ->
  exists x1 c1, run fl r1 x c x1 c1 /\ run fl r2 x1 c1 x2 c2.
Proof. inversion 1; subst. eauto. Qed.

Lemma run_Group_inv fl i r x c x' c' :
  run fl (Group i r) x c x' c' ->
  exists c1, run fl r x c x' c1 /\
             c' = <[i := Some (take (length x - length x') x)]> c1.
Proof. inversion 1; subst. eauto. Qed.

(** The group that ends a pattern is set by every match, to the text
    that its pattern consumed. *)
Lemma run_last_group fl r i rg x c x' c' :
  last_group r = Some (i, rg) ->
  run fl r x c x' c' ->
  exists x1 c1 c2,
    run fl rg x1 c1 x' c2 /\
    c' = <[i := Some (take (length x1 - length x') x1)]> c2 /\
    length c2 = length c.
Proof.
  revert x c. induction r; try discriminate; intros x c Hl Hrun; simpl in Hl.
  - apply run_Seq_inv in Hrun as (x1 & c1 & H1 & H2).
    destruct (IHr2 _ _ Hl H2) as (y & d1 & d2 & Hrg & -> & Hlen).
    exists y, d1, d2. split; [done|]. split; [done|].
    apply run_length in H1. lia.
  - injection Hl as -> ->.
    apply run_Group_inv in Hrun as (c1 & Hrg & ->).
    exists x, c, c1. split; [done|]. split; [done|].
    by apply run_length in Hrg.
Qed.

Lemma last_group_set (P : str -> Prop) fl r i rg x mo :
  last_group r = Some (i, rg) ->
  0 < i <= ngroups r ->
  (forall y d y' d', run fl rg y d y' d' -> exists w, y = w ++ y' /\ P w) ->
  match_here fl r x = Some mo ->
  exists w, group mo i = Some w /\ P w.
Proof.
  intros Hl Hi Hrg (c' & Hrun & Hg)%match_here_sound.
  destruct (run_last_group _ _ _ _ _ _ _ _ Hl Hrun)
    as (x1 & c1 & c2 & Hrun' & -> & Hlen).
  destruct (Hrg _ _ _ _ Hrun') as (w & -> & Hw).
  exists w. split; [|done].
  unfold group. rewrite Hg, list_lookup_insert_ne by lia.
  rewrite take_consumed, list_lookup_insert_eq; [done|].
  rewrite Hlen, length_replicate. lia.
Qed.

Lemma criteria_group text mo :
  search I_S criteria text = Some mo -> exists w, group mo 1 = Some w.
Proof.
  intros [y Hy]%search_sound.
  apply (last_group_set (fun _ => True)) with (i := 1)
    (rg := Star true (Seq (Plus true Dot) (Opt (Lit nl)))) in Hy
    as (w & Hw & _); [eauto|done|vm_compute; lia|].
  intros y0 d y' d' [w ->]%run_suffix. eauto.
Qed.

Lemma priority_group text mo :
  search I priority_re text = Some mo ->
  exists w, group mo 1 = Some w /\ w <> [] /\ forallb isword w = true.
Proof.
  intros [y Hy]%search_sound.
  apply (last_group_set (fun w => w <> [] /\ forallb isword w = true))
    with (i := 1) (rg := Plus true Word) in Hy; [done|done|vm_compute; lia|].
  intros y0 d y' d' Hrun.
  apply (run_plus_class I isword) in Hrun as (w & -> & ? & ? & _);
    [eauto|apply run_Word_inv].
Qed.

Lemma points_group text mo :
  search I points text = Some mo ->
  exists w, group mo 1 = Some w /\ w <> [] /\ forallb isdigit w = true.
Proof.
  intros [y Hy]%search_sound.
  apply (last_group_set (fun w => w <> [] /\ forallb isdigit w = true))
    with (i := 1) (rg := Plus true Digit) in Hy; [done|done|vm_compute; lia|].
  intros y0 d y' d' Hrun.
  apply (run_plus_class I isdigit) in Hrun as (w & -> & ? & ? & _);
    [eauto|apply run_Digit_inv].
Qed.

End PatternFacts.

(** * One block *)

Section ParseFacts.

Lemma int_digits (d : str) :
  d <> [] -> forallb isdigit d = true ->
  int d = if (max_str_digits <? length d)%nat then Raise ValueError
          else Ok (int_value d).
Proof.
  intros Hd Hdig. unfold int. rewrite Hdig. by destruct d.
Qed.

(** [_parse_single_story] raises only in [int()], on a story points
    number that is too long; else its record has the fields of
    [story_of]. *)
Lemma parse_single_story_fields (text : str) :
  _parse_single_story text =
  if points_overflow text then Raise ValueError
  else Ok (if truthy (story_title text) && truthy (story_description text)
           then Some (story_of text) else None).
Proof.
  unfold _parse_single_story, story_of, story_criteria, labelled_criteria,
    story_priority, story_points_of, story_title, story_description,
    first_line, points_overflow, points_digits.
  assert (Hlines : truthy (split nl text) = true).
  { pose proof (split_nonnil text). by destruct (split nl text). }
  rewrite Hlines.
  destruct (search I_S criteria text) as [mc|] eqn:Hc;
    [destruct (criteria_group _ _ Hc) as [wc ->]|].
  all: destruct (search I priority_re text) as [mp|] eqn:Hp;
    [destruct (priority_group _ _ Hp) as (wp & -> & _)|].
  all: destruct (search I points text) as [ms|] eqn:Hs;
    [destruct (points_group _ _ Hs) as (wd & -> & Hne & Hdig);
     rewrite (int_digits wd Hne Hdig); cbn [default from_option id];
     destruct (max_str_digits <? length wd)%nat|].
  all: destruct (search I gherkin text) as [mg|]; cbn [bind as_str default].
  all: cbv beta iota zeta; cbn [bind as_str default].
  all: try done.
  all: by destruct (andb _ _).
Qed.

Lemma story_title_inked (text : str) :
  starts_inked text -> story_title text <> [].
Proof.
  intros Hink. unfold story_title.
  destruct (search I gherkin text); [done|].
  assert (Hl : first_line text <> []).
  { unfold first_line. destruct text as [|a text]; [done|]. simpl in *.
    destruct (Ascii.eqb_spec a nl) as [->|]; [done|].
    by destruct (split nl text). }
  destruct (100 <? length (first_line text))%nat; [|done].
  destruct (first_line text); [done|]. done.
Qed.

Lemma story_description_inked (text : str) :
  starts_inked text -> story_description text <> [].
Proof.
  intros Hink. unfold story_description.
  destruct (search I gherkin text); [done|]. by destruct text.
Qed.

(** A block that starts with ink gives a record, unless [int()] raises. *)
Lemma parse_single_story_inked (text : str) :
  starts_inked text ->
  _parse_single_story text =
  if points_overflow text then Raise ValueError else Ok (Some (story_of text)).
Proof.
  intros Hink. rewrite parse_single_story_fields.
  pose proof (story_title_inked text Hink).
  pose proof (story_description_inked text Hink).
  destruct (story_title text); [done|].
  by destruct (story_description text).
Qed.

(** Once a block has raised, the loop of [parse_user_stories] is over. *)
Lemma parse_blocks_raised (blocks : list str) (e : exn) :
  fold_left parse_step blocks (Raise e) = Raise e.
Proof. induction blocks as [|b blocks IH]; [done|]. exact IH. Qed.

(** The loop of [parse_user_stories] over blocks that start with ink. *)
Lemma parse_blocks_inked (blocks : list str) (acc : list UserStory) :
  Forall starts_inked blocks ->
  fold_left parse_step blocks (Ok acc) =
  if existsb points_overflow blocks then Raise ValueError
  else Ok (acc ++ map story_of blocks).
Proof.
  revert acc. induction blocks as [|b blocks IH]; intros acc Hink; simpl.
  - by rewrite app_nil_r.
  - apply Forall_cons in Hink as [Hb Hink].
    rewrite parse_single_story_inked by done.
    destruct (points_overflow b); simpl.
    + apply parse_blocks_raised.
    + rewrite IH by done. by rewrite <- app_assoc.
Qed.

Lemma parse_user_stories_blocks (text : str) :
  parse_user_stories text =
  if existsb points_overflow (_split_into_stories text) then Raise ValueError
  else Ok (map story_of (_split_into_stories text)).
Proof.
  unfold parse_user_stories.
  by rewrite parse_blocks_inked by apply blocks_inked.
Qed.

End ParseFacts.

(** * The priority and story points patterns *)

Section ClassFacts.

Lemma space_not_word (a : ascii) : isspace a = true -> isword a = false.
Proof. destruct a as [[] [] [] [] [] [] [] []]; vm_compute; done. Qed.

Lemma upper_char_not_lower (a : ascii) : islower (upper_char a) = false.
Proof. destruct a as [[] [] [] [] [] [] [] []]; vm_compute; done. Qed.

Lemma lower_char_not_upper (a : ascii) : isupper (lower_char a) = false.
Proof. destruct a as [[] [] [] [] [] [] [] []]; vm_compute; done. Qed.

(** Case mapping moves letters only, to the letter of the other case. *)
Lemma case_of_letters (a : ascii) :
  code (lower_char a) = (if isupper a then code a + 32 else code a)%N /\
  code (upper_char a) = (if islower a then code a - 32 else code a)%N.
Proof. destruct a as [[] [] [] [] [] [] [] []]; vm_compute; done. Qed.

Lemma take_drop_class (p : ascii -> bool) (x : str) :
  take_class p x ++ drop_class p x = x.
Proof.
  induction x as [|a x IH]; simpl; [done|].
  destruct (p a); simpl; by rewrite ?IH.
Qed.

Lemma take_class_all (p : ascii -> bool) (x : str) :
  forallb p (take_class p x) = true.
Proof.
  induction x as [|a x IH]; simpl; [done|].
  destruct (p a) eqn:Hp; simpl; by rewrite ?Hp.
Qed.

Lemma drop_class_ends (p : ascii -> bool) (x : str) :
  match drop_class p x with
  | a :: _ => p a = false
  | [] => True
  end.
Proof.
  induction x as [|a x IH]; simpl; [done|].
  by destruct (p a) eqn:Hp.
Qed.

(** The longest prefix of a class, from a prefix that cannot go on. *)
Lemma class_prefix (p : ascii -> bool) (w rest : str) :
  forallb p w = true ->
  match rest with a :: _ => p a = false | [] => True end ->
  take_class p (w ++ rest) = w /\ drop_class p (w ++ rest) = rest.
Proof.
  intros Hw Hrest. induction w as [|a w IH]; simpl in *.
  - destruct rest as [|a rest]; [done|]. simpl. by rewrite Hrest.
  - apply andb_prop in Hw as [Ha Hw]. rewrite Ha.
    destruct (IH Hw) as [-> ->]. done.
Qed.

Lemma take_class_consumed (p : ascii -> bool) (a : ascii) (y : str) :
  take (length (a :: y) - length (drop_class p y)) (a :: y)
  = a :: take_class p y.
Proof.
  pose proof (take_drop_class p y) as Hy.
  generalize dependent (take_class p y). intros w.
  generalize dependent (drop_class p y). intros r <-.
  apply (take_consumed (a :: w) r).
Qed.

Lemma drop_class_isspace (x : str) : drop_class isspace x = lstrip x.
Proof. induction x as [|a x IH]; simpl; [done|]. by rewrite IH. Qed.

Lemma drop_class_length (p : ascii -> bool) (x : str) :
  length (drop_class p x) <= length x.
Proof.
  induction x as [|a x IH]; simpl; [done|]. destruct (p a); simpl; lia.
Qed.

End ClassFacts.

Section LoopFacts.

Context {A : Type}.
Implicit Types (k : str -> caps -> option A).

Lemma m_Lits fl (l : str) x c k :
  m fl (Lits l) x c k =
  match lits_rest fl l x with
  | Some x' => k x' c
  | None => None
  end.
Proof.
  revert x. induction l as [|a l IH]; intros x; simpl; [done|].
  destruct x as [|b x]; simpl; [done|].
  destruct (lit_eq fl a b); [apply IH|done].
Qed.

(** A greedy loop over a class, when what follows the loop cannot start
    with a character of the class: the loop takes the longest prefix. *)
Lemma star_loop_class_strict (p : ascii -> bool)
    (body : str -> caps -> (str -> caps -> option A) -> option A)
    k fuel x c :
  (forall y d k', body y d k' = one p y d k') ->
  (forall a y d, p a = true -> k (a :: y) d = None) ->
  length x <= fuel ->
  star_loop body true k fuel x c = k (drop_class p x) c.
Proof.
  intros Hbody Hk. revert x.
  induction fuel as [|fuel IH]; intros x Hlen; simpl.
  - destruct x; [done|simpl in Hlen; lia].
  - rewrite Hbody. destruct x as [|a x]; simpl; [done|].
    destruct (p a) eqn:Hp; simpl; [|done].
    simpl in Hlen.
    destruct (length x <? S (length x))%nat eqn:Hlt;
      [|apply Nat.ltb_ge in Hlt; lia].
    rewrite IH by lia.
    destruct (k (drop_class p x) c); simpl; [done|]. by apply Hk.
Qed.

(** The same loop when what follows never fails. *)
Lemma star_loop_class_total (p : ascii -> bool)
    (body : str -> caps -> (str -> caps -> option A) -> option A)
    k fuel x c :
  (forall y d k', body y d k' = one p y d k') ->
  (forall y d, k y d <> None) ->
  length x <= fuel ->
  star_loop body true k fuel x c = k (drop_class p x) c.
Proof.
  intros Hbody Hk. revert x.
  induction fuel as [|fuel IH]; intros x Hlen; simpl.
  - destruct x; [done|simpl in Hlen; lia].
  - rewrite Hbody. destruct x as [|a x]; simpl.
    { by destruct (k [] c). }
    simpl in Hlen. destruct (p a) eqn:Hp; simpl.
    + destruct (length x <? S (length x))%nat eqn:Hlt;
        [|apply Nat.ltb_ge in Hlt; lia].
      rewrite IH by lia.
      pose proof (Hk (drop_class p x) c).
      by destruct (k (drop_class p x) c).
    + by destruct (k (a :: x) c).
Qed.

(** [\w+] before a continuation that never fails. *)
Lemma m_plus_word fl x c k :
  (forall y d, k y d <> None) ->
  m fl (Plus true Word) x c k =
  match x with
  | a :: y => if isword a then k (drop_class isword y) c else None
  | [] => None
  end.
Proof.
  intros Hk. cbn [Plus m]. destruct x as [|a y]; simpl; [done|].
  destruct (isword a); [|done].
  by apply star_loop_class_total.
Qed.

(** [\s*(\w+)] before a continuation that never fails. *)
Lemma m_blanks_word fl x c k :
  (forall y d, k y d <> None) ->
  m fl (Seq (Star true Space) (Group 1 (Plus true Word))) x c k =
  match word_after x with
  | Some (w, rest) => k rest (<[1 := Some w]> c)
  | None => None
  end.
Proof.
  intros Hk. cbn [m].
  rewrite (star_loop_class_strict isspace); [|done| |done].
  - rewrite drop_class_isspace. unfold word_after.
    change (m fl (Plus true Word) (lstrip x) c
              (fun x' c' => k x' (<[1 := Some (take (length (lstrip x) - length x')
                                                 (lstrip x))]> c'))
            = match match lstrip x with
                    | a :: y =>
                        if isword a
                        then Some (a :: take_class isword y, drop_class isword y)
                        else None
                    | [] => None
                    end with
              | Some (w, rest) => k rest (<[1 := Some w]> c)
              | None => None
              end).
    rewrite m_plus_word by (intros; apply Hk).
    destruct (lstrip x) as [|a y]; [done|].
    destruct (isword a); [|done].
    by rewrite take_class_consumed.
  - intros a y d Hsp.
    change (m fl (Plus true Word) (a :: y) d
              (fun x' c' => k x' (<[1 := Some (take (length (a :: y) - length x')
                                                 (a :: y))]> c')) = None).
    rewrite m_plus_word by (intros; apply Hk).
    by rewrite (space_not_word a Hsp).
Qed.

End LoopFacts.

Section LabelFacts.

Lemma lit_eq_I (a b : ascii) :
  lit_eq I a b = true <-> lower_char b = lower_char a.
Proof.
  unfold lit_eq. simpl. rewrite Ascii.eqb_eq. split; congruence.
Qed.

(** The literal [l] is at the front of [x], in any case. *)
Lemma lits_rest_Some (l x x' : str) :
  lits_rest I l x = Some x' <->
  exists lab, x = lab ++ x' /\ lower lab = lower l.
Proof.
  revert x. induction l as [|a l IH]; intros x; simpl.
  - split.
    + intros [= ->]. by exists [].
    + intros (lab & -> & Hlab). by destruct lab.
  - destruct x as [|b x].
    + split; [done|]. intros (lab & Hx & Hlab). by destruct lab.
    + destruct (lit_eq I a b) eqn:Hab.
      * apply lit_eq_I in Hab. rewrite IH. split.
        -- intros (lab & -> & Hlab). exists (b :: lab). simpl.
           by rewrite Hab, Hlab.
        -- intros (lab & Hx & Hlab). destruct lab as [|b' lab]; [done|].
           simpl in Hx, Hlab. injection Hx as -> ->. injection Hlab as _ Hlab.
           by exists lab.
      * split; [done|]. intros (lab & Hx & Hlab).
        destruct lab as [|b' lab]; [done|].
        simpl in Hx, Hlab. injection Hx as -> ->. injection Hlab as Hb _.
        apply lit_eq_I in Hb. congruence.
Qed.

(** A word after optional blanks, the longest there is. *)
Lemma word_after_Some (x w rest : str) :
  word_after x = Some (w, rest) <->
  exists ws, x = ws ++ w ++ rest /\ blank ws = true /\ w <> [] /\
             forallb isword w = true /\ word_ends rest.
Proof.
  unfold word_after. split.
  - destruct (lstrip_split x) as (ws & Hx & Hws).
    destruct (lstrip x) as [|a y]; [done|].
    destruct (isword a) eqn:Ha; [|done]. intros [= <- <-].
    exists ws. split; [|split; [done|split; [done|split]]].
    + rewrite Hx at 1. simpl. by rewrite take_drop_class.
    + simpl. by rewrite Ha, take_class_all.
    + apply drop_class_ends.
  - intros (ws & -> & Hws & Hw & Hall & Hend).
    rewrite lstrip_blank_app by done.
    destruct w as [|a w]; [done|]. simpl in Hall.
    apply andb_prop in Hall as [Ha Hall].
    assert (Hsp : isspace a = false).
    { destruct (isspace a) eqn:Hsp; [|done].
      apply space_not_word in Hsp. congruence. }
    simpl. rewrite Hsp, Ha.
    by destruct (class_prefix isword w rest Hall Hend) as [-> ->].
Qed.

Lemma label_word_Some (l x w rest : str) :
  label_word l x = Some (w, rest) <->
  exists lab ws, x = lab ++ ws ++ w ++ rest /\ lower lab = lower l /\
                 blank ws = true /\ w <> [] /\ forallb isword w = true /\
                 word_ends rest.
Proof.
  unfold label_word. split.
  - destruct (lits_rest I l x) as [x1|] eqn:Hl; [|done].
    apply lits_rest_Some in Hl as (lab & -> & Hlab).
    intros (ws & -> & Hrest)%word_after_Some. by exists lab, ws.
  - intros (lab & ws & -> & Hlab & Hrest).
    assert (Hl : lits_rest I l (lab ++ ws ++ w ++ rest) = Some (ws ++ w ++ rest)).
    { apply lits_rest_Some. by exists lab. }
    rewrite Hl. apply word_after_Some. by exists ws.
Qed.

(** A text that starts with [Prio:] does not start with [Priority:]. *)
Lemma prio_not_priority (lab lab' y y' : str) :
  lab ++ y = lab' ++ y' ->
  lower lab = s "prio:" -> lower lab' = lower (s "Priority:") -> False.
Proof.
  intros Hx Hlab Hlab'.
  apply (f_equal lower) in Hx. unfold lower in Hx. rewrite !map_app in Hx.
  fold (lower lab) (lower lab') in Hx. rewrite Hlab, Hlab' in Hx.
  apply (f_equal (take 5)) in Hx. vm_compute in Hx. discriminate Hx.
Qed.

Lemma priority_word_at (x w : str) :
  (exists rest, priority_word x = Some (w, rest)) <-> priority_at x w.
Proof.
  unfold priority_word, priority_at, priority_label. split.
  - intros [rest Hw].
    apply or_else_sound in Hw as [Hw|Hw];
      apply label_word_Some in Hw as (lab & ws & Hx & Hlab & Hrest);
      exists lab, ws, rest; (split; [done|split; [|done]]); auto.
  - intros (lab & ws & rest & Hx & [Hlab|Hlab] & Hrest); exists rest.
    + assert (Hw : label_word (s "Priority:") x = Some (w, rest)).
      { apply label_word_Some. by exists lab, ws. }
      by rewrite Hw.
    + destruct (label_word (s "Priority:") x) as [[w' rest']|] eqn:Hw'.
      * apply label_word_Some in Hw' as (lab' & ws' & Hx' & Hlab' & _).
        rewrite Hx in Hx'.
        destruct (prio_not_priority _ _ _ _ Hx' Hlab Hlab').
      * simpl. apply label_word_Some. by exists lab, ws.
Qed.

(** [Pattern.match] of the priority pattern, evaluated. *)
Lemma match_here_priority (x : str) :
  match_here I priority_re x =
  match priority_word x with
  | Some (w, rest) =>
      Some {| groups_of := [ Some (take (length x - length rest) x); Some w ];
              rest_of := rest |}
  | None => None
  end.
Proof.
  unfold match_here.
  replace (ngroups priority_re) with 1 by reflexivity.
  set (k0 := fun (x' : str) (c' : caps) =>
               Some {| groups_of := c'; rest_of := x' |}).
  set (k1 := fun (x' : str) (c' : caps) =>
               k0 x' (<[0 := Some (take (length x - length x') x)]> c')).
  change (or_else
            (m I (Lits (s "Priority:")) x (replicate 2 None) (fun x1 c1 =>
               m I (Seq (Star true Space) (Group 1 (Plus true Word))) x1 c1 k1))
            (fun _ =>
             m I (Lits (s "Prio:")) x (replicate 2 None) (fun x1 c1 =>
               m I (Seq (Star true Space) (Group 1 (Plus true Word))) x1 c1 k1))
          = match priority_word x with
            | Some (w, rest) =>
                Some {| groups_of :=
                          [ Some (take (length x - length rest) x); Some w ];
                        rest_of := rest |}
            | None => None
            end).
  rewrite !m_Lits. unfold priority_word, label_word.
  assert (Hk1 : forall y d, k1 y d <> None) by done.
  assert (Htail : forall l,
    match lits_rest I l x with
    | Some x1 =>
        m I (Seq (Star true Space) (Group 1 (Plus true Word))) x1
          (replicate 2 None) k1
    | None => None
    end
    = match match lits_rest I l x with
            | Some x1 => word_after x1
            | None => None
            end with
      | Some (w, rest) =>
          Some {| groups_of :=
                    [ Some (take (length x - length rest) x); Some w ];
                  rest_of := rest |}
      | None => None
      end).
  { intros l. destruct (lits_rest I l x) as [x1|]; [|done].
    rewrite m_blanks_word by done.
    by destruct (word_after x1) as [[w rest]|]. }
  rewrite !Htail.
  destruct (match lits_rest I (s "Priority:") x with
            | Some x1 => word_after x1
            | None => None
            end) as [[w rest]|]; done.
Qed.

(** A match of the priority pattern is a label with its word. *)
Lemma match_here_priority_at (x : str) :
  (forall mo, match_here I priority_re x = Some mo ->
     exists w, group mo 1 = Some w /\ priority_at x w) /\
  (forall w, priority_at x w ->
     exists mo, match_here I priority_re x = Some mo /\ group mo 1 = Some w).
Proof.
  rewrite match_here_priority. split.
  - intros mo Hmo.
    destruct (priority_word x) as [[w rest]|] eqn:Hw; [|done].
    injection Hmo as <-. exists w. split; [done|].
    apply priority_word_at. eauto.
  - intros w [rest ->]%priority_word_at. eauto.
Qed.

End LabelFacts.

Section PointsFacts.

Lemma run_Alt_inv fl r1 r2 x c x' c' :
  run fl (Alt r1 r2) x c x' c' ->
  run fl r1 x c x' c' \/ run fl r2 x c x' c'.
Proof. inversion 1; subst; auto. Qed.

Lemma run_Lit_inv fl a x c x' c' :
  run fl (Lit a) x c x' c' ->
  exists b, x = b :: x' /\ lit_eq fl a b = true /\ c' = c.
Proof. inversion 1; subst. eauto. Qed.

Lemma run_Lits fl (l : str) x c x' c' :
  run fl (Lits l) x c x' c' -> lits_rest fl l x = Some x' /\ c' = c.
Proof.
  revert x c. induction l as [|a l IH]; intros x c Hrun; simpl in *.
  - by inversion Hrun; subst.
  - apply run_Seq_inv in Hrun as (x1 & c1 & Ha & Hl).
    apply run_Lit_inv in Ha as (b & -> & Hb & ->).
    rewrite Hb. by apply IH.
Qed.

(** A label with an optional letter before its last character. *)
Lemma run_label_opt (l : str) (o e : ascii) x c x' c' :
  run I (Seq (Lits l) (Seq (Opt (Lit o)) (Lit e))) x c x' c' ->
  exists lab, x = lab ++ x' /\
    (lower lab = lower (l ++ [o; e]) \/ lower lab = lower (l ++ [e])).
Proof.
  intros (x1 & c1 & [Hl _]%run_Lits & (x2 & c2 & Ho & He)%run_Seq_inv)%run_Seq_inv.
  apply lits_rest_Some in Hl as (lab & -> & Hlab).
  apply run_Lit_inv in He as (b' & -> & Hb'%lit_eq_I & _).
  apply run_Alt_inv in Ho as [Ho|Ho].
  - apply run_Lit_inv in Ho as (b & -> & Hb%lit_eq_I & _).
    exists (lab ++ [b; b']). split; [by rewrite <- app_assoc|]. left.
    unfold lower in *. rewrite !map_app. simpl. by rewrite Hlab, Hb, Hb'.
  - inversion Ho; subst.
    exists (lab ++ [b']). split; [by rewrite <- app_assoc|]. right.
    unfold lower in *. rewrite !map_app. simpl. by rewrite Hlab, Hb'.
Qed.

(** A match of the story points pattern starts with a label followed,
    after blanks, by a digit. *)
Lemma match_here_points_at (x : str) (mo : match_obj) :
  match_here I points x = Some mo -> points_at x.
Proof.
  intros (c' & Hrun & _)%match_here_sound.
  unfold points in Hrun.
  apply run_Seq_inv in Hrun as (x1 & c1 & Hlabel & Hrun).
  apply run_Seq_inv in Hrun as (x2 & c2 & Hws & Hrun).
  apply (run_star_class I isspace) in Hws as (ws & -> & Hws & _);
    [|apply run_Space_inv].
  apply run_Group_inv in Hrun as (c3 & Hrun & _).
  apply (run_plus_class I isdigit) in Hrun as (d & -> & Hd & Hdig & _);
    [|apply run_Digit_inv].
  destruct d as [|a d]; [done|]. simpl in Hdig.
  apply andb_prop in Hdig as [Ha _].
  assert (Hlab : exists lab, x = lab ++ ws ++ (a :: d) ++ rest_of mo /\
                             points_label lab).
  { unfold points_label.
    apply run_Alt_inv in Hlabel as [Hlabel|Hlabel];
      [|apply run_Alt_inv in Hlabel as [Hlabel|Hlabel]].
    - apply run_label_opt in Hlabel as (lab & -> & [Hlab|Hlab]);
        exists lab; (split; [done|]); rewrite Hlab; auto.
    - apply run_label_opt in Hlabel as (lab & -> & [Hlab|Hlab]);
        exists lab; (split; [done|]); rewrite Hlab; auto 6.
    - apply run_Lits in Hlabel as [Hl _].
      apply lits_rest_Some in Hl as (lab & -> & Hlab).
      exists lab. split; [done|]. rewrite Hlab. auto 6. }
  destruct Hlab as (lab & -> & Hlab).
  by exists lab, ws, a, (d ++ rest_of mo).
Qed.

End PointsFacts.
(** * The story extractor *)

Section ExtractFacts.

Lemma existsb_false {A} (p : A -> bool) (l : list A) :
  existsb p l = false <-> Forall (fun x => p x = false) l.
Proof.
  induction l as [|a l IH]; simpl; [by split; [constructor|]|].
  rewrite orb_false_iff, Forall_cons, IH. done.
Qed.

Lemma existsb_true {A} (p : A -> bool) (l : list A) :
  existsb p l = true <-> Exists (fun x => p x = true) l.
Proof.
  induction l as [|a l IH]; simpl.
  - split; [done|]. by intros ?%Exists_nil.
  - rewrite orb_true_iff, Exists_cons, IH. done.
Qed.

Lemma parse_blocks (blocks : list str) (acc : list UserStory) :
  fold_left parse_step blocks (Ok acc) =
  if existsb points_overflow blocks then Raise ValueError
  else Ok (acc ++ omap record_of blocks).
Proof.
  revert acc. induction blocks as [|b blocks IH]; intros acc; simpl.
  - by rewrite app_nil_r.
  - rewrite parse_single_story_fields. fold (record_of b).
    destruct (points_overflow b); simpl; [apply parse_blocks_raised|].
    destruct (record_of b) as [st|]; simpl; rewrite IH; [|done].
    by rewrite <- app_assoc.
Qed.

Lemma record_of_inked (text : str) :
  starts_inked text -> record_of text = Some (story_of text).
Proof.
  intros Hink. unfold record_of.
  pose proof (story_title_inked text Hink).
  pose proof (story_description_inked text Hink).
  destruct (story_title text); [done|].
  by destruct (story_description text).
Qed.

Lemma records_of_blocks (text : str) :
  omap record_of (_split_into_stories text)
  = map story_of (_split_into_stories text).
Proof.
  pose proof (blocks_inked text) as Hink.
  induction Hink as [|b bs Hb _ IH]; [done|].
  cbn [omap list_omap map]. by rewrite record_of_inked, IH.
Qed.

Lemma story_title_length (text : str) :
  search I gherkin text = None -> length (story_title text) <= 103.
Proof.
  intros Hg. unfold story_title. rewrite Hg.
  destruct (100 <? length (first_line text))%nat eqn:Hlen.
  - rewrite length_app, length_take. change (length (s "...")) with 3. lia.
  - apply Nat.ltb_ge in Hlen. lia.
Qed.

(** A block of a text that returns is parsed to its record. *)
Lemma parsed_blocks (text : str) :
  existsb points_overflow (_split_into_stories text) = false ->
  Forall2 (fun block r => _parse_single_story block = Ok (Some r))
    (_split_into_stories text) (map story_of (_split_into_stories text)).
Proof.
  intros Hov%existsb_false.
  apply Forall2_fmap_r, Forall_Forall2_diag.
  pose proof (blocks_inked text) as Hink.
  induction Hov as [|b bs Hb _ IH]; [constructor|].
  apply Forall_cons in Hink as [Hi Hink]. constructor; [|by apply IH].
  by rewrite parse_single_story_inked, Hb.
Qed.

(** An empty line between two texts: the blocks of the first, then the
    blocks of the second. *)
Lemma runs_app_blank (A B : list str) (cur : list str) :
  runs cur (A ++ [] :: B) = runs cur A ++ runs [] B.
Proof.
  revert cur. induction A as [|l A IH]; intros cur; simpl.
  - done.
  - destruct (truthy l); [apply IH|]. by rewrite IH, app_assoc.
Qed.

Lemma blocks_app (t1 t2 : str) :
  _split_into_stories (t1 ++ [nl; nl] ++ t2)
  = _split_into_stories t1 ++ _split_into_stories t2.
Proof.
  rewrite !split_into_stories_runs. cbn [app].
  rewrite split_app_nl.
  change (split nl (nl :: t2)) with ([] :: split nl t2).
  rewrite map_app. cbn [map]. change (strip []) with (@nil ascii).
  by rewrite runs_app_blank, map_app.
Qed.

End ExtractFacts.

Section PriorityFacts.

Lemma parsed_story_of (block : str) (r : UserStory) :
  _parse_single_story block = Ok (Some r) -> r = story_of block.
Proof.
  rewrite parse_single_story_fields.
  destruct (points_overflow block); [done|].
  destruct (andb _ _); congruence.
Qed.

(** The priority comes from the first position of the block that has a
    label with its word. *)
Lemma story_priority_first (before x w : str) :
  priority_at x w ->
  (forall b1 b2 w', before = b1 ++ b2 -> b2 <> [] ->
                    ~ priority_at (b2 ++ x) w') ->
  story_priority (before ++ x) = capitalize w.
Proof.
  intros Hat Hfirst. unfold story_priority.
  destruct (proj2 (match_here_priority_at x) w Hat) as (mo & Hmo & Hg).
  assert (Hs : search I priority_re (before ++ x) = Some mo).
  { apply search_Some. exists before, x. split; [done|]. split; [done|].
    intros b1 b2 Hb Hb2.
    destruct (match_here I priority_re (b2 ++ x)) as [mo'|] eqn:Hmo'; [|done].
    destruct (proj1 (match_here_priority_at (b2 ++ x)) mo' Hmo')
      as (w' & _ & Hat').
    destruct (Hfirst b1 b2 w' Hb Hb2 Hat'). }
  by rewrite Hs, Hg.
Qed.

Lemma story_priority_none (block : str) :
  (forall before x w, block = before ++ x -> ~ priority_at x w) ->
  search I priority_re block = None.
Proof.
  intros Hnone. apply search_None. intros before x ->.
  destruct (match_here I priority_re x) as [mo|] eqn:Hmo; [|done].
  destruct (proj1 (match_here_priority_at x) mo Hmo) as (w & _ & Hat).
  destruct (Hnone before x w eq_refl Hat).
Qed.

Lemma story_points_none (block : str) :
  (forall before x, block = before ++ x -> ~ points_at x) ->
  search I points block = None.
Proof.
  intros Hnone. apply search_None. intros before x ->.
  destruct (match_here I points x) as [mo|] eqn:Hmo; [|done].
  destruct (Hnone before x eq_refl (match_here_points_at x mo Hmo)).
Qed.

End PriorityFacts.

(** * The document assembler *)

Section GeneratorFacts.


Lemma map_enumerate {A B} (g : nat -> A -> B) (l : list A) (start : nat) :
  map (fun ix => g ix.1 ix.2) (enumerate start l)
  = imap (fun k x => g (start + k) x) l.
Proof.
  revert start. induction l as [|a l IH]; intros start; simpl; [done|].
  f_equal; [by rewrite Nat.add_0_r|].
  rewrite IH. apply imap_ext. intros k x _. simpl. f_equal. lia.
Qed.

(** A loop that only appends builds the concatenation of what its turns
    append. *)
Lemma fold_left_append {A} (step : str -> A -> str) (entry : A -> str)
    (l : list A) (content : str) :
  (forall c x, step c x = c ++ entry x) ->
  fold_left step l content = content ++ concat (map entry l).
Proof.
  intros Hstep. revert content.
  induction l as [|a l IH]; intros content; simpl.
  - by rewrite app_nil_r.
  - rewrite IH, Hstep. by rewrite <- app_assoc.
Qed.

Lemma user_story_step_append (c : str) (ix : nat * UserStory) :
  user_story_step c ix = c ++ us_entry ix.1 ix.2.
Proof.
  destruct ix as [i st]. unfold us_entry, user_story_step. simpl.
  destruct (truthy_points (story_points st)); by rewrite <- ?app_assoc.
Qed.

Lemma functional_step_append (c : str) (ix : nat * UserStory) :
  functional_step c ix = c ++ fr_entry ix.1 ix.2.
Proof.
  destruct ix as [i st]. unfold fr_entry, functional_step. simpl.
  by rewrite <- ?app_assoc.
Qed.

Lemma criterion_step_append (i : nat) (c : str) (jc : nat * str) :
  criterion_step i c jc = c ++ criterion_step i [] jc.
Proof. destruct jc as [j cr]. unfold criterion_step. by simpl. Qed.

Lemma acceptance_step_append (c : str) (ix : nat * UserStory) :
  acceptance_step c ix = c ++ ac_entry ix.1 ix.2.
Proof.
  destruct ix as [i st]. unfold ac_entry, acceptance_step. simpl.
  destruct (truthy (acceptance_criteria st)); [|by rewrite app_nil_r].
  rewrite !(fold_left_append _ _ _ _ (criterion_step_append i)).
  simpl. by rewrite <- ?app_assoc.
Qed.

Lemma section_body (step : str -> nat * UserStory -> str)
    (entry : nat -> UserStory -> str) (stories : list UserStory)
    (header : str) :
  (forall c ix, step c ix = c ++ entry ix.1 ix.2) ->
  fold_left step (enumerate 1 stories) header
  = header ++ concat (imap (fun k st => entry (S k) st) stories).
Proof.
  intros Hstep.
  rewrite (fold_left_append step (fun ix => entry ix.1 ix.2)) by done.
  by rewrite (map_enumerate entry).
Qed.

End GeneratorFacts.

(** * Further properties of the story extractor *)

Section GroupFacts.

Lemma run_nocap fl r x c x' c' :
  nocap r = true -> run fl r x c x' c' -> c' = c.
Proof.
  intros Hn Hrun. induction Hrun; simpl in Hn; try done.
  - apply andb_prop in Hn as [H1 H2]. rewrite IHHrun2, IHHrun1; done.
  - apply andb_prop in Hn as [H1 H2]. auto.
  - apply andb_prop in Hn as [H1 H2]. auto.
  - rewrite IHHrun2, IHHrun1; done.
Qed.

Lemma run_Dot_inv y d y' d' :
  run I Dot y d y' d' ->
  exists b, y = b :: y' /\ negb (Ascii.eqb b nl) = true /\ d' = d.
Proof. inversion 1; subst. eauto. Qed.

(** A group [(.+?)] of a pattern without [DOTALL] holds a text that is
    not empty and has no newline. *)
Lemma run_group_dots i x c x' c' :
  run I (Group i (Plus false Dot)) x c x' c' ->
  exists w, x = w ++ x' /\ w <> [] /\ oneline w = true /\
            c' = <[i := Some w]> c.
Proof.
  intros (c1 & Hrun & ->)%run_Group_inv.
  apply (run_plus_class I (fun b => negb (Ascii.eqb b nl))) in Hrun
    as (w & -> & Hw & Hline & ->); [|apply run_Dot_inv].
  exists w. by rewrite take_consumed.
Qed.

(** The three groups of a Gherkin match. *)
Lemma gherkin_groups (text : str) (mo : match_obj) :
  search I gherkin text = Some mo ->
  exists w1 w2 w3,
    group mo 1 = Some w1 /\ group mo 2 = Some w2 /\ group mo 3 = Some w3 /\
    (w1 <> [] /\ oneline w1 = true) /\ (w2 <> [] /\ oneline w2 = true) /\
    (w3 <> [] /\ oneline w3 = true).
Proof.
  intros [y Hy]%search_sound.
  apply match_here_sound in Hy as (c' & Hrun & Hg).
  replace (ngroups gherkin) with 3 in Hrun by reflexivity.
  unfold gherkin in Hrun.
  apply run_Seq_inv in Hrun as (x1 & c1 & [_ ->]%run_Lits & Hrun).
  apply run_Seq_inv in Hrun as (x2 & c2 & (w1 & -> & Hn1 & Hl1 & ->)%run_group_dots & Hrun).
  apply run_Seq_inv in Hrun as (x3 & c3 & [_ ->]%run_Lits & Hrun).
  apply run_Seq_inv in Hrun as (x4 & c4 & (w2 & -> & Hn2 & Hl2 & ->)%run_group_dots & Hrun).
  apply run_Seq_inv in Hrun as (x5 & c5 & [_ ->]%run_Lits & Hrun).
  apply run_Seq_inv in Hrun as (x6 & c6 & (w3 & -> & Hn3 & Hl3 & ->)%run_group_dots & Hrun).
  apply run_nocap in Hrun as ->; [|done].
  exists w1, w2, w3. unfold group. rewrite Hg. done.
Qed.

(** Group 1 of a match of the Given/When/Then/And pattern. *)
Lemma acceptance_group (y : str) (mo : match_obj) :
  match_here I acceptance y = Some mo ->
  exists w, group mo 1 = Some w /\ w <> [] /\ oneline w = true.
Proof.
  intros (c' & Hrun & Hg)%match_here_sound.
  replace (ngroups acceptance) with 1 in Hrun by reflexivity.
  unfold acceptance in Hrun.
  apply run_Seq_inv in Hrun as (x1 & c1 & ->%run_nocap & Hrun); [|done].
  apply run_Seq_inv in Hrun as (x2 & c2 & ->%run_nocap & Hrun); [|done].
  apply run_Seq_inv in Hrun as (x3 & c3 & (w & -> & Hn & Hl & ->)%run_group_dots & Hrun).
  apply run_nocap in Hrun as ->; [|done].
  exists w. unfold group. rewrite Hg. done.
Qed.

(** Every element of a [findall] is group 1 of a match somewhere in the
    text. *)
Lemma findall_sound fl r (x w : str) :
  w ∈ findall fl r x ->
  exists y mo, match_here fl r y = Some mo /\ w = default [] (group mo 1).
Proof.
  unfold findall. generalize 0 at 1.
  induction x as [|a x IH]; intros skip; simpl.
  - destruct skip; [|by intros ?%elem_of_nil].
    destruct (match_here fl r []) as [mo|] eqn:Hm; [|by intros ?%elem_of_nil].
    intros [->|?%elem_of_nil]%elem_of_cons; [eauto|done].
  - destruct skip; [|apply IH].
    destruct (match_here fl r (a :: x)) as [mo|] eqn:Hm; [|apply IH].
    intros [->|Hin]%elem_of_cons; [eauto|by apply IH in Hin].
Qed.

End GroupFacts.

Section FieldFacts.

Lemma oneline_app (x y : str) : oneline (x ++ y) = oneline x && oneline y.
Proof. apply forallb_app. Qed.

Lemma oneline_take (n : nat) (x : str) : oneline x = true -> oneline (take n x) = true.
Proof.
  revert n. induction x as [|a x IH]; intros [|n]; simpl; try done.
  intros [Ha Hx]%andb_prop. rewrite Ha. by apply IH.
Qed.

Lemma split_oneline (x : str) :
  Forall (fun l => oneline l = true) (split nl x).
Proof.
  induction x as [|a x IH]; simpl; [by repeat constructor|].
  destruct (Ascii.eqb a nl) eqn:Ha; [by constructor|].
  destruct (split nl x) as [|l ls].
  { constructor; [simpl; by rewrite Ha|constructor]. }
  apply Forall_cons in IH as [Hl Hls]. constructor; [|done].
  simpl. by rewrite Ha, Hl.
Qed.

Lemma strip_oneline (x : str) : oneline x = true -> oneline (strip x) = true.
Proof.
  destruct (strip_split x) as (w1 & w2 & Hx & _). intros Hline.
  rewrite Hx, !oneline_app in Hline.
  by apply andb_prop in Hline as [_ [? _]%andb_prop].
Qed.

Lemma first_line_oneline (text : str) : oneline (first_line text) = true.
Proof.
  unfold first_line. pose proof (split_oneline text) as Hs.
  destruct (split nl text) as [|l ls]; [done|].
  by apply Forall_cons in Hs as [? _].
Qed.

Lemma story_title_oneline (text : str) : oneline (story_title text) = true.
Proof.
  unfold story_title. destruct (search I gherkin text) as [mo|] eqn:Hg.
  - destruct (gherkin_groups _ _ Hg) as (w1 & w2 & w3 & _ & -> & _ & _ & [_ Hl] & _).
    unfold fmt_group. cbn [default from_option id].
    by rewrite oneline_app, Hl.
  - pose proof (first_line_oneline text) as Hl.
    destruct (100 <? length (first_line text))%nat; [|done].
    by rewrite oneline_app, oneline_take.
Qed.

Lemma labelled_criteria_clean (text : str) :
  Forall clean_line (labelled_criteria text).
Proof.
  unfold labelled_criteria. destruct (search I_S criteria text); [|constructor].
  generalize (split_oneline (default [] (group m0 1))).
  generalize (split nl (default [] (group m0 1))). intros ls Hls.
  induction Hls as [|l ls Hl _ IH]; [constructor|]. simpl.
  destruct (strip l) as [|a y] eqn:Hs; [done|]. cbn [truthy]. simpl.
  constructor; [|done]. rewrite <- Hs. split; [|split].
  - destruct (strip_inked l) as [Hn|Hi]; [congruence|done].
  - unfold ends_inked, strip, rstrip. rewrite rev_involutive.
    assert (Hnb : lstrip (rev (lstrip l)) <> []).
    { intros Hnb. unfold strip, rstrip in Hs. by rewrite Hnb in Hs. }
    clear Hs. induction (rev (lstrip l)) as [|c z IHz]; [done|]. simpl in *.
    destruct (isspace c) eqn:Hc; [auto|done].
  - by apply strip_oneline.
Qed.

Lemma story_criteria_lines (text : str) :
  Forall (fun c => c <> [] /\ oneline c = true) (story_criteria text).
Proof.
  unfold story_criteria. apply Forall_app. split.
  - eapply Forall_impl; [apply labelled_criteria_clean|].
    intros c (Hs & _ & Hl). split; [by destruct c|done].
  - apply Forall_forall. intros w (y & mo & Hm & ->)%findall_sound.
    by destruct (acceptance_group y mo Hm) as (w & -> & Hw).
Qed.

(** A word character stays a character that is not a blank when its case
    changes. *)
Lemma word_case_inked (a : ascii) :
  isword a = true ->
  forallb (fun b => negb (isspace b)) (title_full a) = true /\
  isspace (lower_char a) = false.
Proof. destruct a as [[] [] [] [] [] [] [] []]; vm_compute; done. Qed.

Lemma title_full_nonnil (a : ascii) : title_full a <> [].
Proof. unfold title_full. by destruct (Ascii.eqb a sharp_s). Qed.

Lemma capitalize_inked (w : str) :
  forallb isword w = true ->
  forallb (fun b => negb (isspace b)) (capitalize w) = true.
Proof.
  destruct w as [|a w]; [done|]. simpl. intros [Ha Hw]%andb_prop.
  rewrite forallb_app, (proj1 (word_case_inked a Ha)). simpl.
  induction w as [|b w IH]; [done|]. simpl in *.
  apply andb_prop in Hw as [Hb Hw].
  by rewrite (proj2 (word_case_inked b Hb)), IH.
Qed.

Lemma story_priority_inked (text : str) :
  story_priority text <> [] /\
  forallb (fun b => negb (isspace b)) (story_priority text) = true.
Proof.
  unfold story_priority. destruct (search I priority_re text) as [mo|] eqn:Hp.
  - destruct (priority_group _ _ Hp) as (w & -> & Hw & Hall). simpl. split.
    + destruct w as [|a w]; [done|]. simpl.
      pose proof (title_full_nonnil a). by destruct (title_full a).
    + by apply capitalize_inked.
  - by vm_compute.
Qed.

Lemma digit_val_range (a : ascii) :
  isdigit a = true -> (0 <= digit_val a <= 9)%Z.
Proof.
  unfold isdigit, between, digit_val.
  intros [H1%N.leb_le H2%N.leb_le]%andb_prop. lia.
Qed.

Lemma int_value_nonneg (d : str) :
  forallb isdigit d = true -> (0 <= int_value d)%Z.
Proof.
  intros Hd. unfold int_value.
  assert (Hacc : forall acc, (0 <= acc)%Z ->
            (0 <= fold_left (fun acc a => 10 * acc + digit_val a) d acc)%Z);
    [|by apply Hacc].
  induction d as [|a d IH]; intros acc Hacc; simpl; [done|].
  simpl in Hd. apply andb_prop in Hd as [Ha Hd].
  apply IH; [done|]. apply digit_val_range in Ha. lia.
Qed.

Lemma story_points_nonneg (text : str) (n : Z) :
  story_points_of text = Some n -> (0 <= n)%Z.
Proof.
  unfold story_points_of. destruct (search I points text) as [mo|] eqn:Hp; [|done].
  destruct (points_group _ _ Hp) as (w & -> & _ & Hall). simpl.
  intros [= <-]. by apply int_value_nonneg.
Qed.

End FieldFacts.

Section NormalForm.

Lemma strip_ends_inked (x : str) : strip x = [] \/ ends_inked (strip x).
Proof.
  unfold ends_inked, strip, rstrip. rewrite rev_involutive.
  destruct (lstrip (rev (lstrip x))) as [|a y] eqn:Hl; [by left|right].
  clear -Hl. induction (rev (lstrip x)) as [|c z IH]; [done|]. simpl in Hl.
  destruct (isspace c) eqn:Hc; [auto|]. by injection Hl as <- _.
Qed.

Lemma strip_clean (l : str) :
  oneline l = true -> strip l = [] \/ clean_line (strip l).
Proof.
  intros Hl. destruct (strip_inked l) as [?|Hs]; [by left|].
  destruct (strip_ends_inked l) as [?|He]; [by left|].
  right. split; [done|]. split; [done|]. by apply strip_oneline.
Qed.

Lemma lstrip_inked (x : str) : starts_inked x -> lstrip x = x.
Proof. destruct x as [|a x]; [done|]. simpl. by intros ->. Qed.

(** [strip] changes nothing in a clean line. *)
Lemma strip_clean_id (l : str) : clean_line l -> strip l = l.
Proof.
  intros (Hs & He & _). unfold strip, rstrip.
  rewrite (lstrip_inked l Hs), (lstrip_inked (rev l) He).
  apply rev_involutive.
Qed.

Lemma strip_idem (x : str) : strip (strip x) = strip x.
Proof.
  destruct (strip_inked x) as [Hn|Hs]; [by rewrite Hn|].
  destruct (strip_ends_inked x) as [Hn|He]; [by rewrite Hn|].
  unfold strip at 1, rstrip.
  rewrite (lstrip_inked _ Hs), (lstrip_inked _ He). apply rev_involutive.
Qed.

Lemma split_oneline_id (l : str) : oneline l = true -> split nl l = [l].
Proof.
  induction l as [|a l IH]; [done|]. simpl.
  intros [Ha Hl]%andb_prop. apply negb_true_iff in Ha. by rewrite Ha, IH.
Qed.

Lemma concat_split_oneline (ls : list str) :
  Forall (fun l => oneline l = true) ls -> concat (map (split nl) ls) = ls.
Proof.
  induction 1 as [|l ls Hl _ IH]; [done|]. simpl.
  by rewrite split_oneline_id, IH.
Qed.

Lemma join_split (x : str) : join [nl] (split nl x) = x.
Proof.
  induction x as [|a x IH]; [done|]. simpl.
  destruct (Ascii.eqb_spec a nl) as [->|_].
  - destruct (split nl x) as [|l ls] eqn:Hs; [by apply split_nonnil in Hs|].
    simpl in *. by rewrite IH.
  - destruct (split nl x) as [|l ls] eqn:Hs; [by apply split_nonnil in Hs|].
    destruct ls; simpl in *; by rewrite <- IH.
Qed.

Lemma blank_join (ls : list str) :
  Forall (fun l => blank l = true) ls -> blank (join [nl] ls) = true.
Proof.
  induction 1 as [|l ls Hl Hls IH]; [done|].
  destruct ls as [|l' ls]; [done|].
  change (join [nl] (l :: l' :: ls)) with (l ++ [nl] ++ join [nl] (l' :: ls)).
  by rewrite !blank_app, Hl, IH.
Qed.

Lemma runs_truthy (ls cur : list str) :
  Forall (fun l => truthy l = true) ls -> runs cur ls = pending (cur ++ ls).
Proof.
  intros Hls. revert cur. induction Hls as [|l ls Hl _ IH]; intros cur; simpl.
  - by rewrite app_nil_r.
  - rewrite Hl, IH. by rewrite <- app_assoc.
Qed.

Lemma runs_truthy_app (r ls cur : list str) :
  Forall (fun l => truthy l = true) r -> runs cur (r ++ ls) = runs (cur ++ r) ls.
Proof.
  intros Hr. revert cur. induction Hr as [|l r Hl _ IH]; intros cur; simpl.
  - by rewrite app_nil_r.
  - rewrite Hl, IH. by rewrite <- app_assoc.
Qed.

Lemma runs_nil (ls cur : list str) :
  truthy (runs cur ls) = truthy cur || negb (forallb (fun l => negb (truthy l)) ls).
Proof.
  revert cur. induction ls as [|l ls IH]; intros cur; simpl.
  - destruct cur; simpl; done.
  - destruct l as [|a l]; simpl.
    + destruct cur; simpl; [apply IH|done].
    + rewrite IH. by destruct cur.
Qed.

(** The runs are lists of clean lines. *)
Lemma runs_clean (ls : list str) (cur : list str) :
  Forall (fun l => l = [] \/ clean_line l) ls ->
  Forall clean_line cur ->
  Forall (fun r => r <> [] /\ Forall clean_line r) (runs cur ls).
Proof.
  revert cur. induction ls as [|l ls IH]; intros cur Hls Hcur; simpl.
  - destruct cur; simpl; [constructor|]. constructor; [done|constructor].
  - apply Forall_cons in Hls as [Hl Hls].
    destruct l as [|a l]; cbn [truthy].
    + apply Forall_app. split; [|by apply IH].
      destruct cur; simpl; [constructor|]. constructor; [done|constructor].
    + apply IH; [done|]. apply Forall_app. split; [done|].
      constructor; [|done]. by destruct Hl.
Qed.

Lemma stripped_lines_clean (text : str) :
  Forall (fun l => l = [] \/ clean_line l) (map strip (split nl text)).
Proof.
  apply Forall_fmap. eapply Forall_impl; [apply split_oneline|].
  intros l Hl. by apply strip_clean.
Qed.

Lemma clean_truthy (r : list str) :
  Forall clean_line r -> Forall (fun l => truthy l = true) r.
Proof. intros H. eapply Forall_impl; [exact H|]. intros l (Hs & _). by destruct l. Qed.

Lemma clean_oneline (r : list str) :
  Forall clean_line r -> Forall (fun l => oneline l = true) r.
Proof. intros H. eapply Forall_impl; [exact H|]. by intros l (_ & _ & Hl). Qed.

Lemma map_strip_clean (r : list str) : Forall clean_line r -> map strip r = r.
Proof.
  induction 1 as [|l r Hl _ IH]; [done|]. simpl.
  by rewrite strip_clean_id, IH.
Qed.

(** The stripped lines of a run written as a block are the run. *)
Lemma lines_of_block (r : list str) :
  r <> [] -> Forall clean_line r ->
  map strip (split nl (join [nl] r)) = r.
Proof.
  intros Hr Hc. rewrite split_join by done.
  rewrite concat_split_oneline by (by apply clean_oneline).
  by apply map_strip_clean.
Qed.

(** Blocks written one after the other with an empty line between them
    are found again. *)
Lemma runs_of_blocks (rs : list (list str)) :
  Forall (fun r => r <> [] /\ Forall clean_line r) rs ->
  runs [] (map strip (split nl (join [nl; nl] (map (join [nl]) rs)))) = rs.
Proof.
  induction 1 as [|r rs [Hr Hc] Hrs IH]; [done|].
  destruct rs as [|r' rs].
  - cbn [map join]. rewrite lines_of_block by done.
    rewrite runs_truthy by (by apply clean_truthy). by destruct r.
  - change (join [nl; nl] (map (join [nl]) (r :: r' :: rs)))
      with (join [nl] r ++ nl :: nl :: join [nl; nl] (map (join [nl]) (r' :: rs))).
    rewrite split_app_nl, map_app, lines_of_block by done.
    rewrite runs_truthy_app by (by apply clean_truthy).
    change (split nl (nl :: ?y)) with ([] :: split nl y).
    rewrite (map_cons strip), app_nil_l. change (strip []) with (@nil ascii).
    rewrite runs_blank_cons, IH. by destruct r.
Qed.

Lemma blocks_runs_clean (text : str) :
  Forall (fun r => r <> [] /\ Forall clean_line r)
    (runs [] (map strip (split nl text))).
Proof. apply runs_clean; [apply stripped_lines_clean|constructor]. Qed.

End NormalForm.

Section ExtraParserFacts.

Lemma lines_blank (x : str) : forallb blank (split nl x) = blank x.
Proof.
  induction x as [|a x IH]; [done|]. simpl.
  destruct (Ascii.eqb_spec a nl) as [->|_]; [by rewrite <- IH|].
  destruct (split nl x) as [|l ls] eqn:Hs; [by apply split_nonnil in Hs|].
  simpl in *. rewrite <- IH. by rewrite andb_assoc.
Qed.

Lemma stripped_lines_empty (x : str) :
  forallb (fun l => negb (truthy l)) (map strip (split nl x)) = blank x.
Proof.
  rewrite <- lines_blank. induction (split nl x) as [|l ls IH]; [done|].
  simpl. by rewrite IH, truthy_strip, negb_involutive.
Qed.

Lemma blocks_truthy (text : str) :
  truthy (_split_into_stories text) = negb (blank text).
Proof.
  rewrite split_into_stories_runs.
  pose proof (runs_nil (map strip (split nl text)) []) as Hr.
  rewrite stripped_lines_empty in Hr. simpl in Hr. rewrite <- Hr.
  by destruct (runs [] (map strip (split nl text))).
Qed.

Lemma block_fixed (r : list str) :
  r <> [] -> Forall clean_line r ->
  _split_into_stories (join [nl] r) = [join [nl] r].
Proof.
  intros Hr Hc. rewrite split_into_stories_runs, lines_of_block by done.
  rewrite runs_truthy by (by apply clean_truthy). by destruct r.
Qed.

Lemma stripped_lines_again (text : str) :
  map strip (split nl (join [nl] (map strip (split nl text))))
  = map strip (split nl text).
Proof.
  pose proof (split_nonnil text) as Hne. pose proof (split_oneline text) as Hl.
  rewrite split_join by (by destruct (split nl text)).
  rewrite concat_split_oneline.
  - rewrite <- list_fmap_compose. apply list_fmap_ext. intros i l _. apply strip_idem.
  - apply Forall_fmap. eapply Forall_impl; [exact Hl|].
    intros l Hline. by apply strip_oneline.
Qed.

Lemma run_Eos_inv fl x c x' c' :
  run fl Eos x c x' c' -> x' = x /\ c' = c /\ (x = [] \/ x = [nl]).
Proof. inversion 1; subst. auto. Qed.

(** A Gherkin match: where it is in the text, and its groups. *)
Lemma gherkin_match_shape (text : str) (mo : match_obj) :
  search I gherkin text = Some mo ->
  exists before k1 persona k2 action k3 benefit tail,
    text = before ++ k1 ++ persona ++ k2 ++ action ++ k3 ++ benefit ++ tail /\
    lower k1 = s "as a " /\ lower k2 = s ", i want " /\ lower k3 = s " so that " /\
    group mo 1 = Some persona /\ group mo 2 = Some action /\
    group mo 3 = Some benefit /\
    (persona <> [] /\ oneline persona = true) /\
    (action <> [] /\ oneline action = true) /\
    (benefit <> [] /\ oneline benefit = true) /\
    (tail = [] \/ tail = [nl] \/ exists after, tail = "."%char :: after).
Proof.
  intros (before & y & -> & Hy & _)%search_Some.
  apply match_here_sound in Hy as (c' & Hrun & Hg).
  replace (ngroups gherkin) with 3 in Hrun by reflexivity.
  unfold gherkin in Hrun.
  apply run_Seq_inv in Hrun as (x1 & c1 & [Hk1 ->]%run_Lits & Hrun).
  apply lits_rest_Some in Hk1 as (k1 & -> & Hk1).
  apply run_Seq_inv in Hrun as (x2 & c2 & (w1 & -> & Hn1 & Hl1 & ->)%run_group_dots & Hrun).
  apply run_Seq_inv in Hrun as (x3 & c3 & [Hk2 ->]%run_Lits & Hrun).
  apply lits_rest_Some in Hk2 as (k2 & -> & Hk2).
  apply run_Seq_inv in Hrun as (x4 & c4 & (w2 & -> & Hn2 & Hl2 & ->)%run_group_dots & Hrun).
  apply run_Seq_inv in Hrun as (x5 & c5 & [Hk3 ->]%run_Lits & Hrun).
  apply lits_rest_Some in Hk3 as (k3 & -> & Hk3).
  apply run_Seq_inv in Hrun as (x6 & c6 & (w3 & -> & Hn3 & Hl3 & ->)%run_group_dots & Hrun).
  exists before, k1, w1, k2, w2, k3, w3, x6.
  assert (Hend : c' = <[3:=Some w3]> (<[2:=Some w2]> (<[1:=Some w1]> (replicate 4 None)))
                 /\ (x6 = [] \/ x6 = [nl] \/ exists after, x6 = "."%char :: after)).
  { apply run_Alt_inv in Hrun as [Hdot|Heos].
    - apply run_Lit_inv in Hdot as (b & -> & Hb%lit_eq_I & ->). split; [done|].
      right. right. exists (rest_of mo). f_equal.
      destruct b as [[] [] [] [] [] [] [] []]; vm_compute in Hb; congruence.
    - apply run_Eos_inv in Heos as (_ & -> & Hx). split; [done|].
      destruct Hx as [->| ->]; auto. }
  destruct Hend as [-> Hend]. unfold group. rewrite Hg.
  do 10 (split; [done|]). done.
Qed.

End ExtraParserFacts.

(** * The story points pattern, evaluated *)

Section PointsEval.

Lemma space_not_digit (a : ascii) : isspace a = true -> isdigit a = false.
Proof. destruct a as [[] [] [] [] [] [] [] []]; vm_compute; done. Qed.

(** [\d+] before a continuation that never fails. *)
Lemma m_plus_digit {A} fl x c (k : str -> caps -> option A) :
  (forall y d, k y d <> None) ->
  m fl (Plus true Digit) x c k =
  match x with
  | a :: y => if isdigit a then k (drop_class isdigit y) c else None
  | [] => None
  end.
Proof.
  intros Hk. cbn [Plus m]. destruct x as [|a y]; simpl; [done|].
  destruct (isdigit a); [|done].
  by apply star_loop_class_total.
Qed.

(** [\s*(\d+)] before a continuation that never fails. *)
Lemma m_blanks_digits {A} fl x c (k : str -> caps -> option A) :
  (forall y d, k y d <> None) ->
  m fl (Seq (Star true Space) (Group 1 (Plus true Digit))) x c k =
  match digits_after x with
  | Some (w, rest) => k rest (<[1 := Some w]> c)
  | None => None
  end.
Proof.
  intros Hk. cbn [m].
  rewrite (star_loop_class_strict isspace); [|done| |done].
  - rewrite drop_class_isspace. unfold digits_after.
    change (m fl (Plus true Digit) (lstrip x) c
              (fun x' c' => k x' (<[1 := Some (take (length (lstrip x) - length x')
                                                 (lstrip x))]> c'))
            = match match lstrip x with
                    | a :: y =>
                        if isdigit a
                        then Some (a :: take_class isdigit y, drop_class isdigit y)
                        else None
                    | [] => None
                    end with
              | Some (w, rest) => k rest (<[1 := Some w]> c)
              | None => None
              end).
    rewrite m_plus_digit by (intros; apply Hk).
    destruct (lstrip x) as [|a y]; [done|].
    destruct (isdigit a); [|done].
    by rewrite take_class_consumed.
  - intros a y d Hsp.
    change (m fl (Plus true Digit) (a :: y) d
              (fun x' c' => k x' (<[1 := Some (take (length (a :: y) - length x')
                                                 (a :: y))]> c')) = None).
    rewrite m_plus_digit by (intros; apply Hk).
    by rewrite (space_not_digit a Hsp).
Qed.

(** A number after optional blanks, the longest there is. *)
Lemma digits_after_Some (x w rest : str) :
  digits_after x = Some (w, rest) <->
  exists ws, x = ws ++ w ++ rest /\ blank ws = true /\ w <> [] /\
             forallb isdigit w = true /\ digits_end rest.
Proof.
  unfold digits_after. split.
  - destruct (lstrip_split x) as (ws & Hx & Hws).
    destruct (lstrip x) as [|a y]; [done|].
    destruct (isdigit a) eqn:Ha; [|done]. intros [= <- <-].
    exists ws. split; [|split; [done|split; [done|split]]].
    + rewrite Hx at 1. simpl. by rewrite take_drop_class.
    + simpl. by rewrite Ha, take_class_all.
    + apply drop_class_ends.
  - intros (ws & -> & Hws & Hw & Hall & Hend).
    rewrite lstrip_blank_app by done.
    destruct w as [|a w]; [done|]. simpl in Hall.
    apply andb_prop in Hall as [Ha Hall].
    assert (Hsp : isspace a = false).
    { destruct (isspace a) eqn:Hsp; [|done].
      apply space_not_digit in Hsp. congruence. }
    simpl. rewrite Hsp, Ha.
    by destruct (class_prefix isdigit w rest Hall Hend) as [-> ->].
Qed.

(** [Pattern.match] of the story points pattern, evaluated. *)
Lemma match_here_points (x : str) :
  match_here I points x =
  match points_word x with
  | Some (w, rest) =>
      Some {| groups_of := [ Some (take (length x - length rest) x); Some w ];
              rest_of := rest |}
  | None => None
  end.
Proof.
  unfold match_here.
  replace (ngroups points) with 1 by reflexivity.
  set (k0 := fun (x' : str) (c' : caps) =>
               Some {| groups_of := c'; rest_of := x' |}).
  set (k1 := fun (x' : str) (c' : caps) =>
               k0 x' (<[0 := Some (take (length x - length x') x)]> c')).
  set (tail := Seq (Star true Space) (Group 1 (Plus true Digit))).
  set (K := fun (x1 : str) (c1 : caps) => m I tail x1 c1 k1).
  assert (Hk1 : forall y d, k1 y d <> None) by done.
  assert (HK : forall x1,
    K x1 (replicate 2 None) =
    match digits_after x1 with
    | Some (w, rest) =>
        Some {| groups_of := [ Some (take (length x - length rest) x); Some w ];
                rest_of := rest |}
    | None => None
    end).
  { intros x1. unfold K, tail. rewrite m_blanks_digits by done.
    by destruct (digits_after x1) as [[w rest]|]. }
  assert (Hopt : forall l,
    m I (Seq (Lits l) (Seq (Opt (Lit "s")) (Lit ":"))) x (replicate 2 None) K
    = match label_opt_digits l "s" ":" x with
      | Some (w, rest) =>
          Some {| groups_of := [ Some (take (length x - length rest) x); Some w ];
                  rest_of := rest |}
      | None => None
      end).
  { intros l. unfold label_opt_digits.
    change (m I (Seq (Lits l) (Seq (Opt (Lit "s")) (Lit ":"))) x (replicate 2 None) K)
      with (m I (Lits l) x (replicate 2 None) (fun x1 c1 =>
              or_else (one (lit_eq I "s") x1 c1 (fun x2 c2 =>
                         one (lit_eq I ":") x2 c2 K))
                      (fun _ => one (lit_eq I ":") x1 c1 K))).
    rewrite m_Lits. destruct (lits_rest I l x) as [x1|]; [|done].
    destruct x1 as [|b x1]; [done|]. cbn [one].
    destruct (lit_eq I "s" b);
      [destruct x1 as [|b' x1]; [|cbn [one]; destruct (lit_eq I ":" b')]|].
    all: cbn [one or_else]; rewrite ?HK.
    all: try (destruct (digits_after x1) as [[w rest]|]; cbn [or_else]; [done|]).
    all: destruct (lit_eq I ":" b); rewrite ?HK; done. }
  change (or_else
            (m I (Seq (Lits (s "Story Point")) (Seq (Opt (Lit "s")) (Lit ":")))
               x (replicate 2 None) K)
            (fun _ =>
             or_else
               (m I (Seq (Lits (s "Point")) (Seq (Opt (Lit "s")) (Lit ":")))
                  x (replicate 2 None) K)
               (fun _ => m I (Lits (s "SP:")) x (replicate 2 None) K))
          = match points_word x with
            | Some (w, rest) =>
                Some {| groups_of :=
                          [ Some (take (length x - length rest) x); Some w ];
                        rest_of := rest |}
            | None => None
            end).
  rewrite !Hopt, m_Lits. unfold points_word, label_digits.
  destruct (label_opt_digits (s "Story Point") "s" ":" x) as [[w rest]|]; [done|].
  destruct (label_opt_digits (s "Point") "s" ":" x) as [[w rest]|]; [done|].
  cbn [or_else]. destruct (lits_rest I (s "SP:") x) as [x1|]; [|done].
  apply HK.
Qed.

End PointsEval.

Section PointsLabel.

Lemma lower_app (x y : str) : lower (x ++ y) = lower x ++ lower y.
Proof. apply map_app. Qed.

Lemma lower_length (x : str) : length (lower x) = length x.
Proof. apply length_map. Qed.

(** A text that starts with one label does not start with a label that
    differs from it in the first [n] characters. *)
Lemma lits_rest_clash (l lab y : str) (n : nat) :
  take n (lower lab) <> take n (lower l) ->
  n <= length lab -> n <= length l ->
  lits_rest I l (lab ++ y) = None.
Proof.
  intros Hdiff Hlab Hl.
  destruct (lits_rest I l (lab ++ y)) as [x'|] eqn:Hr; [|done].
  apply lits_rest_Some in Hr as (lab' & Hx & Hlab').
  destruct Hdiff. apply (f_equal lower) in Hx. rewrite !lower_app in Hx.
  apply (f_equal (take n)) in Hx.
  rewrite !take_app_le in Hx by (rewrite lower_length; try lia;
    apply (f_equal length) in Hlab'; rewrite !lower_length in Hlab'; lia).
  by rewrite Hx, Hlab'.
Qed.

Lemma label_opt_digits_Some (l : str) (o e : ascii) (x w rest : str) :
  lower_char o <> lower_char e ->
  label_opt_digits l o e x = Some (w, rest) <->
  exists lab y,
    x = lab ++ y /\
    (lower lab = lower (l ++ [o; e]) \/ lower lab = lower (l ++ [e])) /\
    digits_after y = Some (w, rest).
Proof.
  intros Hoe. unfold label_opt_digits. split.
  - destruct (lits_rest I l x) as [x1|] eqn:Hl; [|done].
    apply lits_rest_Some in Hl as (lab & -> & Hlab).
    intros [H1|H2]%or_else_sound.
    + apply one_sound in H1 as (b & x2 & -> & Hb%lit_eq_I & H1).
      apply one_sound in H1 as (b' & x3 & -> & Hb'%lit_eq_I & H1).
      exists (lab ++ [b; b']), x3. split; [by rewrite <- app_assoc|].
      split; [|done]. left. rewrite !lower_app, Hlab. simpl. by rewrite Hb, Hb'.
    + apply one_sound in H2 as (b' & x3 & -> & Hb'%lit_eq_I & H2).
      exists (lab ++ [b']), x3. split; [by rewrite <- app_assoc|].
      split; [|done]. right. rewrite !lower_app, Hlab. simpl. by rewrite Hb'.
  - intros (lab & y & -> & [Hlab|Hlab] & Hd).
    + rewrite lower_app in Hlab.
      apply fmap_app_inv in Hlab as (lab0 & tl & Hl0 & Htl & ->).
      destruct tl as [|b [|b' [|? ?]]]; try done.
      simpl in Htl. injection Htl as Hb Hb'.
      assert (Hr : lits_rest I l ((lab0 ++ [b; b']) ++ y) = Some (b :: b' :: y)).
      { apply lits_rest_Some. exists lab0. by rewrite <- app_assoc. }
      rewrite Hr. cbn [one].
      assert (Hob : lit_eq I o b = true) by (by apply lit_eq_I).
      assert (Heb : lit_eq I e b' = true) by (by apply lit_eq_I).
      by rewrite Hob, Heb, Hd.
    + rewrite lower_app in Hlab.
      apply fmap_app_inv in Hlab as (lab0 & tl & Hl0 & Htl & ->).
      destruct tl as [|b' [|? ?]]; try done.
      simpl in Htl. injection Htl as Hb'.
      assert (Hr : lits_rest I l ((lab0 ++ [b']) ++ y) = Some (b' :: y)).
      { apply lits_rest_Some. exists lab0. by rewrite <- app_assoc. }
      rewrite Hr. cbn [one].
      assert (Hob : lit_eq I o b' = false).
      { destruct (lit_eq I o b') eqn:Hob; [|done].
        apply lit_eq_I in Hob. congruence. }
      assert (Heb : lit_eq I e b' = true) by (by apply lit_eq_I).
      rewrite Hob. cbn [or_else]. by rewrite Heb.
Qed.

Lemma label_opt_digits_clash (l : str) (o e : ascii) (lab y : str) (n : nat) :
  take n (lower lab) <> take n (lower l) ->
  n <= length lab -> n <= length l ->
  label_opt_digits l o e (lab ++ y) = None.
Proof.
  intros Hdiff Hlab Hl. unfold label_opt_digits.
  by rewrite (lits_rest_clash l lab y n).
Qed.

Lemma label_length (lab lit : str) : lower lab = lit -> length lab = length lit.
Proof. intros <-. symmetry. apply lower_length. Qed.

Lemma s_not_colon : lower_char "s" <> lower_char ":".
Proof. done. Qed.

Lemma points_word_at (x d : str) :
  (exists rest, points_word x = Some (d, rest)) <-> points_value_at x d.
Proof.
  unfold points_word, points_value_at. split.
  - intros [rest Hw].
    assert (Hlab : exists lab y, x = lab ++ y /\ points_label lab /\
                                 digits_after y = Some (d, rest)).
    { unfold points_label.
      apply or_else_sound in Hw as [Hw|Hw];
        [|apply or_else_sound in Hw as [Hw|Hw]].
      - apply (label_opt_digits_Some _ _ _ _ _ _ s_not_colon) in Hw
          as (lab & y & -> & [Hl|Hl] & Hd); exists lab, y;
          (split; [done|split; [|done]]).
        + left. rewrite Hl. reflexivity.
        + right; left. rewrite Hl. reflexivity.
      - apply (label_opt_digits_Some _ _ _ _ _ _ s_not_colon) in Hw
          as (lab & y & -> & [Hl|Hl] & Hd); exists lab, y;
          (split; [done|split; [|done]]).
        + right; right; left. rewrite Hl. reflexivity.
        + right; right; right; left. rewrite Hl. reflexivity.
      - unfold label_digits in Hw.
        destruct (lits_rest I (s "SP:") x) as [x1|] eqn:Hl; [|done].
        apply lits_rest_Some in Hl as (lab & -> & Hl).
        exists lab, x1. split; [done|split; [|done]].
        right; right; right; right. rewrite Hl. reflexivity. }
    destruct Hlab as (lab & y & -> & Hlab & Hd).
    apply digits_after_Some in Hd as (ws & -> & Hrest).
    by exists lab, ws, rest.
  - intros (lab & ws & rest & -> & Hlab & Hws & Hrest). exists rest.
    assert (Hd : digits_after (ws ++ d ++ rest) = Some (d, rest)).
    { apply digits_after_Some. by exists ws. }
    destruct Hlab as [Hl|[Hl|[Hl|[Hl|Hl]]]].
    + assert (H1 : label_opt_digits (s "Story Point") "s" ":"
                     (lab ++ ws ++ d ++ rest) = Some (d, rest)).
      { apply (label_opt_digits_Some _ _ _ _ _ _ s_not_colon). exists lab, (ws ++ d ++ rest).
        split; [done|]. split; [|done]. left. by rewrite Hl. }
      by rewrite H1.
    + assert (H1 : label_opt_digits (s "Story Point") "s" ":"
                     (lab ++ ws ++ d ++ rest) = Some (d, rest)).
      { apply (label_opt_digits_Some _ _ _ _ _ _ s_not_colon). exists lab, (ws ++ d ++ rest).
        split; [done|]. split; [|done]. right. by rewrite Hl. }
      by rewrite H1.
    + rewrite (label_opt_digits_clash (s "Story Point") _ _ lab _ 1);
        [|by rewrite Hl|rewrite (label_length _ _ Hl); vm_compute; lia
         |vm_compute; lia].
      cbn [or_else].
      assert (H2 : label_opt_digits (s "Point") "s" ":"
                     (lab ++ ws ++ d ++ rest) = Some (d, rest)).
      { apply (label_opt_digits_Some _ _ _ _ _ _ s_not_colon). exists lab, (ws ++ d ++ rest).
        split; [done|]. split; [|done]. left. by rewrite Hl. }
      by rewrite H2.
    + rewrite (label_opt_digits_clash (s "Story Point") _ _ lab _ 1);
        [|by rewrite Hl|rewrite (label_length _ _ Hl); vm_compute; lia
         |vm_compute; lia].
      cbn [or_else].
      assert (H2 : label_opt_digits (s "Point") "s" ":"
                     (lab ++ ws ++ d ++ rest) = Some (d, rest)).
      { apply (label_opt_digits_Some _ _ _ _ _ _ s_not_colon). exists lab, (ws ++ d ++ rest).
        split; [done|]. split; [|done]. right. by rewrite Hl. }
      by rewrite H2.
    + rewrite (label_opt_digits_clash (s "Story Point") _ _ lab _ 2);
        [|by rewrite Hl|rewrite (label_length _ _ Hl); vm_compute; lia
         |vm_compute; lia].
      rewrite (label_opt_digits_clash (s "Point") _ _ lab _ 1);
        [|by rewrite Hl|rewrite (label_length _ _ Hl); vm_compute; lia
         |vm_compute; lia].
      cbn [or_else]. unfold label_digits.
      assert (H3 : lits_rest I (s "SP:") (lab ++ ws ++ d ++ rest)
                   = Some (ws ++ d ++ rest)).
      { apply lits_rest_Some. exists lab. split; [done|]. by rewrite Hl. }
      by rewrite H3.
Qed.

(** A match of the story points pattern is a label with its number. *)
Lemma match_here_points_value (x : str) :
  (forall mo, match_here I points x = Some mo ->
     exists d, group mo 1 = Some d /\ points_value_at x d) /\
  (forall d, points_value_at x d ->
     exists mo, match_here I points x = Some mo /\ group mo 1 = Some d).
Proof.
  rewrite match_here_points. split.
  - intros mo Hmo.
    destruct (points_word x) as [[d rest]|] eqn:Hw; [|done].
    injection Hmo as <-. exists d. split; [done|].
    apply points_word_at. eauto.
  - intros d [rest ->]%points_word_at. eauto.
Qed.

Lemma points_digits_first (before x d : str) :
  points_value_at x d ->
  (forall b1 b2 d', before = b1 ++ b2 -> b2 <> [] ->
                    ~ points_value_at (b2 ++ x) d') ->
  points_digits (before ++ x) = Some d.
Proof.
  intros Hat Hfirst. unfold points_digits.
  destruct (proj2 (match_here_points_value x) d Hat) as (mo & Hmo & Hg).
  assert (Hs : search I points (before ++ x) = Some mo).
  { apply search_Some. exists before, x. split; [done|]. split; [done|].
    intros b1 b2 Hb Hb2.
    destruct (match_here I points (b2 ++ x)) as [mo'|] eqn:Hmo'; [|done].
    destruct (proj1 (match_here_points_value (b2 ++ x)) mo' Hmo')
      as (d' & _ & Hat').
    destruct (Hfirst b1 b2 d' Hb Hb2 Hat'). }
  by rewrite Hs, Hg.
Qed.

Lemma story_points_of_digits (text : str) :
  story_points_of text = int_value <$> points_digits text.
Proof.
  unfold story_points_of, points_digits.
  by destruct (search I points text).
Qed.

Lemma story_points_first (before x d : str) :
  points_value_at x d ->
  (forall b1 b2 d', before = b1 ++ b2 -> b2 <> [] ->
                    ~ points_value_at (b2 ++ x) d') ->
  story_points_of (before ++ x) = Some (int_value d).
Proof.
  intros Hat Hfirst.
  by rewrite story_points_of_digits, (points_digits_first before x d).
Qed.

Lemma story_points_absent (block : str) :
  (forall before x d, block = before ++ x -> ~ points_value_at x d) ->
  story_points_of block = None.
Proof.
  intros Hnone. unfold story_points_of.
  assert (Hs : search I points block = None); [|by rewrite Hs].
  apply search_None. intros before x ->.
  destruct (match_here I points x) as [mo|] eqn:Hmo; [|done].
  destruct (proj1 (match_here_points_value x) mo Hmo) as (d & _ & Hat).
  destruct (Hnone before x d eq_refl Hat).
Qed.

End PointsLabel.

(** * Further properties: numbers, sections and the application *)

Section NumberFacts.

Lemma s_chars (lit : string) : s lit = list_ascii_of_string lit.
Proof. reflexivity. Qed.

(** The digits that print a number write that number. *)
Lemma digits_of_uint (d : Decimal.uint) (acc : nat) :
  fold_left (fun acc a => 10 * acc + digit_val a)%Z
    (list_ascii_of_string (NilEmpty.string_of_uint d)) (Z.of_nat acc)
  = Z.of_nat (Nat.of_uint_acc d acc) /\
  forallb isdigit (list_ascii_of_string (NilEmpty.string_of_uint d)) = true.
Proof.
  revert acc. induction d as [|d IH|d IH|d IH|d IH|d IH|d IH|d IH|d IH|d IH|d IH];
    intros acc; [done|..].
  all: cbn [NilEmpty.string_of_uint list_ascii_of_string fold_left forallb
              Nat.of_uint_acc].
  all: rewrite Nat.tail_mul_spec.
  all: destruct (IH (10 * acc)) as [_ Hdig].
  all: split; [|by rewrite Hdig].
  all: match goal with
       | |- _ = Z.of_nat (Nat.of_uint_acc _ ?n) =>
           rewrite <- (proj1 (IH n)); f_equal; vm_compute digit_val; lia
       end.
Qed.

Lemma to_uint_nonnil (n : nat) : Nat.to_uint n <> Decimal.Nil.
Proof.
  rewrite <- (DecimalNat.Unsigned.of_to n) at 1.
  rewrite DecimalNat.Unsigned.to_of. apply DecimalFacts.unorm_nonnil.
Qed.

Lemma str_of_nat_digits (n : nat) :
  str_of_nat n <> [] /\ forallb isdigit (str_of_nat n) = true /\
  int_value (str_of_nat n) = Z.of_nat n.
Proof.
  unfold str_of_nat. rewrite s_chars.
  destruct (digits_of_uint (Nat.to_uint n) 0) as [Hval Hdig].
  split; [|split; [done|]].
  - pose proof (to_uint_nonnil n). by destruct (Nat.to_uint n).
  - unfold int_value. change 0%Z with (Z.of_nat 0). rewrite Hval.
    f_equal. apply DecimalNat.Unsigned.of_to.
Qed.

(** [int(str(n))] is [n], as far as [int()] converts. *)
Lemma int_str_of_nat (n : nat) :
  int (str_of_nat n) =
  if (max_str_digits <? length (str_of_nat n))%nat then Raise ValueError
  else Ok (Z.of_nat n).
Proof.
  destruct (str_of_nat_digits n) as (Hne & Hdig & Hval).
  by rewrite int_digits, Hval.
Qed.

Lemma int_value_zeros (k : nat) (d : str) :
  int_value (replicate k "0"%char ++ d) = int_value d.
Proof.
  unfold int_value. rewrite fold_left_app. f_equal.
  induction k as [|k IH]; [done|]. simpl. exact IH.
Qed.

Lemma fmt_03d_digits (n : nat) :
  length (fmt_03d n) = 3 `max` length (str_of_nat n) /\
  forallb isdigit (fmt_03d n) = true /\
  int_value (fmt_03d n) = Z.of_nat n.
Proof.
  destruct (str_of_nat_digits n) as (Hne & Hdig & Hval).
  split; [|split].
  - unfold fmt_03d. rewrite length_app, length_replicate. lia.
  - unfold fmt_03d. rewrite forallb_app, Hdig, andb_true_r.
    induction (3 - length (str_of_nat n)) as [|k IH]; [done|]. exact IH.
  - unfold fmt_03d. by rewrite int_value_zeros, Hval.
Qed.

(** The number of a story reads back as its position. *)
Lemma int_fmt_03d (n : nat) :
  int (fmt_03d n) =
  if (max_str_digits <? length (fmt_03d n))%nat then Raise ValueError
  else Ok (Z.of_nat n).
Proof.
  destruct (fmt_03d_digits n) as (Hlen & Hdig & Hval).
  rewrite int_digits, Hval; [done| |done].
  intros Hnil. rewrite Hnil in Hlen. simpl in Hlen. lia.
Qed.

(** Two numbers with the same digits are the same number. *)
Lemma fmt_03d_inj (i j : nat) : fmt_03d i = fmt_03d j -> i = j.
Proof.
  intros Heq. destruct (fmt_03d_digits i) as (_ & _ & Hi).
  destruct (fmt_03d_digits j) as (_ & _ & Hj).
  rewrite Heq, Hj in Hi. lia.
Qed.

End NumberFacts.

Section SectionFacts.

Lemma strip_nonblank (x : str) :
  blank x = false ->
  strip x <> [] /\ starts_inked (strip x) /\ ends_inked (strip x).
Proof.
  intros Hx.
  assert (Hne : strip x <> []).
  { intros Hs. apply strip_nil in Hs. congruence. }
  split; [done|]. split.
  - by destruct (strip_inked x).
  - by destruct (strip_ends_inked x).
Qed.

Lemma ac_entry_no_criteria (i : nat) (st : UserStory) :
  acceptance_criteria st = [] -> ac_entry i st = [].
Proof. intros Hc. unfold ac_entry, acceptance_step. by rewrite Hc. Qed.

Lemma ac_body_no_criteria (stories : list UserStory) (f : nat -> nat) :
  Forall (fun st => acceptance_criteria st = []) stories ->
  concat (imap (fun k st => ac_entry (f k) st) stories) = [].
Proof.
  intros Hall. revert f. induction Hall as [|st stories Hst _ IH]; intros f; [done|].
  simpl. rewrite ac_entry_no_criteria by done. apply (IH (f ∘ S)).
Qed.

End SectionFacts.

Section AppFacts.

Lemma prd_text_step_append (text : str) (sec : PRDSection) :
  App.prd_text_step text sec = text ++ App.prd_text_step [] sec.
Proof. unfold App.prd_text_step. cbn [app]. by rewrite <- ?app_assoc. Qed.

Lemma write_step_prd_text (file : str) (sec : PRDSection) :
  App.write_step file sec = App.prd_text_step file sec.
Proof. unfold App.write_step, App.prd_text_step. by rewrite <- ?app_assoc. Qed.

Lemma fold_write_prd_text (prd : list PRDSection) (file : str) :
  fold_left App.write_step prd file = fold_left App.prd_text_step prd file.
Proof.
  revert file. induction prd as [|sec prd IH]; intros file; [done|].
  simpl. by rewrite IH, write_step_prd_text.
Qed.

Lemma pdf_lines_append (ls : list str) (story : list App.flowable) :
  fold_left (fun story line => story ++ [App.pdf_line line]) ls story
  = story ++ map App.pdf_line ls.
Proof.
  revert story. induction ls as [|l ls IH]; intros story; simpl.
  - by rewrite app_nil_r.
  - by rewrite IH, <- app_assoc.
Qed.

Lemma pdf_step_append (story : list App.flowable) (sec : PRDSection) :
  App.pdf_step story sec = story ++ pdf_section sec.
Proof.
  unfold App.pdf_step, pdf_section. rewrite pdf_lines_append.
  by rewrite <- !app_assoc.
Qed.

Lemma pdf_story_sections (prd : list PRDSection) (story : list App.flowable) :
  fold_left App.pdf_step prd story = story ++ concat (map pdf_section prd).
Proof.
  revert story. induction prd as [|sec prd IH]; intros story; simpl.
  - by rewrite app_nil_r.
  - by rewrite IH, pdf_step_append, <- app_assoc.
Qed.

Lemma pdf_lines_headings (ls : list str) :
  omap heading_of (map App.pdf_line ls) = [].
Proof.
  induction ls as [|l ls IH]; [done|].
  change (map App.pdf_line (l :: ls))
    with ([App.pdf_line l] ++ map App.pdf_line ls).
  rewrite omap_app, IH. unfold App.pdf_line.
  by destruct (truthy (strip l)).
Qed.

Lemma pdf_lines_bodies (ls : list str) :
  omap body_of (map App.pdf_line ls)
  = List.filter (fun l => truthy (strip l)) ls.
Proof.
  induction ls as [|l ls IH]; [done|].
  change (map App.pdf_line (l :: ls))
    with ([App.pdf_line l] ++ map App.pdf_line ls).
  rewrite omap_app, IH. cbn [List.filter]. unfold App.pdf_line.
  by destruct (truthy (strip l)).
Qed.

Lemma filter_concat {A} (p : A -> bool) (ls : list (list A)) :
  List.filter p (concat ls) = concat (map (List.filter p) ls).
Proof.
  induction ls as [|l ls IH]; [done|]. simpl.
  by rewrite List.filter_app, IH.
Qed.

Lemma generated_titles today stories info :
  map Generator.title (Generator.generate_prd today stories info) =
  [ s "Project Information"; s "Executive Summary"; s "Product Overview";
    s "User Stories and Requirements"; s "Functional Requirements";
    s "Acceptance Criteria"; s "Assumptions and Constraints";
    s "Success Metrics" ].
Proof. done. Qed.

Lemma parse_stories_inv (a : App.state) :
  app_inv a -> app_inv (App.parse_stories a).1.
Proof.
  intros [Hst Hprd]. unfold App.parse_stories.
  destruct (negb (truthy (strip (App.input_text a)))); [done|].
  rewrite parse_user_stories_blocks.
  destruct (existsb points_overflow _); [by split|].
  cbn [App.set_stories App.set_status App.current_stories].
  destruct (truthy (map story_of (_split_into_stories (App.input_text a)))).
  all: split; [|done]; cbn [fst App.current_stories App.set_status].
  all: apply Forall_fmap; eapply Forall_impl; [apply blocks_inked|].
  all: intros block Hink; split;
    [by apply story_title_inked|by apply story_description_inked].
Qed.

Lemma step_inv (a : App.state) (act : App.action) :
  app_inv a -> app_inv (App.step a act).1.
Proof.
  intros Hinv.
  destruct act as [|date today|filename io|filename io|filename read|
                   |text|text|t au rel];
    cbn [App.step].
  - by apply parse_stories_inv.
  - unfold App.generate_prd.
    destruct (App.current_stories a) as [|st stories] eqn:Hs; [exact Hinv|].
    destruct Hinv as [Hst Hprd]. rewrite Hs in Hst.
    cbn [truthy negb fst]. split; [cbn; by rewrite Hs|].
    right. cbn [App.current_prd App.set_status App.set_output App.set_prd
                App.current_stories].
    rewrite Hs. eexists _, (st :: stories), _. split; [done|reflexivity].
  - unfold App.export_pdf.
    destruct (negb (truthy (App.current_prd a))); [done|].
    destruct (truthy filename); [|done]. destruct io; exact Hinv.
  - unfold App.export_text.
    destruct (negb (truthy (App.current_prd a))); [done|].
    destruct (truthy filename); [|done]. destruct io; exact Hinv.
  - unfold App.load_file. destruct (truthy filename); [|done].
    destruct read; exact Hinv.
  - split; [constructor|by left].
  - exact Hinv.
  - exact Hinv.
  - exact Hinv.
Qed.

Lemma run_actions_inv (acts : list App.action) : app_inv (App.run_actions acts).
Proof.
  unfold App.run_actions.
  assert (Hinit : app_inv App.init) by (split; [constructor|by left]).
  revert Hinit. generalize App.init.
  induction acts as [|act acts IH]; intros a Ha; [done|].
  simpl. by apply IH, step_inv.
Qed.

End AppFacts.

(** * The limit of [int()] *)

Section PointsLimit.

Lemma points_overflow_digits (block : str) :
  points_overflow block = true <->
  exists d, points_digits block = Some d /\ max_str_digits < length d.
Proof.
  unfold points_overflow. destruct (points_digits block) as [d|].
  - rewrite Nat.ltb_lt. split; [eauto|]. by intros (d' & [= <-] & Hd).
  - split; [done|]. by intros (d' & Hd & _).
Qed.

(** The number that is converted is a string of digits of the block. *)
Lemma points_digits_shape (block d : str) :
  points_digits block = Some d ->
  d <> [] /\ forallb isdigit d = true /\
  exists before after, block = before ++ d ++ after.
Proof.
  unfold points_digits.
  destruct (search I points block) as [mo|] eqn:Hs; [|done].
  apply search_Some in Hs as (before & y & -> & Hmo & _).
  destruct (proj1 (match_here_points_value y) mo Hmo) as (w & Hg & Hat).
  rewrite Hg. intros [= <-].
  destruct Hat as (lab & ws & rest & -> & _ & _ & Hne & Hdig & _).
  split; [done|]. split; [done|].
  exists (before ++ lab ++ ws), rest. by rewrite <- !app_assoc.
Qed.

Lemma weight_app (l1 l2 : list str) : weight (l1 ++ l2) = weight l1 + weight l2.
Proof. induction l1 as [|l l1 IH]; simpl; [done|]. rewrite IH. lia. Qed.

Lemma weight_split (x : str) : weight (split nl x) = S (length x).
Proof.
  induction x as [|a x IH]; [done|]. simpl.
  destruct (Ascii.eqb a nl); simpl; [by rewrite IH|].
  destruct (split nl x) as [|l ls]; simpl in *; lia.
Qed.

Lemma strip_length (x : str) : length (strip x) <= length x.
Proof.
  destruct (strip_split x) as (w1 & w2 & Hx & _).
  rewrite Hx at 2. rewrite !length_app. lia.
Qed.

Lemma weight_strip (ls : list str) : weight (map strip ls) <= weight ls.
Proof.
  induction ls as [|l ls IH]; simpl; [done|].
  pose proof (strip_length l). lia.
Qed.

Lemma weight_join (r : list str) :
  r <> [] -> S (length (join [nl] r)) = weight r.
Proof.
  induction r as [|l r IH]; [done|]. intros _.
  destruct r as [|l' r]; [simpl; lia|].
  change (join [nl] (l :: l' :: r)) with (l ++ nl :: join [nl] (l' :: r)).
  rewrite length_app. cbn [length weight fold_right] in *.
  specialize (IH ltac:(done)). lia.
Qed.

Lemma weight_runs (ls cur : list str) :
  Forall (fun r => r <> [] /\ weight r <= weight cur + weight ls) (runs cur ls).
Proof.
  revert cur. induction ls as [|l ls IH]; intros cur; simpl.
  - destruct cur; simpl; [constructor|].
    constructor; [|constructor]. split; [done|]. simpl. lia.
  - destruct (truthy l).
    + eapply Forall_impl; [apply IH|]. intros r [Hr Hw]. split; [done|].
      rewrite weight_app in Hw. simpl in Hw. lia.
    + apply Forall_app. split.
      * destruct cur; simpl; [constructor|].
        constructor; [|constructor]. split; [done|]. simpl. lia.
      * eapply Forall_impl; [apply IH|]. intros r [Hr Hw]. split; [done|].
        simpl in Hw. lia.
Qed.

(** A block is not longer than its text. *)
Lemma block_length (text : str) :
  Forall (fun block => length block <= length text) (_split_into_stories text).
Proof.
  rewrite split_into_stories_runs. apply Forall_fmap.
  eapply Forall_impl; [apply weight_runs|].
  intros r [Hr Hw]. simpl in *.
  pose proof (weight_join r Hr). pose proof (weight_strip (split nl text)).
  rewrite weight_split in *. lia.
Qed.

Lemma short_text_no_overflow (text : str) :
  length text <= max_str_digits ->
  existsb points_overflow (_split_into_stories text) = false.
Proof.
  intros Hlen. apply existsb_false.
  eapply Forall_impl; [apply block_length|].
  intros block Hb. simpl in Hb.
  destruct (points_overflow block) eqn:Hov; [|done].
  apply points_overflow_digits in Hov as (d & Hd & Hlong).
  apply points_digits_shape in Hd as (_ & _ & before & after & ->).
  rewrite !length_app in Hb. lia.
Qed.

End PointsLimit.


(** C1, as the code has it: the one record of the Gherkin example has the
    title [User Story: to run suites], the action being all the text
    between [I want ] and [ so that], and the description without the
    final period. *)
Theorem gherkin_example_record :
  parse_user_stories gherkin_example =
  Ok [ {| Parser.title := s "User Story: to run suites";
          description :=
            s "As a tester, I want to run suites so that bugs are caught early";
          acceptance_criteria := [];
          priority := s "Medium";
          story_points := None |} ].
Proof. vm_compute. reflexivity. Qed.

(** C1 as stated fails: the title of the record is not
    [User Story: run suites]. *)
Lemma gherkin_example_title_not_run_suites :
  ~ exists r,
      parse_user_stories gherkin_example = Ok [r] /\
      Parser.title r = s "User Story: run suites" /\
      description r =
        s "As a tester, I want to run suites so that bugs are caught early".
Proof.
  intros (r & Hr & Ht & _). vm_compute in Hr.
  injection Hr as <-. vm_compute in Ht. discriminate Ht.
Qed.

(** C2, as the code has it: the labelled block runs to the end of the
    story block, so the line [Given X] is one of its criteria, bullets
    kept; the same line then gives its remainder [X], after them. *)
Theorem criteria_example_record :
  parse_user_stories criteria_example =
  Ok [ {| Parser.title := s "Acceptance Criteria:";
          description := criteria_example;
          acceptance_criteria := [ s "- A"; s "- B"; s "Given X"; s "X" ];
          priority := s "Medium";
          story_points := None |} ].
Proof. vm_compute. reflexivity. Qed.

(** C2 as stated fails: the criteria are not [- A], [- B], [X]. *)
Lemma criteria_example_not_three :
  ~ exists r,
      parse_user_stories criteria_example = Ok [r] /\
      acceptance_criteria r = [ s "- A"; s "- B"; s "X" ].
Proof.
  intros (r & Hr & Hc). vm_compute in Hr.
  injection Hr as <-. vm_compute in Hc. discriminate Hc.
Qed.

(** C3, as the code has it.  Every record comes from one block.  When
    the block has no Gherkin match its title is the first line if that
    has at most 100 characters, and else the first 100 characters of the
    line followed by three periods, 103 characters in all.  When the block
    has a Gherkin match the title is [User Story: ] and the action, of any
    length.  This holds of the records of every text for which the parser
    returns; it returns unless [int()] refuses the story points number of
    a block. *)
Theorem title_of_each_record :
  (forall text,
     match parse_user_stories text with
     | Ok rs =>
         Forall2 (fun block r =>
           _parse_single_story block = Ok (Some r) /\
           match search I gherkin block with
           | Some mo => Parser.title r = s "User Story: " ++ fmt_group (group mo 2)
           | None =>
               length (Parser.title r) <= 103 /\
               Parser.title r =
                 if (100 <? length (first_line block))%nat
                 then take 100 (first_line block) ++ s "..."
                 else first_line block
           end)
          (_split_into_stories text) rs
     | Raise e =>
         e = ValueError /\
         existsb points_overflow (_split_into_stories text) = true
     end) /\
  (exists r, parse_user_stories long_gherkin = Ok [r] /\
             length (Parser.title r) = 132).
Proof.
  split.
  - intros text. rewrite parse_user_stories_blocks.
    destruct (existsb points_overflow (_split_into_stories text)) eqn:Hov;
      [done|].
    eapply Forall2_impl; [by apply parsed_blocks|].
    intros block r Hr. split; [done|].
    apply parsed_story_of in Hr as ->.
    pose proof (story_title_length block) as Hlen.
    unfold story_of, story_title in *. cbn [Parser.title].
    destruct (search I gherkin block); [done|]. split; [by apply Hlen|done].
  - eexists. split; [vm_compute; reflexivity|]. vm_compute. reflexivity.
Qed.

(** C3 as stated fails: the title of the record of a line of 101
    characters has 103 characters. *)
Lemma long_line_title_exceeds_100 :
  exists r, parse_user_stories long_line = Ok [r] /\
            Parser.title r = replicate 100 "a"%char ++ s "..." /\
            ~ length (Parser.title r) <= 100.
Proof.
  eexists. split; [vm_compute; reflexivity|].
  split; [vm_compute; reflexivity|]. vm_compute. lia.
Qed.

(** C7: the records come in the order of the blocks, and the blocks in
    the order of the lines.  Each block is parsed on its own; over any
    list of blocks the loop returns the records of the blocks that have
    one, in the order of the list.  The blocks of a text are its maximal
    runs of lines that are not blank, in the order of the lines; so the
    blocks of two texts with an empty line between them are the blocks of
    the first followed by the blocks of the second, and their records are
    the records of the first followed by the records of the second.  Each
    block of a text has a record, so the record at a position is the
    record of the block at that position.  The two stories [Zeta] and
    [Alpha] give their records in the order in which they are written. *)
Theorem records_in_block_order :
  (forall block,
     _parse_single_story block =
     if points_overflow block then Raise ValueError else Ok (record_of block)) /\
  (forall blocks,
     fold_left parse_step blocks (Ok []) =
     if existsb points_overflow blocks then Raise ValueError
     else Ok (omap record_of blocks)) /\
  (forall text,
     _split_into_stories text
     = map (join [nl]) (runs [] (map strip (split nl text)))) /\
  (forall t1 t2,
     _split_into_stories (t1 ++ [nl; nl] ++ t2)
     = _split_into_stories t1 ++ _split_into_stories t2) /\
  (forall t1 t2,
     parse_user_stories (t1 ++ [nl; nl] ++ t2) =
     bind (parse_user_stories t1) (fun rs1 =>
     bind (parse_user_stories t2) (fun rs2 => Ok (rs1 ++ rs2)))) /\
  (forall text,
     match parse_user_stories text with
     | Ok rs =>
         rs = omap record_of (_split_into_stories text) /\
         Forall2 (fun block r => _parse_single_story block = Ok (Some r))
           (_split_into_stories text) rs
     | Raise e =>
         e = ValueError /\
         existsb points_overflow (_split_into_stories text) = true
     end) /\
  parse_user_stories (text [ s "Zeta"; s ""; s "Alpha" ])
    = Ok [ story_of (s "Zeta"); story_of (s "Alpha") ] /\
  parse_user_stories (text [ s "Alpha"; s ""; s "Zeta" ])
    = Ok [ story_of (s "Alpha"); story_of (s "Zeta") ].
Proof.
  split; [apply parse_single_story_fields|].
  split; [intros blocks; apply (parse_blocks blocks [])|].
  split; [apply split_into_stories_runs|].
  split; [apply blocks_app|].
  split; [|split; [|split; by vm_compute]].
  - intros t1 t2. rewrite !parse_user_stories_blocks, blocks_app, existsb_app.
    destruct (existsb points_overflow (_split_into_stories t1)); [done|].
    destruct (existsb points_overflow (_split_into_stories t2)); [done|].
    simpl. by rewrite map_app.
  - intros text. rewrite parse_user_stories_blocks.
    destruct (existsb points_overflow (_split_into_stories text)) eqn:Hov;
      [done|].
    split; [by rewrite records_of_blocks|by apply parsed_blocks].
Qed.

(** C9, as the code has it.  [parse_user_stories] returns a list of
    records unless, in some block, the number after the first story
    points label has more digits than [int()] converts: then it raises
    [ValueError], and it raises nothing else.  A text of no more
    characters than this limit always gives a list of records.  For every
    block [_parse_single_story] raises this [ValueError], or returns no
    record, or returns a record with a title and a description that are
    not empty; the number that it converts is a string of digits of the
    block, and is not empty: it is the number of the first position of
    the block where a story points label is followed, after optional
    blanks, by a number. *)
Theorem extraction_raises_only_on_long_points :
  (forall text,
     parse_user_stories text =
     if existsb points_overflow (_split_into_stories text)
     then Raise ValueError
     else Ok (omap record_of (_split_into_stories text))) /\
  (forall text,
     match parse_user_stories text with
     | Ok rs => Forall (fun r => Parser.title r <> [] /\ description r <> []) rs
     | Raise e =>
         e = ValueError /\
         Exists (fun block =>
           exists d, points_digits block = Some d /\ max_str_digits < length d)
           (_split_into_stories text)
     end) /\
  (forall text,
     length text <= max_str_digits ->
     exists rs, parse_user_stories text = Ok rs) /\
  (forall block,
     (_parse_single_story block = Raise ValueError /\
      points_overflow block = true) \/
     _parse_single_story block = Ok None \/
     exists r, _parse_single_story block = Ok (Some r) /\
               Parser.title r <> [] /\ description r <> []) /\
  (forall block d,
     points_digits block = Some d ->
     d <> [] /\ forallb isdigit d = true /\
     exists before after, block = before ++ d ++ after) /\
  (forall before x d,
     points_value_at x d ->
     (forall b1 b2 d', before = b1 ++ b2 -> b2 <> [] ->
                       ~ points_value_at (b2 ++ x) d') ->
     points_digits (before ++ x) = Some d) /\
  _parse_single_story [] = Ok None.
Proof.
  split; [|split; [|split; [|split; [|split; [|split]]]]].
  - intros text. by rewrite parse_user_stories_blocks, records_of_blocks.
  - intros text. rewrite parse_user_stories_blocks.
    destruct (existsb points_overflow (_split_into_stories text)) eqn:Hov.
    + split; [done|]. apply existsb_true in Hov.
      eapply Exists_impl; [exact Hov|].
      intros block Hb. by apply points_overflow_digits.
    + apply Forall_fmap. eapply Forall_impl; [apply blocks_inked|].
      intros block Hink. split.
      * by apply story_title_inked.
      * by apply story_description_inked.
  - intros text Hlen. rewrite parse_user_stories_blocks.
    rewrite (short_text_no_overflow text Hlen). eauto.
  - intros block. rewrite parse_single_story_fields.
    destruct (points_overflow block); [by left|]. right.
    destruct (story_title block) eqn:Ht; [by left|].
    destruct (story_description block) eqn:Hd; [by left|].
    right. eexists. split; [done|].
    unfold story_of. cbn [Parser.title description]. by rewrite Ht, Hd.
  - apply points_digits_shape.
  - apply points_digits_first.
  - vm_compute. reflexivity.
Qed.

(** C9 as stated fails: on the block [SP: ] followed by 4301 digits the
    parser raises. *)
Lemma overlong_points_raises :
  parse_user_stories overlong_points = Raise ValueError /\
  ~ exists rs, parse_user_stories overlong_points = Ok rs.
Proof.
  assert (Hr : parse_user_stories overlong_points = Raise ValueError).
  { vm_compute. reflexivity. }
  split; [done|]. intros [rs Hrs]. congruence.
Qed.

(** A text of 14 characters, and the block [SP: 12]. *)
Lemma extraction_raises_only_on_long_points_witness :
  (exists rs, parse_user_stories (s "As a user: 12.") = Ok rs) /\
  (s "12" <> [] /\ forallb isdigit (s "12") = true /\
   exists before after, s "SP: 12" = before ++ s "12" ++ after) /\
  points_digits ([] ++ s "SP: 12") = Some (s "12").
Proof.
  split; [|split].
  - apply (proj1 (proj2 (proj2 extraction_raises_only_on_long_points))).
    vm_compute. lia.
  - apply (proj1 (proj2 (proj2 (proj2 (proj2
             extraction_raises_only_on_long_points)))) (s "SP: 12")).
    reflexivity.
  - apply (proj1 (proj2 (proj2 (proj2 (proj2 (proj2
             extraction_raises_only_on_long_points)))))).
    + exists (s "SP:"), (s " "), [].
      split; [reflexivity|]. split; [do 4 right; reflexivity|].
      split; [reflexivity|]. split; [done|]. split; [reflexivity|done].
    + intros b1 b2 d' Hb Hb2. by destruct b1, b2.
Defined.

(** C6: a text and the same text with more blank lines, each put before
    the first line, after the last line or next to a blank line, have the
    same blocks and so the same records; no block is empty; and when the
    last line of a text is not blank, it is the last line of the last
    block. *)
Theorem blank_padding_ignored :
  (forall lines padded,
     padding lines padded ->
     _split_into_stories (join [nl] padded) = _split_into_stories (join [nl] lines) /\
     parse_user_stories (join [nl] padded) = parse_user_stories (join [nl] lines)) /\
  (forall text, Forall (fun block => block <> []) (_split_into_stories text)) /\
  (forall before l,
     blank l = false -> nl ∉ l ->
     exists blocks bl,
       _split_into_stories (join [nl] (before ++ [l]))
       = blocks ++ [join [nl] (bl ++ [strip l])]).
Proof.
  split; [|split].
  - intros lines padded Hpad.
    assert (Hblocks : _split_into_stories (join [nl] padded)
                      = _split_into_stories (join [nl] lines)).
    { induction Hpad as [|lines before b after _ IH Hb Hpos]; [done|].
      by rewrite blocks_insert_blank. }
    split; [done|]. unfold parse_user_stories. by rewrite Hblocks.
  - intros text. eapply Forall_impl; [apply blocks_inked|].
    intros block Hink ->. done.
  - intros before l Hl Hnl.
    rewrite split_into_stories_runs, runs_of_join.
    rewrite map_app, concat_app, map_app. cbn [map concat].
    rewrite app_nil_r.
    assert (Hsplit : split nl l = [l]).
    { clear Hl. induction l as [|a l IH]; [done|]. simpl.
      apply not_elem_of_cons in Hnl as [Ha Hnl].
      destruct (Ascii.eqb_spec a nl) as [->|_]; [done|]. by rewrite IH. }
    rewrite Hsplit. cbn [map].
    destruct (runs_snoc (strip l) (map strip (concat (map (split nl) before))) [])
      as (blocks & bl & ->).
    { by rewrite truthy_strip, Hl. }
    exists (map (join [nl]) blocks), bl.
    by rewrite map_app.
Qed.

(** Two stories with one blank line between them, and with three more
    blank lines: before the first story, next to the blank line, after
    the second story; and a text whose last line is not blank. *)
Lemma blank_padding_ignored_witness :
  parse_user_stories
    (join [nl] [ s "  "; s "first story"; s " "; s ""; s "second story"; s "" ])
  = parse_user_stories (join [nl] [ s "first story"; s ""; s "second story" ]) /\
  exists blocks bl,
    _split_into_stories (join [nl] ([ s "first story"; s "" ] ++ [ s " second story" ]))
    = blocks ++ [join [nl] (bl ++ [strip (s " second story")])].
Proof.
  split.
  - apply (proj1 blank_padding_ignored).
    apply (padding_insert _ [] (s "  ")
             [ s "first story"; s " "; s ""; s "second story"; s "" ]);
      [|reflexivity|by left].
    apply (padding_insert _ [ s "first story" ] (s " ")
             [ s ""; s "second story"; s "" ]);
      [|reflexivity|right; right; right; by exists (s "")].
    apply (padding_insert _ [ s "first story"; s ""; s "second story" ] (s "") []);
      [|reflexivity|right; by left].
    apply padding_refl.
  - apply (proj2 (proj2 blank_padding_ignored)); [reflexivity|].
    vm_compute. intros Hin. repeat (apply elem_of_cons in Hin as [Hin|Hin];
      [discriminate Hin|]). by apply elem_of_nil in Hin.
Defined.



(** C8: the priority of a record is the capitalized word of the first
    position of its block where a priority label, [Priority:] or [Prio:]
    in any case, is followed after optional blanks by a word; labels
    further on are not used.  Without such a position the priority is
    [Medium]; without such a position and without a story points label
    followed by a digit, the priority is [Medium] and the story points are
    not set.  [capitalize] puts the first character in upper case and the
    others in lower case: a letter becomes the letter of the other case,
    32 code points away, the sharp s at the front becomes [Ss], any other
    character stays.  The two letters whose upper case is above U+00FF
    are left out.  [HIGH] becomes [High], and a word with accents,
    U+00E9 L E V U+00C9, becomes U+00C9 l e v U+00E9. *)
Theorem priority_of_first_label :
  (forall block r,
     _parse_single_story block = Ok (Some r) ->
     (forall before x w,
        block = before ++ x -> priority_at x w ->
        (forall b1 b2 w', before = b1 ++ b2 -> b2 <> [] ->
                          ~ priority_at (b2 ++ x) w') ->
        from_option upper_outside false (head w) = false ->
        priority r = capitalize w) /\
     ((forall before x w, block = before ++ x -> ~ priority_at x w) ->
      priority r = s "Medium") /\
     ((forall before x w, block = before ++ x -> ~ priority_at x w) ->
      (forall before x, block = before ++ x -> ~ points_at x) ->
      priority r = s "Medium" /\ story_points r = None)) /\
  (forall a w,
     upper_outside a = false ->
     capitalize (a :: w) =
       (if Ascii.eqb a sharp_s then [ "S"%char; "s"%char ] else [upper_char a])
       ++ map lower_char w /\
     islower (upper_char a) = false /\
     forallb (fun b => negb (isupper b)) (map lower_char w) = true /\
     code (upper_char a) = (if islower a then code a - 32 else code a)%N) /\
  (forall b,
     code (lower_char b) = (if isupper b then code b + 32 else code b)%N) /\
  capitalize (s "HIGH") = s "High" /\
  capitalize (ascii_of_N 233 :: s "LEV" ++ [ascii_of_N 201])
    = ascii_of_N 201 :: s "lev" ++ [ascii_of_N 233] /\
  (exists r, parse_user_stories two_priorities = Ok [r] /\
             priority r = s "High").
Proof.
  split; [|split; [|split; [|split; [by vm_compute|split; [by vm_compute|]]]]].
  - intros block r ->%parsed_story_of.
    unfold story_of. cbn [priority story_points]. split; [|split].
    + intros before x w -> Hat Hfirst _. by apply story_priority_first.
    + intros Hnone. unfold story_priority.
      by rewrite story_priority_none.
    + intros Hnone Hnopoints. unfold story_priority, story_points_of.
      by rewrite story_priority_none, story_points_none.
  - intros a w _. split; [done|]. split; [apply upper_char_not_lower|].
    split; [|apply case_of_letters].
    induction w as [|b w IH]; [done|]. simpl.
    by rewrite lower_char_not_upper, IH.
  - intros b. apply case_of_letters.
  - eexists. split; vm_compute; reflexivity.
Qed.

(** The block [Priority: HIGH], a new line, [Prio: low]: the label at the
    start of the block is the first one, and its word is [HIGH]; the
    block [abc], which is too short for a label; and the word [high]. *)
Lemma priority_of_first_label_witness :
  let block := text [ s "Priority: HIGH"; s "Prio: low" ] in
  priority (story_of block) = capitalize (s "HIGH") /\
  priority (story_of (s "abc")) = s "Medium" /\
  (priority (story_of (s "abc")) = s "Medium" /\
   story_points (story_of (s "abc")) = None) /\
  capitalize (s "high") = [upper_char "h"] ++ map lower_char (s "igh").
Proof.
  intros block.
  assert (Hshort : forall before x lab y : str,
            s "abc" = before ++ x -> x = lab ++ y -> length lab <= 3).
  { intros before x lab y Hx ->. apply (f_equal length) in Hx.
    rewrite !length_app in Hx. change (length (s "abc")) with 3 in Hx. lia. }
  assert (Hnone : forall before x w,
            s "abc" = before ++ x -> ~ priority_at x w).
  { intros before x w Hx (lab & ws & rest & Hlab & [Hl|Hl] & _).
    all: pose proof (Hshort _ _ _ _ Hx Hlab) as Hlen.
    all: apply (f_equal length) in Hl; unfold lower in Hl.
    all: rewrite length_map in Hl.
    all: set (n := length (s _)) in Hl; vm_compute in n; lia. }
  split; [|split; [|split]].
  - apply (proj1 (proj1 priority_of_first_label block (story_of block) eq_refl)
             [] block (s "HIGH")).
    + reflexivity.
    + exists (s "Priority:"), (s " "), (nl :: s "Prio: low").
      split; [reflexivity|]. split; [left; reflexivity|].
      split; [reflexivity|]. split; [by vm_compute|].
      split; reflexivity.
    + intros b1 b2 w' Hb Hb2. symmetry in Hb.
      apply app_eq_nil in Hb as [_ ->]. done.
    + reflexivity.
  - by apply (proj1 (proj2 (proj1 priority_of_first_label (s "abc")
                              (story_of (s "abc")) eq_refl))).
  - apply (proj2 (proj2 (proj1 priority_of_first_label (s "abc")
                           (story_of (s "abc")) eq_refl))); [done|].
    intros before x Hx (lab & ws & a & rest & Hlab & Hl & _).
    apply (f_equal length) in Hx. rewrite Hlab, !length_app in Hx.
    change (length (s "abc")) with 3 in Hx. simpl in Hx.
    destruct Hl as [Hl|[Hl|[Hl|[Hl|Hl]]]].
    all: apply (f_equal length) in Hl; unfold lower in Hl.
    all: rewrite length_map in Hl.
    all: set (n := length (s _)) in Hl; vm_compute in n; lia.
  - apply (proj1 (proj1 (proj2 priority_of_first_label) "h"%char (s "igh")
                    eq_refl)).
Defined.

(** C5: sections 4, 5 and 6 are their first line followed by one entry for
    each story in input order; the entry of the story at position [k]
    (from 0) carries the number [k + 1] in all three, printed by the same
    [{i:03d}]; a story without criteria has the empty entry in section 6
    and keeps its entries in sections 4 and 5, and the numbers of the
    stories after it are those of their positions.  What [{i:03d}] prints
    is the number [i] in decimal digits, three of them or more when [i]
    needs more, so [001], [012], [123], [1000]; the number of a criterion
    is printed in decimal digits; two positions never print the same
    number.  For the three stories of [numbered_stories], the second
    without criteria, section 6 has the entries [US001] with [AC001.1] and
    [US003] with [AC003.1] and [AC003.2], and sections 4 and 5 have the
    entries 001, 002 and 003. *)
Theorem numbering_by_position :
  (forall stories,
     _generate_user_stories_section stories =
       strip (us_header ++ concat (imap (fun k st => us_entry (S k) st) stories)) /\
     _generate_functional_requirements stories =
       strip (fr_header ++ concat (imap (fun k st => fr_entry (S k) st) stories)) /\
     _generate_acceptance_criteria stories =
       strip (ac_header ++ concat (imap (fun k st => ac_entry (S k) st) stories))) /\
  (forall i st,
     us_entry i st =
       s "US" ++ fmt_03d i ++ s ": " ++ Parser.title st ++ [nl]
       ++ s "Description: " ++ description st ++ [nl]
       ++ s "Priority: " ++ priority st ++ [nl]
       ++ (if truthy_points (story_points st)
           then s "Story Points: " ++ fmt_points (story_points st) ++ [nl]
           else [])
       ++ [nl]) /\
  (forall i st,
     fr_entry i st =
       s "FR" ++ fmt_03d i ++ s ": " ++ Parser.title st ++ [nl]
       ++ s "The system shall implement functionality to: "
       ++ description st ++ [nl]
       ++ s "Priority Level: " ++ priority st ++ [nl; nl]) /\
  (forall i st,
     ac_entry i st =
       match acceptance_criteria st with
       | [] => []
       | _ :: _ =>
           s "US" ++ fmt_03d i ++ s " - " ++ Parser.title st ++ s ":" ++ [nl]
           ++ concat (imap (fun j criteria =>
                        s "  AC" ++ fmt_03d i ++ s "." ++ str_of_nat (S j)
                        ++ s ": " ++ criteria ++ [nl])
                      (acceptance_criteria st))
           ++ [nl]
       end) /\
  (forall before st after,
     acceptance_criteria st = [] ->
     _generate_acceptance_criteria (before ++ st :: after) =
       strip (ac_header
              ++ concat (imap (fun k st' => ac_entry (S k) st') before)
              ++ concat (imap (fun k st' => ac_entry (length before + 2 + k) st')
                           after)) /\
     _generate_user_stories_section (before ++ st :: after) =
       strip (us_header
              ++ concat (imap (fun k st' => us_entry (S k) st') before)
              ++ us_entry (length before + 1) st
              ++ concat (imap (fun k st' => us_entry (length before + 2 + k) st')
                           after)) /\
     _generate_functional_requirements (before ++ st :: after) =
       strip (fr_header
              ++ concat (imap (fun k st' => fr_entry (S k) st') before)
              ++ fr_entry (length before + 1) st
              ++ concat (imap (fun k st' => fr_entry (length before + 2 + k) st')
                           after))) /\
  (forall i,
     length (fmt_03d i) = 3 `max` length (str_of_nat i) /\
     forallb isdigit (fmt_03d i) = true /\
     int_value (fmt_03d i) = Z.of_nat i) /\
  (forall j,
     str_of_nat j <> [] /\ forallb isdigit (str_of_nat j) = true /\
     int_value (str_of_nat j) = Z.of_nat j) /\
  (forall i j, fmt_03d i = fmt_03d j -> i = j) /\
  (fmt_03d 1 = s "001" /\ fmt_03d 12 = s "012" /\ fmt_03d 123 = s "123" /\
   fmt_03d 1000 = s "1000") /\
  _generate_user_stories_section numbered_stories =
    text [ s "The following user stories define the core requirements for this product:";
           s "";
           s "US001: Log in";
           s "Description: Log in with a password";
           s "Priority: High";
           s "Story Points: 3";
           s "";
           s "US002: Log out";
           s "Description: Log out";
           s "Priority: Medium";
           s "";
           s "US003: Export";
           s "Description: Export the report";
           s "Priority: Low" ] /\
  _generate_functional_requirements numbered_stories =
    text [ s "Based on the user stories, the following functional requirements have been identified:";
           s "";
           s "FR001: Log in";
           s "The system shall implement functionality to: Log in with a password";
           s "Priority Level: High";
           s "";
           s "FR002: Log out";
           s "The system shall implement functionality to: Log out";
           s "Priority Level: Medium";
           s "";
           s "FR003: Export";
           s "The system shall implement functionality to: Export the report";
           s "Priority Level: Low" ] /\
  _generate_acceptance_criteria numbered_stories =
    text [ s "Acceptance criteria for each user story:";
           s "";
           s "US001 - Log in:";
           s "  AC001.1: The password is checked";
           s "";
           s "US003 - Export:";
           s "  AC003.1: A file is written";
           s "  AC003.2: The file is a PDF" ].
Proof.
  assert (Hsections : forall stories,
     _generate_user_stories_section stories =
       strip (us_header ++ concat (imap (fun k st => us_entry (S k) st) stories)) /\
     _generate_functional_requirements stories =
       strip (fr_header ++ concat (imap (fun k st => fr_entry (S k) st) stories)) /\
     _generate_acceptance_criteria stories =
       strip (ac_header ++ concat (imap (fun k st => ac_entry (S k) st) stories))).
  { intros stories.
    unfold _generate_user_stories_section, _generate_functional_requirements,
      _generate_acceptance_criteria.
    rewrite (section_body _ us_entry _ _ user_story_step_append).
    rewrite (section_body _ fr_entry _ _ functional_step_append).
    by rewrite (section_body _ ac_entry _ _ acceptance_step_append). }
  assert (Hac : forall i st,
     ac_entry i st =
       match acceptance_criteria st with
       | [] => []
       | _ :: _ =>
           s "US" ++ fmt_03d i ++ s " - " ++ Parser.title st ++ s ":" ++ [nl]
           ++ concat (imap (fun j criteria =>
                        s "  AC" ++ fmt_03d i ++ s "." ++ str_of_nat (S j)
                        ++ s ": " ++ criteria ++ [nl])
                      (acceptance_criteria st))
           ++ [nl]
       end).
  { intros i st. unfold ac_entry, acceptance_step.
    destruct (acceptance_criteria st) as [|c cs] eqn:Hc; [done|].
    cbn [truthy].
    rewrite (fold_left_append _ _ _ _ (criterion_step_append i)).
    rewrite (map_ext (criterion_step i [])
               (fun jc => criterion_step i [] (jc.1, jc.2))) by (by intros []).
    rewrite (map_enumerate (fun j c => criterion_step i [] (j, c))).
    unfold criterion_step. cbn [app]. by rewrite <- ?app_assoc. }
  split; [done|]. split.
  { intros i st. unfold us_entry, user_story_step. cbn [app].
    destruct (truthy_points (story_points st)); by rewrite <- ?app_assoc. }
  split.
  { intros i st. unfold fr_entry, functional_step. cbn [app].
    by rewrite <- ?app_assoc. }
  split; [done|].
  split; [|split; [apply fmt_03d_digits|split; [apply str_of_nat_digits|
    split; [apply fmt_03d_inj|split; [by vm_compute|by vm_compute]]]]].
  intros before st after Hnone.
  destruct (Hsections (before ++ st :: after)) as (-> & -> & ->).
  rewrite !imap_app, !concat_app. cbn [imap concat].
  rewrite (Hac _ st), Hnone. cbn [app].
  replace (length before + 0) with (length before) by lia.
  replace (length before + 1) with (S (length before)) by lia.
  assert (Hshift : forall (e : nat -> UserStory -> str) (l : list UserStory) n,
     imap ((fun k st' => e (S (n + k)) st') ∘ S) l
     = imap (fun k st' => e (n + 2 + k) st') l).
  { intros e l n. apply imap_ext. intros k x _. simpl. f_equal. lia. }
  rewrite !Hshift. by rewrite <- ?app_assoc.
Qed.

(** C10: the block [SP: 0] gives a record with story points 0; a story
    with story points 0 has the same entry in section 4 as the story
    without story points, an entry without a [Story Points:] line, and so
    the whole section is the same. *)
Theorem zero_points_not_shown :
  parse_user_stories (s "SP: 0") =
    Ok [ {| Parser.title := s "SP: 0"; description := s "SP: 0";
            acceptance_criteria := []; priority := s "Medium";
            story_points := Some 0%Z |} ] /\
  (forall content i st,
     story_points st = Some 0%Z ->
     user_story_step content (i, st) =
       content ++ s "US" ++ fmt_03d i ++ s ": " ++ Parser.title st ++ [nl]
       ++ s "Description: " ++ description st ++ [nl]
       ++ s "Priority: " ++ priority st ++ [nl] ++ [nl] /\
     user_story_step content (i, st) =
       user_story_step content (i, with_points None st)) /\
  (forall before st after,
     story_points st = Some 0%Z ->
     _generate_user_stories_section (before ++ st :: after) =
     _generate_user_stories_section (before ++ with_points None st :: after)).
Proof.
  split; [vm_compute; reflexivity|].
  assert (Hstep : forall content i st,
     story_points st = Some 0%Z ->
     user_story_step content (i, st) =
       user_story_step content (i, with_points None st)).
  { intros content i st Hp. unfold user_story_step. cbn. by rewrite Hp. }
  split.
  - intros content i st Hp. split; [|by apply Hstep].
    unfold user_story_step. rewrite Hp. cbn. by rewrite <- ?app_assoc.
  - intros before st after Hp. unfold _generate_user_stories_section.
    f_equal.
    match goal with |- fold_left _ _ ?c = _ => generalize c end.
    generalize 1.
    induction before as [|b before IH]; intros n content; cbn [app enumerate fold_left].
    + by rewrite Hstep.
    + apply IH.
Qed.

(** The record of the block [SP: 0] is a story with story points 0; its
    entry in section 4 has no [Story Points:] line, and the section is
    that of the story without story points. *)
Lemma zero_points_not_shown_witness :
  let st := {| Parser.title := s "SP: 0"; description := s "SP: 0";
               acceptance_criteria := []; priority := s "Medium";
               story_points := Some 0%Z |} in
  (user_story_step [] (1, st) =
     [] ++ s "US" ++ fmt_03d 1 ++ s ": " ++ Parser.title st ++ [nl]
     ++ s "Description: " ++ description st ++ [nl]
     ++ s "Priority: " ++ priority st ++ [nl] ++ [nl] /\
   user_story_step [] (1, st) = user_story_step [] (1, with_points None st)) /\
  _generate_user_stories_section ([] ++ st :: []) =
  _generate_user_stories_section ([] ++ with_points None st :: []).
Proof.
  intros st. split.
  - apply (proj1 (proj2 zero_points_not_shown) [] 1 st). reflexivity.
  - apply (proj2 (proj2 zero_points_not_shown) [] st []). reflexivity.
Defined.

(** The three stories of [numbered_stories], the second being the story
    without criteria: section 6 without the number 002 and with the number
    003, and the numbers of the seventh story. *)
Lemma numbering_by_position_witness :
  (_generate_acceptance_criteria ([login_story] ++ logout_story :: [export_story]) =
     text [ s "Acceptance criteria for each user story:";
            s "";
            s "US001 - Log in:";
            s "  AC001.1: The password is checked";
            s "";
            s "US003 - Export:";
            s "  AC003.1: A file is written";
            s "  AC003.2: The file is a PDF" ] /\
   _generate_user_stories_section ([login_story] ++ logout_story :: [export_story]) =
     strip (us_header ++ us_entry 1 login_story ++ us_entry 2 logout_story
            ++ us_entry 3 export_story) /\
   _generate_functional_requirements ([login_story] ++ logout_story :: [export_story]) =
     strip (fr_header ++ fr_entry 1 login_story ++ fr_entry 2 logout_story
            ++ fr_entry 3 export_story)) /\
  7 = 7.
Proof.
  destruct (proj1 (proj2 (proj2 (proj2 (proj2 numbering_by_position))))
              [login_story] logout_story [export_story] eq_refl)
    as (Hac & Hus & Hfr).
  split; [split; [|split]|].
  - rewrite Hac. vm_compute. reflexivity.
  - rewrite Hus. cbn [imap concat length Nat.add app]. by rewrite !app_nil_r.
  - rewrite Hfr. cbn [imap concat length Nat.add app]. by rewrite !app_nil_r.
  - apply (proj1 (proj2 (proj2 (proj2 (proj2 (proj2 (proj2 (proj2
             numbering_by_position)))))))). reflexivity.
Defined.

(** * Further properties: the records *)

Section RecordInvariants.

(** What holds of [story_of] holds of every record that is returned. *)
Lemma records_satisfy (P : UserStory -> Prop) :
  (forall block, P (story_of block)) ->
  (forall block,
     match _parse_single_story block with
     | Ok (Some r) => P r
     | _ => True
     end) /\
  (forall text,
     match parse_user_stories text with
     | Ok rs => Forall P rs
     | Raise e =>
         e = ValueError /\
         existsb points_overflow (_split_into_stories text) = true
     end).
Proof.
  intros HP. split.
  - intros block. rewrite parse_single_story_fields.
    destruct (points_overflow block); [done|]. by destruct (andb _ _).
  - intros text. rewrite parse_user_stories_blocks.
    destruct (existsb points_overflow (_split_into_stories text)); [done|].
    apply Forall_fmap, Forall_true. intros block. apply HP.
Qed.

End RecordInvariants.

(** X1: the title of a record has no newline, whatever the block: the
    first line of the block or its first 100 characters with the ellipsis,
    or the action of the Gherkin match, which cannot span lines.  The
    parser returns records unless [int()] refuses the story points number
    of a block. *)
Theorem title_is_one_line :
  (forall block,
     match _parse_single_story block with
     | Ok (Some r) => oneline (Parser.title r) = true
     | _ => True
     end) /\
  (forall text,
     match parse_user_stories text with
     | Ok rs => Forall (fun r => oneline (Parser.title r) = true) rs
     | Raise e =>
         e = ValueError /\
         existsb points_overflow (_split_into_stories text) = true
     end).
Proof.
  apply (records_satisfy (fun r => oneline (Parser.title r) = true)).
  intros block. apply story_title_oneline.
Qed.

(** X2: every acceptance criterion of a record is a text that is not
    empty and has no newline.  The parser returns records unless [int()]
    refuses the story points number of a block. *)
Theorem criteria_are_lines :
  (forall block,
     match _parse_single_story block with
     | Ok (Some r) =>
         Forall (fun c => c <> [] /\ oneline c = true) (acceptance_criteria r)
     | _ => True
     end) /\
  (forall text,
     match parse_user_stories text with
     | Ok rs =>
         Forall (fun r =>
           Forall (fun c => c <> [] /\ oneline c = true) (acceptance_criteria r))
           rs
     | Raise e =>
         e = ValueError /\
         existsb points_overflow (_split_into_stories text) = true
     end).
Proof.
  apply (records_satisfy (fun r =>
    Forall (fun c => c <> [] /\ oneline c = true) (acceptance_criteria r))).
  intros block. apply story_criteria_lines.
Qed.

(** X3: the priority of a record is never empty and has no blank
    character in it, so that it stays on its line of sections 4 and 5:
    it is [Medium] or a capitalized word. *)
Theorem priority_has_no_blank :
  (forall block,
     match _parse_single_story block with
     | Ok (Some r) =>
         priority r <> [] /\
         forallb (fun b => negb (isspace b)) (priority r) = true
     | _ => True
     end) /\
  (forall text,
     match parse_user_stories text with
     | Ok rs =>
         Forall (fun r =>
           priority r <> [] /\
           forallb (fun b => negb (isspace b)) (priority r) = true) rs
     | Raise e =>
         e = ValueError /\
         existsb points_overflow (_split_into_stories text) = true
     end).
Proof.
  apply (records_satisfy (fun r =>
    priority r <> [] /\
    forallb (fun b => negb (isspace b)) (priority r) = true)).
  intros block. apply story_priority_inked.
Qed.

(** X4: the story points of a record, when set, are not negative.  The
    parser returns records unless [int()] refuses the story points number
    of a block. *)
Theorem story_points_not_negative :
  (forall block,
     match _parse_single_story block with
     | Ok (Some r) => from_option (fun n => (0 <= n)%Z) True (story_points r)
     | _ => True
     end) /\
  (forall text,
     match parse_user_stories text with
     | Ok rs =>
         Forall (fun r =>
           from_option (fun n => (0 <= n)%Z) True (story_points r)) rs
     | Raise e =>
         e = ValueError /\
         existsb points_overflow (_split_into_stories text) = true
     end).
Proof.
  apply (records_satisfy (fun r =>
    from_option (fun n => (0 <= n)%Z) True (story_points r))).
  intros block. unfold story_of. cbn [story_points].
  destruct (story_points_of block) as [n|] eqn:Hn; [|done].
  simpl. by apply (story_points_nonneg block).
Qed.

(** X5: a block with a Gherkin match.  The match is, somewhere in the
    block, [As a ], a persona, [, I want ], an action, [ so that ] and a
    benefit, the three key phrases in any case, followed by a period, by
    the end of the block or by its final newline; persona, action and
    benefit are not empty and have no newline.  The record has the title
    [User Story: ] with the action and the description rebuilt from the
    three parts with the key phrases as the code writes them; the rest of
    the block is not in the description.  There is no record when
    [int()] refuses the story points number of the block. *)
Theorem gherkin_record :
  forall block mo,
    search I gherkin block = Some mo ->
    exists before k1 persona k2 action k3 benefit tail r,
      block = before ++ k1 ++ persona ++ k2 ++ action ++ k3 ++ benefit ++ tail /\
      lower k1 = s "as a " /\ lower k2 = s ", i want " /\
      lower k3 = s " so that " /\
      (persona <> [] /\ oneline persona = true) /\
      (action <> [] /\ oneline action = true) /\
      (benefit <> [] /\ oneline benefit = true) /\
      (tail = [] \/ tail = [nl] \/ exists after, tail = "."%char :: after) /\
      _parse_single_story block =
        (if points_overflow block then Raise ValueError else Ok (Some r)) /\
      Parser.title r = s "User Story: " ++ action /\
      description r =
        s "As a " ++ persona ++ s ", I want " ++ action ++ s " so that " ++ benefit.
Proof.
  intros block mo Hmo.
  destruct (gherkin_match_shape block mo Hmo)
    as (before & k1 & persona & k2 & action & k3 & benefit & tail & Hb & Hk1 &
        Hk2 & Hk3 & Hg1 & Hg2 & Hg3 & Hp & Ha & Hbe & Htail).
  exists before, k1, persona, k2, action, k3, benefit, tail, (story_of block).
  do 8 (split; [done|]).
  rewrite parse_single_story_fields.
  unfold story_of, story_title, story_description.
  rewrite Hmo, Hg1, Hg2, Hg3. by destruct (points_overflow block).
Qed.

(** The Gherkin example of the specification. *)
Lemma gherkin_record_witness :
  exists before k1 persona k2 action k3 benefit tail r,
    gherkin_example
      = before ++ k1 ++ persona ++ k2 ++ action ++ k3 ++ benefit ++ tail /\
    lower k1 = s "as a " /\ lower k2 = s ", i want " /\
    lower k3 = s " so that " /\
    (persona <> [] /\ oneline persona = true) /\
    (action <> [] /\ oneline action = true) /\
    (benefit <> [] /\ oneline benefit = true) /\
    (tail = [] \/ tail = [nl] \/ exists after, tail = "."%char :: after) /\
    _parse_single_story gherkin_example =
      (if points_overflow gherkin_example then Raise ValueError
       else Ok (Some r)) /\
    Parser.title r = s "User Story: " ++ action /\
    description r =
      s "As a " ++ persona ++ s ", I want " ++ action ++ s " so that " ++ benefit.
Proof.
  destruct (search I gherkin gherkin_example) as [mo|] eqn:Hmo.
  - exact (gherkin_record gherkin_example mo Hmo).
  - vm_compute in Hmo. discriminate Hmo.
Defined.

(** X6: a text has no block exactly when it is blank; when the parser
    returns, the text gives no record exactly when it is blank, and it
    gives as many records as it has blocks; and for a blank text the
    parser returns the empty list. *)
Theorem no_record_iff_blank :
  forall text,
    truthy (_split_into_stories text) = negb (blank text) /\
    match parse_user_stories text with
    | Ok rs =>
        truthy rs = negb (blank text) /\
        length rs = length (_split_into_stories text)
    | Raise e =>
        e = ValueError /\ blank text = false /\
        existsb points_overflow (_split_into_stories text) = true
    end /\
    (if blank text then parse_user_stories text = Ok [] else True).
Proof.
  intros text. pose proof (blocks_truthy text) as Hb.
  split; [done|]. rewrite parse_user_stories_blocks.
  destruct (_split_into_stories text) as [|b bs] eqn:Hblocks.
  - simpl in *. by destruct (blank text).
  - destruct (blank text); [done|].
    destruct (existsb points_overflow (b :: bs)) eqn:Hov; [done|].
    split; [|done]. split; [done|]. apply length_map.
Qed.

(** X7: the blocks of a text are in normal form.  Each block is a list of
    lines joined by newlines, the lines being not empty, without a newline
    and without a blank at either end; a block is its own single block;
    and the blocks written out with one empty line between them give the
    same blocks again, and so the same records. *)
Theorem blocks_normal_form :
  forall text,
    Forall (fun block =>
      (exists r, r <> [] /\ Forall clean_line r /\ block = join [nl] r) /\
      _split_into_stories block = [block]) (_split_into_stories text) /\
    _split_into_stories (join [nl; nl] (_split_into_stories text))
      = _split_into_stories text /\
    parse_user_stories (join [nl; nl] (_split_into_stories text))
      = parse_user_stories text.
Proof.
  intros text.
  assert (Hagain : _split_into_stories (join [nl; nl] (_split_into_stories text))
                   = _split_into_stories text).
  { rewrite (split_into_stories_runs text).
    rewrite split_into_stories_runs, runs_of_blocks; [done|].
    apply blocks_runs_clean. }
  split; [|split; [done|]].
  - rewrite split_into_stories_runs. apply Forall_fmap.
    eapply Forall_impl; [apply blocks_runs_clean|].
    intros r [Hr Hc]. split; [by exists r|]. by apply block_fixed.
  - unfold parse_user_stories. by rewrite Hagain.
Qed.

(** X8: blanks at the ends of the lines of a text do not count: the text
    and the text with every line stripped have the same blocks and the
    same records. *)
Theorem indentation_ignored :
  forall text,
    _split_into_stories (join [nl] (map strip (split nl text)))
      = _split_into_stories text /\
    parse_user_stories (join [nl] (map strip (split nl text)))
      = parse_user_stories text.
Proof.
  intros text.
  assert (Hblocks : _split_into_stories (join [nl] (map strip (split nl text)))
                    = _split_into_stories text).
  { by rewrite !split_into_stories_runs, stripped_lines_again. }
  split; [done|]. unfold parse_user_stories. by rewrite Hblocks.
Qed.

(** X9: the number printed for a story by [{i:03d}] has at least three
    characters, all digits, and writes the position [i]: [int()] reads it
    back as [i], unless it has more digits than [int()] converts; so the
    numbers of two different positions differ. *)
Theorem story_numbers_distinct :
  forall i j,
    3 <= length (fmt_03d i) /\
    forallb isdigit (fmt_03d i) = true /\
    int_value (fmt_03d i) = Z.of_nat i /\
    int (fmt_03d i) =
      (if (max_str_digits <? length (fmt_03d i))%nat then Raise ValueError
       else Ok (Z.of_nat i)) /\
    (fmt_03d i = fmt_03d j -> i = j).
Proof.
  intros i j. destruct (fmt_03d_digits i) as (Hlen & Hdig & Hint).
  split; [lia|]. do 2 (split; [done|]).
  split; [apply int_fmt_03d|apply fmt_03d_inj].
Qed.

(** The numbers of the seventh story. *)
Lemma story_numbers_distinct_witness :
  fmt_03d 7 = s "007" /\ 7 = 7.
Proof.
  split; [reflexivity|].
  apply (proj2 (proj2 (proj2 (proj2 (story_numbers_distinct 7 7))))).
  reflexivity.
Defined.

(** X10: whatever the stories, the project information and the date, the
    content of each of the eight sections is not empty and has no blank at
    its start or at its end. *)
Theorem sections_are_stripped :
  forall today stories info,
    Forall (fun section =>
      content section <> [] /\ starts_inked (content section) /\
      ends_inked (content section))
      (Generator.generate_prd today stories info).
Proof.
  intros today stories info. unfold Generator.generate_prd. cbn [app].
  unfold _generate_user_stories_section, _generate_functional_requirements,
    _generate_acceptance_criteria.
  rewrite (section_body _ us_entry _ _ user_story_step_append).
  rewrite (section_body _ fr_entry _ _ functional_step_append).
  rewrite (section_body _ ac_entry _ _ acceptance_step_append).
  repeat (apply Forall_cons; split; [apply strip_nonblank; reflexivity|]).
  constructor.
Qed.

(** X11: when no story has acceptance criteria, and so also when there is
    no story, section 6 is its first line alone. *)
Theorem no_criteria_header_only :
  forall stories,
    Forall (fun st => acceptance_criteria st = []) stories ->
    _generate_acceptance_criteria stories
    = s "Acceptance criteria for each user story:".
Proof.
  intros stories Hall. unfold _generate_acceptance_criteria.
  rewrite (section_body _ ac_entry _ _ acceptance_step_append).
  rewrite (ac_body_no_criteria stories S Hall). reflexivity.
Qed.

(** Two stories without criteria. *)
Lemma no_criteria_header_only_witness :
  _generate_acceptance_criteria
    [ story_of (s "first story"); story_of (s "second story") ]
  = s "Acceptance criteria for each user story:".
Proof.
  apply no_criteria_header_only.
  repeat constructor.
Defined.

(** X12: the text that [generate_prd] puts in the output box and the text
    that [export_text] writes to the file are the same for every list of
    sections: the texts of the sections one after the other, each one its
    title in upper case between two rules of 60 [=], an empty line, its
    content and an empty line. *)
Theorem display_and_export_agree :
  forall prd,
    fold_left App.write_step prd [] = fold_left App.prd_text_step prd [] /\
    fold_left App.prd_text_step prd [] = concat (map section_text prd).
Proof.
  intros prd. split; [apply fold_write_prd_text|].
  rewrite (fold_left_append App.prd_text_step (App.prd_text_step []));
    [|intros c x; apply prd_text_step_append].
  rewrite app_nil_l. f_equal. apply map_ext. intros section.
  unfold App.prd_text_step, section_text. cbn [app].
  by rewrite <- ?app_assoc.
Qed.

(** X13: the button that parses.  With a blank input it only warns and
    changes nothing.  When [int()] refuses the story points number of a
    block it shows the error and sets the status, and the stories of the
    previous parse stay.  With any other input the parser returns one
    story for each block, at least one, and the application reports their
    number: the branch [No valid user stories found] is never taken. *)
Theorem parse_button :
  forall a,
    let blocks := _split_into_stories (App.input_text a) in
    let rs := map story_of blocks in
    App.parse_stories a =
      (if blank (App.input_text a) then
         (a, [App.showwarning (s "Warning")
                (s "Please enter some user stories first.")])
       else if existsb points_overflow blocks then
         (App.set_status (App.set_status a (s "Parsing user stories..."))
            (s "Error parsing stories"),
          [App.showerror (s "Error") (s "Error parsing user stories: ")
             ValueError])
       else
         (App.set_status
            (App.set_stories (App.set_status a (s "Parsing user stories...")) rs)
            (s "Parsed " ++ str_of_nat (length rs) ++ s " user stories"),
          [App.showinfo (s "Success")
             (s "Successfully parsed " ++ str_of_nat (length rs)
                ++ s " user stories!")])) /\
    (if blank (App.input_text a) then True else rs <> []) /\
    (if existsb points_overflow blocks
     then App.current_stories (App.parse_stories a).1 = App.current_stories a
     else True).
Proof.
  intros a blocks rs.
  assert (Htruthy : truthy rs = negb (blank (App.input_text a))).
  { unfold rs, blocks. rewrite <- blocks_truthy.
    by destruct (_split_into_stories _). }
  assert (Hparse : App.parse_stories a =
    (if blank (App.input_text a) then
       (a, [App.showwarning (s "Warning")
              (s "Please enter some user stories first.")])
     else if existsb points_overflow blocks then
       (App.set_status (App.set_status a (s "Parsing user stories..."))
          (s "Error parsing stories"),
        [App.showerror (s "Error") (s "Error parsing user stories: ")
           ValueError])
     else
       (App.set_status
          (App.set_stories (App.set_status a (s "Parsing user stories...")) rs)
          (s "Parsed " ++ str_of_nat (length rs) ++ s " user stories"),
        [App.showinfo (s "Success")
           (s "Successfully parsed " ++ str_of_nat (length rs)
              ++ s " user stories!")]))).
  { unfold App.parse_stories. rewrite truthy_strip, negb_involutive.
    destruct (blank (App.input_text a)); [done|].
    rewrite parse_user_stories_blocks. fold blocks.
    destruct (existsb points_overflow blocks); [done|]. fold rs.
    cbn [App.current_stories App.set_stories]. by rewrite Htruthy. }
  split; [done|]. split.
  - destruct (blank (App.input_text a)); [done|]. by destruct rs.
  - rewrite Hparse. destruct (existsb points_overflow blocks); [|done].
    by destruct (blank (App.input_text a)).
Qed.

(** X14: in every state that the application reaches, by any buttons and
    edits: every current story has a title and a description; the current
    PRD is empty or has the eight sections; and a step writes a file only
    by one of the two export buttons, with a file name that is not empty,
    when the PRD has its eight sections.  What the text export writes is
    the text of these sections as the output box got it; what the PDF
    export gives to be written is the list of paragraphs and spaces of
    these sections. *)
Theorem reachable_states :
  forall acts,
    Forall (fun st => Parser.title st <> [] /\ description st <> [])
      (App.current_stories (App.run_actions acts)) /\
    (App.current_prd (App.run_actions acts) = [] \/
     map Generator.title (App.current_prd (App.run_actions acts)) = prd_titles) /\
    (forall act filename text,
       App.write_file filename text ∈ (App.step (App.run_actions acts) act).2 ->
       (exists io, act = App.press_export filename io) /\
       filename <> [] /\
       map Generator.title (App.current_prd (App.run_actions acts)) = prd_titles /\
       text = fold_left App.prd_text_step (App.current_prd (App.run_actions acts)) []) /\
    (forall act filename story,
       App.build_pdf filename story ∈ (App.step (App.run_actions acts) act).2 ->
       (exists io, act = App.press_export_pdf filename io) /\
       filename <> [] /\
       map Generator.title (App.current_prd (App.run_actions acts)) = prd_titles /\
       story = fold_left App.pdf_step (App.current_prd (App.run_actions acts)) []).
Proof.
  intros acts. destruct (run_actions_inv acts) as [Hst Hprd].
  assert (Htitles : App.current_prd (App.run_actions acts) = [] \/
     map Generator.title (App.current_prd (App.run_actions acts)) = prd_titles).
  { destruct Hprd as [?|(today & stories & info & _ & ->)]; [by left|by right]. }
  split; [done|]. split; [done|]. split.
  - intros act filename text Hin.
    destruct act as [|date today|fname io|fname io|fname read| |txt|txt|t au rel];
      cbn [App.step snd] in Hin.
    + unfold App.parse_stories in Hin.
      destruct (negb (truthy (strip _))); cbn [snd] in Hin.
      { by apply list_elem_of_singleton in Hin. }
      destruct (parse_user_stories _); [|by apply list_elem_of_singleton in Hin].
      destruct (truthy _); by apply list_elem_of_singleton in Hin.
    + unfold App.generate_prd in Hin.
      destruct (negb (truthy _)); cbn [snd] in Hin.
      * by apply list_elem_of_singleton in Hin.
      * by apply elem_of_nil in Hin.
    + unfold App.export_pdf in Hin.
      destruct (negb (truthy _)); cbn [snd] in Hin.
      { by apply list_elem_of_singleton in Hin. }
      destruct (truthy fname); cbn [snd] in Hin; [|by apply elem_of_nil in Hin].
      destruct io as [e|]; cbn [snd] in Hin;
        [by apply list_elem_of_singleton in Hin|].
      apply elem_of_cons in Hin as [Hw|Hin]; [done|].
      by apply list_elem_of_singleton in Hin.
    + unfold App.export_text in Hin.
      destruct (App.current_prd (App.run_actions acts)) as [|sec prd] eqn:Hcur.
      { by apply list_elem_of_singleton in Hin. }
      cbn [truthy negb] in Hin.
      destruct fname as [|c fname]; cbn [truthy snd] in Hin;
        [by apply elem_of_nil in Hin|].
      destruct io as [e|]; cbn [snd] in Hin;
        [by apply list_elem_of_singleton in Hin|].
      apply elem_of_cons in Hin as [Hw|Hin];
        [|by apply list_elem_of_singleton in Hin].
      injection Hw as -> ->.
      split; [by eexists|]. split; [done|]. split.
      * by destruct Htitles.
      * exact (fold_write_prd_text (sec :: prd) []).
    + unfold App.load_file in Hin.
      destruct (truthy fname); cbn [snd] in Hin; [|by apply elem_of_nil in Hin].
      destruct read; cbn [snd] in Hin;
        [by apply elem_of_nil in Hin|by apply list_elem_of_singleton in Hin].
    + by apply elem_of_nil in Hin.
    + by apply elem_of_nil in Hin.
    + by apply elem_of_nil in Hin.
    + by apply elem_of_nil in Hin.
  - intros act filename story Hin.
    destruct act as [|date today|fname io|fname io|fname read| |txt|txt|t au rel];
      cbn [App.step snd] in Hin.
    + unfold App.parse_stories in Hin.
      destruct (negb (truthy (strip _))); cbn [snd] in Hin.
      { by apply list_elem_of_singleton in Hin. }
      destruct (parse_user_stories _); [|by apply list_elem_of_singleton in Hin].
      destruct (truthy _); by apply list_elem_of_singleton in Hin.
    + unfold App.generate_prd in Hin.
      destruct (negb (truthy _)); cbn [snd] in Hin.
      * by apply list_elem_of_singleton in Hin.
      * by apply elem_of_nil in Hin.
    + unfold App.export_pdf in Hin.
      destruct (App.current_prd (App.run_actions acts)) as [|sec prd] eqn:Hcur.
      { by apply list_elem_of_singleton in Hin. }
      cbn [truthy negb] in Hin.
      destruct fname as [|c fname]; cbn [truthy snd] in Hin;
        [by apply elem_of_nil in Hin|].
      destruct io as [e|]; cbn [snd] in Hin;
        [by apply list_elem_of_singleton in Hin|].
      apply elem_of_cons in Hin as [Hw|Hin];
        [|by apply list_elem_of_singleton in Hin].
      injection Hw as -> ->.
      split; [by eexists|]. split; [done|]. split; [|done].
      by destruct Htitles.
    + unfold App.export_text in Hin.
      destruct (negb (truthy _)); cbn [snd] in Hin.
      { by apply list_elem_of_singleton in Hin. }
      destruct (truthy fname); cbn [snd] in Hin; [|by apply elem_of_nil in Hin].
      destruct io as [e|]; cbn [snd] in Hin;
        [by apply list_elem_of_singleton in Hin|].
      apply elem_of_cons in Hin as [Hw|Hin]; [done|].
      by apply list_elem_of_singleton in Hin.
    + unfold App.load_file in Hin.
      destruct (truthy fname); cbn [snd] in Hin; [|by apply elem_of_nil in Hin].
      destruct read; cbn [snd] in Hin;
        [by apply elem_of_nil in Hin|by apply list_elem_of_singleton in Hin].
    + by apply elem_of_nil in Hin.
    + by apply elem_of_nil in Hin.
    + by apply elem_of_nil in Hin.
    + by apply elem_of_nil in Hin.
Qed.

(** The Gherkin example typed, parsed and generated, then exported as
    text and as PDF. *)
Lemma reachable_states_witness :
  (exists text,
     App.write_file (s "prd.txt") text
       ∈ (App.step (App.run_actions demo_actions)
            (App.press_export (s "prd.txt") None)).2 /\
     text = fold_left App.prd_text_step
              (App.current_prd (App.run_actions demo_actions)) []) /\
  (exists story,
     App.build_pdf (s "prd.pdf") story
       ∈ (App.step (App.run_actions demo_actions)
            (App.press_export_pdf (s "prd.pdf") None)).2 /\
     story = fold_left App.pdf_step
               (App.current_prd (App.run_actions demo_actions)) []).
Proof.
  split.
  - eexists. split; [vm_compute; apply list_elem_of_here|].
    apply (proj1 (proj2 (proj2 (reachable_states demo_actions)))
             (App.press_export (s "prd.txt") None) (s "prd.txt")).
    vm_compute. apply list_elem_of_here.
  - eexists. split; [vm_compute; apply list_elem_of_here|].
    apply (proj2 (proj2 (proj2 (reachable_states demo_actions)))
             (App.press_export_pdf (s "prd.pdf") None) (s "prd.pdf")).
    vm_compute. apply list_elem_of_here.
Defined.

(** X15: the entries left empty count as missing keys for the first
    section: with the three entries empty, the Project Information
    section is the one that the generator gives for an empty project
    information and the date that the application read, whatever the date
    the generator would read for its own default. *)
Theorem empty_entries_are_defaults :
  forall date today a,
    App.current_stories a <> [] ->
    App.project_title a = [] -> App.project_author a = [] ->
    App.target_release a = [] ->
    App.current_prd (App.generate_prd date today a).1 !! 0
    = Generator.generate_prd date (App.current_stories a) ∅ !! 0.
Proof.
  intros date today a Hst Ht Ha Hr. unfold App.generate_prd.
  destruct (App.current_stories a) as [|st stories]; [done|].
  cbn [truthy negb fst App.current_prd App.set_status App.set_output App.set_prd
       App.project_title App.project_author App.target_release
       App.current_stories].
  rewrite Ht, Ha, Hr. unfold Generator.generate_prd.
  cbn [app lookup list_lookup]. do 2 f_equal.
Qed.

(** The application after the Gherkin example was typed and parsed. *)
Lemma empty_entries_are_defaults_witness :
  let a := App.run_actions [ App.edit_input gherkin_example; App.press_parse ] in
  App.current_prd (App.generate_prd (s "2024-01-01") (s "2024-01-02") a).1 !! 0
  = Generator.generate_prd (s "2024-01-01") (App.current_stories a) ∅ !! 0.
Proof.
  intros a.
  apply (empty_entries_are_defaults (s "2024-01-01") (s "2024-01-02") a);
    [|reflexivity|reflexivity|reflexivity].
  vm_compute. discriminate.
Defined.

(** X16: the story points of a record are the number after the first
    story points label of its block that is followed by a number.  A label
    is [Story Points:], [Story Point:], [Points:], [Point:] or [SP:], in
    any case; the number is the longest run of digits after the label and
    optional blanks, read in base ten, so leading zeros do not count.
    When the block has a record this number has no more digits than
    [int()] converts; when it has more, the block has no record and
    [_parse_single_story] raises [ValueError].  In the block of
    [two_points], with [Story Points: 08] before [SP: 3], the story points
    are 8. *)
Theorem story_points_of_first_label :
  (forall block r before x d,
     _parse_single_story block = Ok (Some r) ->
     block = before ++ x -> points_value_at x d ->
     (forall b1 b2 d', before = b1 ++ b2 -> b2 <> [] ->
                       ~ points_value_at (b2 ++ x) d') ->
     story_points r = Some (int_value d) /\
     length d <= max_str_digits /\ int d = Ok (int_value d)) /\
  (forall block before x d,
     block = before ++ x -> points_value_at x d ->
     (forall b1 b2 d', before = b1 ++ b2 -> b2 <> [] ->
                       ~ points_value_at (b2 ++ x) d') ->
     max_str_digits < length d ->
     _parse_single_story block = Raise ValueError) /\
  (forall n, int_value (str_of_nat n) = Z.of_nat n) /\
  (forall k d, int_value (replicate k "0"%char ++ d) = int_value d) /\
  (exists r, parse_user_stories two_points = Ok [r] /\
             story_points r = Some 8%Z).
Proof.
  split; [|split; [|split; [|split]]].
  - intros block r before x d Hr -> Hat Hfirst.
    pose proof (points_digits_first before x d Hat Hfirst) as Hd.
    assert (Hlen : length d <= max_str_digits).
    { rewrite parse_single_story_fields in Hr. unfold points_overflow in Hr.
      rewrite Hd in Hr.
      destruct (max_str_digits <? length d)%nat eqn:Hov; [done|].
      by apply Nat.ltb_ge in Hov. }
    apply parsed_story_of in Hr as ->. split; [|split; [done|]].
    + cbn [story_of story_points]. by apply story_points_first.
    + destruct Hat as (lab & ws & rest & _ & _ & _ & Hne & Hdig & _).
      rewrite int_digits by done.
      apply Nat.ltb_ge in Hlen. by rewrite Hlen.
  - intros block before x d -> Hat Hfirst Hlong.
    rewrite parse_single_story_fields. unfold points_overflow.
    rewrite (points_digits_first before x d Hat Hfirst).
    apply Nat.ltb_lt in Hlong. by rewrite Hlong.
  - intros n. apply str_of_nat_digits.
  - apply int_value_zeros.
  - eexists. split; [by vm_compute|]. by vm_compute.
Qed.

(** The block [Story Points: 08], a new line, [SP: 3]: the label at the
    start of the block is the first one, and its number is [08]; and the
    block [SP: ] with 4301 digits. *)
Lemma story_points_of_first_label_witness :
  let block := text [ s "Story Points: 08"; s "SP: 3" ] in
  (story_points (story_of block) = Some (int_value (s "08")) /\
   length (s "08") <= max_str_digits /\
   int (s "08") = Ok (int_value (s "08"))) /\
  _parse_single_story overlong_points = Raise ValueError.
Proof.
  intros block. split.
  - apply (proj1 story_points_of_first_label block (story_of block) []
             block (s "08")).
    + reflexivity.
    + reflexivity.
    + exists (s "Story Points:"), (s " "), (nl :: s "SP: 3").
      split; [reflexivity|]. split; [left; reflexivity|].
      split; [reflexivity|]. split; [by vm_compute|].
      split; reflexivity.
    + intros b1 b2 d' Hb Hb2. by destruct b1, b2.
  - apply (proj1 (proj2 story_points_of_first_label) overlong_points []
             overlong_points (replicate (S max_str_digits) "1"%char)).
    + reflexivity.
    + exists (s "SP:"), (s " "), [].
      split; [by rewrite app_nil_r|]. split; [do 4 right; reflexivity|].
      split; [reflexivity|]. split; [done|].
      split; [by vm_compute|done].
    + intros b1 b2 d' Hb Hb2. by destruct b1, b2.
    + rewrite length_replicate. lia.
Defined.

(** X17: the PDF document that [export_pdf] builds follows the sections:
    for each section in order its title as a heading, a space, its
    content line by line and a space.  So the headings of the document
    are the titles of the sections, and its paragraphs are the lines of
    the contents that are not blank, in order; a blank line is a space,
    never an empty paragraph. *)
Theorem pdf_document_sections :
  forall prd,
    fold_left App.pdf_step prd [] = concat (map pdf_section prd) /\
    omap heading_of (fold_left App.pdf_step prd [])
      = map Generator.title prd /\
    omap body_of (fold_left App.pdf_step prd [])
      = List.filter (fun l => truthy (strip l))
          (concat (map (fun sec => split nl (content sec)) prd)) /\
    Forall (fun text => blank text = false)
      (omap body_of (fold_left App.pdf_step prd [])).
Proof.
  intros prd. rewrite pdf_story_sections. cbn [app].
  assert (Hbody : omap body_of (concat (map pdf_section prd))
            = List.filter (fun l => truthy (strip l))
                (concat (map (fun sec => split nl (content sec)) prd))).
  { rewrite filter_concat, map_map.
    induction prd as [|sec prd IH]; [done|].
    cbn [map concat]. rewrite omap_app, IH. f_equal.
    unfold pdf_section. cbn [app omap list_omap body_of].
    by rewrite omap_app, pdf_lines_bodies, app_nil_r. }
  split; [done|]. split; [|split; [done|]].
  - clear Hbody. induction prd as [|sec prd IH]; [done|].
    cbn [map concat]. rewrite omap_app, IH.
    unfold pdf_section. cbn [app omap list_omap heading_of].
    by rewrite omap_app, pdf_lines_headings.
  - rewrite Hbody. apply Forall_forall. intros l Hl%list_elem_of_In.
    apply List.filter_In in Hl as [_ Hl].
    rewrite truthy_strip in Hl. by destruct (blank l).
Qed.
